(** * Pre-amplifier pattern-noise correction of [jwst.py]

    A shallow embedding of [src/jwst.py]: its numeric core
    ([cc_uniluminated_outliers], [get_roeba], [get_loom],
    [get_last_minus_first], [get_uniluminated_mask] and the correction
    block of [stage1]), then the driver [stage1] with
    [download_reference_file], together with the properties proved
    about them.

    Conventions of the embedding.
    - A numpy scalar is a [px]: an exact rational ([Qc], canonical
      fractions, Leibniz equality) or [NaN].  Rounding of binary64 and
      infinities are not modelled; every operation that numpy performs on
      NaN is written out ([NaN] is absorbing for arithmetic, every
      comparison with [NaN] is false).
    - An n-dimensional array is a nested list in row-major order.  A frame
      is a list of rows; a ramp is a list of integrations, each a list of
      groups, each a frame.  The shape is read off the nested list, so an
      array whose leading axis is empty has empty trailing axes.
    - Python exceptions are values of [result].
    - [scipy.sparse.linalg.lsmr] is a parameter of [get_loom] and of
      [stage1_preamp]; what is assumed of it is stated where it is used. *)

From Stdlib Require Import List Arith ZArith QArith Qcanon Qcabs Lia Lqa ZifyNat Bool.
From Stdlib Require Import Permutation Sorted Orders Mergesort.
From Stdlib Require String Ascii.
Import ListNotations.
Import String.StringSyntax.

Set Implicit Arguments.

Local Close Scope Qc_scope.
Local Close Scope Q_scope.
Local Open Scope nat_scope.

(** ** Scalars *)

Definition px : Type := option Qc.

Definition NaN : px := None.

Definition num (q : Qc) : px := Some q.

Definition lift2 (f : Qc -> Qc -> Qc) (a b : px) : px :=
  match a, b with
  | Some x, Some y => Some (f x y)
  | _, _ => NaN
  end.

Definition padd : px -> px -> px := lift2 Qcplus.
Definition psub : px -> px -> px := lift2 Qcminus.
Definition pmul : px -> px -> px := lift2 Qcmult.

Definition pabs (a : px) : px :=
  match a with
  | Some x => Some (Qcabs x)
  | None => NaN
  end.

Definition Qcltb (x y : Qc) : bool :=
  match (x ?= y)%Qc with
  | Lt => true
  | _ => false
  end.

Definition Qcleb (x y : Qc) : bool :=
  match (x ?= y)%Qc with
  | Gt => false
  | _ => true
  end.

(** [a > b] on numpy scalars: false as soon as one side is NaN. *)
Definition pgtb (a b : px) : bool :=
  match a, b with
  | Some x, Some y => Qcltb y x
  | _, _ => false
  end.

(** [a == 0.] *)
Definition is_zero (a : px) : bool :=
  match a with
  | Some x => if Qc_eq_dec x 0%Qc then true else false
  | None => false
  end.

Definition zero : px := num 0%Qc.
Definition one : px := num 1%Qc.

(** The constant [1.4826] that turns a MAD into a Gaussian sigma. *)
Definition mad_scale : Qc := Q2Qc (7413 # 5000).

(** ** Order statistics *)

Module QcOrder <: TotalLeBool.
Definition t := Qc.
Definition leb := Qcleb.
Theorem leb_total : forall x y, leb x y = true \/ leb y x = true.
Proof.
  intros x y. unfold leb, Qcleb, Qccompare.
  rewrite <- (Qcompare_antisym x y).
  destruct (x ?= y)%Q; simpl; auto.
Qed.
End QcOrder.

Module QcSort := Sort QcOrder.

(** Middle of a sorted sample: the central element, or the mean of the two
    central ones ([np.mean] of the selected order statistics). *)
Definition middle (s : list Qc) : Qc :=
  let n := length s in
  if Nat.odd n then nth (n / 2) s 0%Qc
  else ((nth (n / 2 - 1) s 0%Qc + nth (n / 2) s 0%Qc) / Q2Qc 2)%Qc.

Definition medianQ (l : list Qc) : px :=
  match l with
  | [] => NaN
  | _ => num (middle (QcSort.sort l))
  end.

(** The non-NaN entries of a sample, in order. *)
Fixpoint drop_nan (l : list px) : list Qc :=
  match l with
  | [] => []
  | Some x :: l' => x :: drop_nan l'
  | None :: l' => drop_nan l'
  end.

Definition has_nan (l : list px) : bool :=
  existsb (fun a => match a with None => true | Some _ => false end) l.

(** [np.nanmedian] of a flattened sample. *)
Definition nanmedian (l : list px) : px := medianQ (drop_nan l).

(** [np.median] of a flattened sample: NaN as soon as one entry is. *)
Definition median (l : list px) : px :=
  if has_nan l then NaN else medianQ (drop_nan l).

(** [np.sum] of a flattened sample, accumulated from zero. *)
Definition psum (l : list px) : px := fold_left padd l zero.

(** ** Arrays *)

Definition vec : Type := list px.
Definition frame : Type := list (list px).
Definition ramp : Type := list (list frame).

(** [a.shape[0]] and [a.shape[1]] of a 2-D array. *)
Definition nrows (a : frame) : nat := length a.
Definition ncols (a : frame) : nat :=
  match a with
  | [] => 0
  | r :: _ => length r
  end.

(** Rectangular arrays of a given shape. *)
Definition has_shape (nr nc : nat) (a : frame) : Prop :=
  length a = nr /\ Forall (fun r => length r = nc) a.

(** [a[r, c]] *)
Definition pix (a : frame) (r c : nat) : px := nth c (nth r a []) NaN.

(** [a[:, j]] *)
Definition column (j : nat) (a : frame) : vec := map (fun r => nth j r NaN) a.

(** [a.flatten()] *)
Definition flatten (a : frame) : vec := concat a.

(** [a[::2]] and [a[1::2]] along the first axis. *)
Fixpoint evens (A : Type) (l : list A) : list A :=
  match l with
  | [] => []
  | x :: l' =>
      x :: match l' with
           | [] => []
           | _ :: l'' => evens l''
           end
  end.

Definition odds (A : Type) (l : list A) : list A :=
  match l with
  | [] => []
  | _ :: l' => evens l'
  end.

(** [np.zeros(shape)] and [np.ones(shape)] *)
Definition full (nr nc : nat) (v : px) : frame := repeat (repeat v nc) nr.

(** Element-wise binary operation on congruent arrays. *)
Fixpoint zip_with (A B C : Type) (f : A -> B -> C) (l : list A) (m : list B) : list C :=
  match l, m with
  | x :: l', y :: m' => f x y :: zip_with f l' m'
  | _, _ => []
  end.

Definition map2 (f : px -> px -> px) (a b : frame) : frame :=
  zip_with (zip_with f) a b.

(** [a (op) v] with the row vector [v] broadcast over the rows of [a]. *)
Definition broadcast_row (f : px -> px -> px) (a : frame) (v : vec) : frame :=
  map (fun r => zip_with f r v) a.

(** [a (op) s] with the scalar [s] broadcast. *)
Definition broadcast_scalar (f : px -> px -> px) (a : frame) (s : px) : frame :=
  map (map (fun x => f x s)) a.

(** Reductions along the first axis of an array with [nc] columns. *)
Definition median_axis0 (nc : nat) (a : frame) : vec :=
  map (fun j => median (column j a)) (seq 0 nc).

Definition nanmedian_axis0 (nc : nat) (a : frame) : vec :=
  map (fun j => nanmedian (column j a)) (seq 0 nc).

Definition sum_axis0 (nc : nat) (a : frame) : vec :=
  map (fun j => psum (column j a)) (seq 0 nc).

Definition sum_axis1 (a : frame) : vec := map psum a.

(** [v[k] = x] on a vector, [a[r, c] = x] on an array. *)
Fixpoint set_nth (A : Type) (k : nat) (x : A) (l : list A) : list A :=
  match l, k with
  | [], _ => []
  | _ :: l', O => x :: l'
  | y :: l', S k' => y :: set_nth k' x l'
  end.

Definition set_pix (r c : nat) (x : px) (a : frame) : frame :=
  set_nth r (set_nth c x (nth r a [])) a.

(** [np.where(cond)] on a 2-D boolean array: the positions that hold
    [True], in row-major order. *)
Definition where_row (r : nat) (row : list bool) : list (nat * nat) :=
  map (fun c => (r, c)) (filter (fun c => nth c row false) (seq 0 (length row))).

Fixpoint where2_from (r : nat) (cond : list (list bool)) : list (nat * nat) :=
  match cond with
  | [] => []
  | row :: cond' => where_row r row ++ where2_from (S r) cond'
  end.

Definition where2 (cond : list (list bool)) : list (nat * nat) := where2_from 0 cond.

(** [a[idx] = x] for a list of positions. *)
Definition assign_at (idx : list (nat * nat)) (x : px) (a : frame) : frame :=
  fold_left (fun m rc => set_pix (fst rc) (snd rc) x m) idx a.

(** ** Exceptions *)

Inductive exn : Type := IndexError.

Inductive result (A : Type) : Type :=
| Ok (a : A)
| Raise (e : exn).

Arguments Ok {A} a.
Arguments Raise {A} e.

Definition bind (A B : Type) (m : result A) (k : A -> result B) : result B :=
  match m with
  | Ok a => k a
  | Raise e => Raise e
  end.

Notation "x <- m ;; k" := (bind m (fun x => k))
  (at level 61, m at next level, right associativity).

(** A [for] loop whose body may raise: the state is threaded through the
    turns and the first exception ends the loop. *)
Fixpoint for_each (A S : Type) (body : S -> A -> result S) (l : list A) (s : S) : result S :=
  match l with
  | [] => Ok s
  | x :: l' => s' <- body s x ;; for_each body l' s'
  end.

(** [v[k]] for a non-negative [k]. *)
Definition index (v : vec) (k : nat) : result px :=
  match nth_error v k with
  | Some x => Ok x
  | None => Raise IndexError
  end.

(** An integer index into an axis of length [n], as numpy resolves it:
    [0 .. n-1] as it stands, [-n .. -1] counted from the end, anything else
    an [IndexError]. *)
Definition py_index (n : nat) (g : Z) : result nat :=
  if ((0 <=? g) && (g <? Z.of_nat n))%Z then Ok (Z.to_nat g)
  else if ((- Z.of_nat n <=? g) && (g <? 0))%Z then Ok (Z.to_nat (Z.of_nat n + g))
  else Raise IndexError.

(** ** [get_uniluminated_mask] (lines 265-306) *)

(** [np.where(v > t)[0]]: the positions of [v], in order, whose entry
    exceeds [t]. *)
Definition where_gt (v : vec) (t : px) : list nat :=
  filter (fun r => pgtb (nth r v NaN) t) (seq 0 (length v)).

(** [mask[idx, i] = 0] *)
Definition clear_column (idx : list nat) (i : nat) (mask : frame) : frame :=
  assign_at (map (fun r => (r, i)) idx) zero mask.

(** [sigma] of column [i]: the MAD of the column residuals, scaled. *)
Definition column_sigma (data : frame) (cc : vec) (i : nat) : px :=
  let column_residuals := map (fun x => psub x (nth i cc NaN)) (column i data) in
  let mad :=
    nanmedian
      (map (fun x => pabs (psub x (nanmedian column_residuals))) column_residuals) in
  pmul mad (num mad_scale).

(** One turn of the loop over the columns. *)
Definition uniluminated_step (data : frame) (nsigma : Qc) (cc : vec)
    (mask : frame) (i : nat) : frame :=
  let sigma := column_sigma data cc i in
  let idx :=
    where_gt (column i data) (padd (nth i cc NaN) (pmul (num nsigma) sigma)) in
  clear_column idx i mask.

Definition get_uniluminated_mask (data : frame) (nsigma : Qc) : frame :=
  let cc := median_axis0 (ncols data) data in
  let mask := full (nrows data) (ncols data) one in
  fold_left (uniluminated_step data nsigma cc) (seq 0 (length cc)) mask.

(** ** [cc_uniluminated_outliers] (lines 13-57) *)

(** [a == 0.] element-wise. *)
Definition eq_zero (a : frame) : list (list bool) := map (map is_zero) a.

(** [nan_data = np.copy(data); nan_data[mask == 0] = np.nan] *)
Definition nan_where_masked (data mask : frame) : frame :=
  assign_at (where2 (eq_zero mask)) NaN data.

(** The robust statistics of the columns: [column_medians] and
    [column_mads] of the source, NaN entries ignored. *)
Definition column_medians (data mask : frame) : vec :=
  nanmedian_axis0 (ncols data) (nan_where_masked data mask).

Definition column_mads (data mask : frame) : vec :=
  nanmedian_axis0 (ncols data)
    (map (map pabs)
       (broadcast_row psub (nan_where_masked data mask) (column_medians data mask))).

Definition cc_uniluminated_outliers (data mask : frame) (nsigma : Qc) : frame :=
  let column_medians := column_medians data mask in
  let column_mads := column_mads data mask in
  let idx :=
    where2
      (map (fun row =>
              zip_with pgtb row
                (map (fun m => pmul (pmul (num nsigma) m) (num mad_scale)) column_mads))
         (map (map pabs) (broadcast_row psub data column_medians))) in
  let new_mask := assign_at idx zero (full (nrows data) (ncols data) one) in
  map2 pmul mask new_mask.

(** ** [get_roeba] (lines 59-97) *)

(** [a[::2, :] = v] and [a[1::2, :] = v] *)
Fixpoint fill_evens (v : px) (a : frame) : frame :=
  match a with
  | [] => []
  | r :: a' =>
      map (fun _ => v) r ::
      match a' with
      | [] => []
      | r' :: a'' => r' :: fill_evens v a''
      end
  end.

Definition fill_odds (v : px) (a : frame) : frame :=
  match a with
  | [] => []
  | r :: a' => r :: fill_evens v a'
  end.

Definition get_roeba (data mask : frame) : frame :=
  let nan_data := nan_where_masked data mask in
  let roeba := full (nrows data) (ncols data) zero in
  let roeba := fill_evens (nanmedian (flatten (evens nan_data))) roeba in
  let roeba := fill_odds (nanmedian (flatten (odds nan_data))) roeba in
  broadcast_row padd roeba (nanmedian_axis0 (ncols data) nan_data).

(** ** [get_loom] (lines 100-198) *)

(** [A[i, k:] = vs] *)
Definition set_row_from (i k : nat) (vs : vec) (a : frame) : frame :=
  set_nth i (firstn k (nth i a []) ++ vs) a.

(** [A[k:, j] = vs] *)
Definition set_col_from (k j : nat) (vs : vec) (a : frame) : frame :=
  fold_left (fun m t => set_pix (k + t) j (nth t vs NaN) m) (seq 0 (length vs)) a.

(** [a[::2, :] += v], [a[1::2, :] += v] and [a[:, j] += v] *)
Fixpoint add_evens (v : px) (a : frame) : frame :=
  match a with
  | [] => []
  | r :: a' =>
      map (fun x => padd x v) r ::
      match a' with
      | [] => []
      | r' :: a'' => r' :: add_evens v a''
      end
  end.

Definition add_odds (v : px) (a : frame) : frame :=
  match a with
  | [] => []
  | r :: a' => r :: add_evens v a'
  end.

Definition add_column (j : nat) (v : px) (a : frame) : frame :=
  map (fun r => set_nth j (padd (nth j r NaN) v) r) a.

(** The matrix [A] and the vector [b] of the normal equations, filled in
    the order of the source. *)
Definition loom_system (data mask : frame) : frame * vec :=
  let ncolumns := ncols data in
  let A := full (ncolumns + 2) (ncolumns + 2) zero in
  let b := repeat zero (ncolumns + 2) in
  let nrows_j := sum_axis0 ncolumns mask in
  let neven_j := sum_axis0 ncolumns (evens mask) in
  let nodd_j := sum_axis0 ncolumns (odds mask) in
  let ncols_i := sum_axis1 mask in
  let nE := psum (evens ncols_i) in
  let nO := psum (odds ncols_i) in
  let A := set_row_from 0 2 nodd_j (set_pix 0 1 zero (set_pix 0 0 nO A)) in
  let b := set_nth 0 (psum (flatten (map2 pmul (odds mask) (odds data)))) b in
  let A := set_row_from 1 2 neven_j (set_pix 1 1 nE (set_pix 1 0 zero A)) in
  let b := set_nth 1 (psum (flatten (map2 pmul (evens mask) (evens data)))) b in
  let A := set_col_from 2 1 neven_j (set_col_from 2 0 nodd_j A) in
  fold_left
    (fun Ab j =>
       (set_pix (j + 2) (j + 2) (nth j nrows_j NaN) (fst Ab),
        set_nth (j + 2) (psum (zip_with pmul (column j mask) (column j data))) (snd Ab)))
    (seq 0 ncolumns) (A, b).

Section Loom.

(** [lsmr(A, b)[0]] of [scipy.sparse.linalg]: the solver is a library
    function, taken as given. *)
Variable lsmr : frame -> vec -> vec.

Definition get_loom (data mask : frame) (return_parameters : bool)
  : result (frame * option vec) :=
  let ncolumns := ncols data in
  let Ab := loom_system data mask in
  let x := lsmr (fst Ab) (snd Ab) in
  let loom := full (nrows data) ncolumns zero in
  x0 <- index x 0 ;;
  let loom := add_odds x0 loom in
  x1 <- index x 1 ;;
  let loom := add_evens x1 loom in
  loom <- for_each
            (fun loom j => xj <- index x (j + 2) ;; Ok (add_column j xj loom))
            (seq 0 ncolumns) loom ;;
  if negb return_parameters then Ok (loom, None) else Ok (loom, Some x).

End Loom.

(** ** [get_last_minus_first] (lines 211-263)

    A nested list keeps no trailing shape once its leading axis is empty:
    the ramp [[]] stands for the array of shape (0, 0, 0, 0) only, for
    which the function below returns the two empty arrays that the code
    returns.  An array without integrations but with rows and columns, for
    which the code returns a frame of NaN as median, is not a value of
    [ramp]; what is proved of the function is proved through the pixels of
    its outputs, or for ramps with at least one integration. *)

(** [data.shape[1]], [data.shape[2]] and [data.shape[3]] of a 4-D array. *)
Definition ngroups_of (data : ramp) : nat :=
  match data with
  | [] => 0
  | g :: _ => length g
  end.

Definition frame0_of (data : ramp) : frame :=
  match data with
  | (f :: _) :: _ => f
  | _ => []
  end.

(** [data[i, g, :, :]] for an integer group index [g]. *)
Definition group_at (data : ramp) (i : nat) (g : Z) : result frame :=
  k <- py_index (ngroups_of data) g ;;
  Ok (nth k (nth i data []) []).

(** [frame - np.nanmedian(frame)] *)
Definition minus_nanmedian (f : frame) : frame :=
  broadcast_scalar psub f (nanmedian (flatten f)).

(** [np.nanmedian(cube, axis = 0)] for a cube of [nr] x [nc] frames. *)
Definition nanmedian_cube (nr nc : nat) (cube : list frame) : frame :=
  map (fun r => map (fun c => nanmedian (map (fun f => pix f r c) cube)) (seq 0 nc))
    (seq 0 nr).

Definition get_last_minus_first (data : ramp) (min_group max_group : option Z)
  : result (list frame * frame) :=
  let nintegrations := length data in
  let ngroups := ngroups_of data in
  let nr := nrows (frame0_of data) in
  let nc := ncols (frame0_of data) in
  let lmf := repeat (full nr nc zero) nintegrations in
  let max_group :=
    match max_group with
    | None => (Z.of_nat ngroups - 1)%Z
    | Some g => g
    end in
  let min_group :=
    match min_group with
    | None => 0%Z
    | Some g => g
    end in
  lmf <- for_each
           (fun lmf i =>
              last <- group_at data i max_group ;;
              let last_group := minus_nanmedian last in
              first <- group_at data i min_group ;;
              let first_group := minus_nanmedian first in
              Ok (set_nth i (map2 psub last_group first_group) lmf))
           (seq 0 nintegrations) lmf ;;
  let median_lmf := nanmedian_cube nr nc lmf in
  Ok (lmf, median_lmf).

(** ** The pre-amplifier correction of [stage1] (lines 539-632) *)

Inductive preamp : Type := Roeba | Loom | Stsci.

Record preamp_products : Type := {
  out_mask : frame;
  out_refpix : ramp;
  out_lmf_before : list frame;
  out_lmf_after : list frame
}.

(** [refpix.data[i, j, :, :] = f] *)
Definition set_group (i j : nat) (f : frame) (data : ramp) : ramp :=
  set_nth i (set_nth j f (nth i data [])) data.

Section Stage1.

Variable lsmr : frame -> vec -> vec.

(** The model of one group: LOOM on the mask refined for the group, or
    ROEBA on the base mask. *)
Definition group_model (method : preamp) (f mask : frame) : result frame :=
  match method with
  | Loom =>
      let group_mask := cc_uniluminated_outliers f mask (Q2Qc 5) in
      r <- get_loom lsmr f group_mask false ;;
      Ok (fst r)
  | _ => Ok (get_roeba f mask)
  end.

(** The loops over integrations and groups: every group has its model
    subtracted in place, and after the last group of an integration the
    difference of the two selected corrected groups is stored. *)
Definition correct_groups (method : preamp) (mask : frame)
    (min_group max_group : Z) (nintegrations ngroups : nat)
    (refpix : ramp) (lmf_after : list frame) : result (ramp * list frame) :=
  for_each
    (fun st i =>
       refpix <- for_each
                   (fun refpix j =>
                      let f := nth j (nth i refpix []) [] in
                      model <- group_model method f mask ;;
                      Ok (set_group i j (map2 psub f model) refpix))
                   (seq 0 ngroups) (fst st) ;;
       last <- group_at refpix i max_group ;;
       first <- group_at refpix i min_group ;;
       Ok (refpix, set_nth i (map2 psub last first) (snd st)))
    (seq 0 nintegrations) (refpix, lmf_after).

(** Lines 539-632 of [stage1].  [superbias] is the data of the previous
    step, [kw_min_group] and [kw_max_group] the optional keyword arguments,
    [saved] the data of the product file of the step when it is already on
    disk. *)
Definition stage1_preamp (method : preamp) (superbias : ramp)
    (kw_min_group kw_max_group : option Z) (uniluminated_mask : option frame)
    (saved : option ramp) : result (option preamp_products) :=
  let nintegrations := length superbias in
  let ngroups := ngroups_of superbias in
  match method with
  | Stsci => Ok None
  | _ =>
      let min_group :=
        match kw_min_group with
        | Some g => g
        | None => 0%Z
        end in
      let max_group :=
        match kw_max_group with
        | Some g => g
        | None => (Z.of_nat ngroups - 1)%Z
        end in
      before <- get_last_minus_first superbias (Some min_group) (Some max_group) ;;
      let lmf := fst before in
      let median_lmf := snd before in
      let mask :=
        match uniluminated_mask with
        | None => get_uniluminated_mask median_lmf (Q2Qc 3)
        | Some m => m
        end in
      let refpix := superbias in
      let lmf_after :=
        repeat (full (nrows (frame0_of superbias)) (ncols (frame0_of superbias)) zero)
          (length lmf) in
      match saved with
      | None =>
          after <- correct_groups method mask min_group max_group
                     nintegrations ngroups refpix lmf_after ;;
          Ok (Some {| out_mask := mask; out_refpix := fst after;
                      out_lmf_before := lmf; out_lmf_after := snd after |})
      | Some loaded =>
          after <- get_last_minus_first loaded (Some min_group) (Some max_group) ;;
          Ok (Some {| out_mask := mask; out_refpix := loaded;
                      out_lmf_before := lmf; out_lmf_after := fst after |})
      end
  end.

End Stage1.

(** * Vocabulary of the statements *)

(** ** Masks, frames and ramps *)

(** A mask holds only the values 0 and 1. *)
Definition is_mask (m : frame) : Prop :=
  Forall (Forall (fun x => x = zero \/ x = one)) m.

(** A frame of real-valued pixels. *)
Definition is_real (a : frame) : Prop := Forall (Forall (fun x => x <> NaN)) a.

(** [a <= b] on two defined scalars. *)
Definition ple (a b : px) : Prop :=
  exists x y, a = num x /\ b = num y /\ (x <= y)%Qc.

(** [data[i, g, :, :]] for a group position [g]. *)
Definition frame_at (data : ramp) (i g : nat) : frame := nth g (nth i data []) [].

(** A 4-D array of shape (ni, ng, nr, nc). *)
Definition ramp_shape (ni ng nr nc : nat) (data : ramp) : Prop :=
  length data = ni /\
  Forall (fun integ => length integ = ng /\ Forall (has_shape nr nc) integ) data.

(** A ramp of real-valued pixels. *)
Definition is_real_ramp (data : ramp) : Prop := Forall (Forall is_real) data.

(** The rows selected by [[::2]] and by [[1::2]] out of [nr] rows. *)
Definition even_rows (nr : nat) : list nat := map (fun k => 2 * k) (seq 0 ((nr + 1) / 2)).

Definition odd_rows (nr : nat) : list nat := map (fun k => 2 * k + 1) (seq 0 (nr / 2)).

(** ** Robust statistics *)

(** A sorted sample. *)
Definition sortedQc (s : list Qc) : Prop :=
  StronglySorted (fun x y => is_true (QcOrder.leb x y)) s.

(** The MAD of a sample, scaled to a Gaussian sigma. *)
Definition scaled_mad (v : vec) : px :=
  pmul (nanmedian (map (fun x => pabs (psub x (nanmedian v))) v)) (num mad_scale).

(** The level above which a pixel of column [c] counts as illuminated. *)
Definition illumination_level (data : frame) (nsigma : Qc) (c : nat) : px :=
  let med := median (column c data) in
  padd med
    (pmul (num nsigma) (scaled_mad (map (fun x => psub x med) (column c data)))).

(** [a == 1.] *)
Definition is_one (a : px) : bool :=
  match a with
  | Some q => if Qc_eq_dec q 1%Qc then true else false
  | None => false
  end.

(** The number of 1-entries of a vector. *)
Definition count_ones (v : vec) : nat := length (filter is_one v).

(** ** Masked samples, counts and sums *)

(** The values of [data] on the given rows and columns whose mask entry is
    not 0, in row-major order. *)
Definition masked_values (data mask : frame) (rows cols : list nat) : vec :=
  flat_map
    (fun r =>
       flat_map (fun c => if is_zero (pix mask r c) then [] else [pix data r c]) cols)
    rows.

(** Their median. *)
Definition masked_median (data mask : frame) (rows cols : list nat) : px :=
  nanmedian (masked_values data mask rows cols).

(** A natural number as a numpy scalar. *)
Definition of_nat (n : nat) : px := num (Q2Qc (inject_Z (Z.of_nat n))).

(** The sum of exact rationals. *)
Definition Qcsum (l : list Qc) : Qc := fold_right Qcplus 0%Qc l.

(** The number of 1-entries of [mask] on the given rows and columns and
    the sum of the values of [data] at the non-zero entries of [mask]. *)
Definition masked_count (mask : frame) (rows cols : list nat) : nat :=
  list_sum (map (fun r => count_ones (map (fun c => pix mask r c) cols)) rows).

Definition masked_sum (data mask : frame) (rows cols : list nat) : Qc :=
  Qcsum (drop_nan (masked_values data mask rows cols)).

(** ** The slope estimate and its group indices *)

(** The slope of integration [i] between the groups at positions [first]
    and [last]. *)
Definition slope (data : ramp) (first last i : nat) : frame :=
  map2 psub (minus_nanmedian (frame_at data i last))
    (minus_nanmedian (frame_at data i first)).

(** Lines 244-248: an omitted index stands for the first group, or for the
    last one. *)
Definition first_group_of (min_group : option nat) : nat :=
  match min_group with
  | Some g => g
  | None => 0
  end.

Definition last_group_of (ngroups : nat) (max_group : option nat) : nat :=
  match max_group with
  | Some g => g
  | None => ngroups - 1
  end.

(** The indices numpy accepts on an axis of length [n], and the position
    each one denotes. *)
Definition in_axis (n : nat) (g : Z) : Prop := (- Z.of_nat n <= g < Z.of_nat n)%Z.

Definition position (n : nat) (g : Z) : nat :=
  Z.to_nat (if (g <? 0)%Z then Z.of_nat n + g else g).

(** ** The normal equations of LOOM *)

(** The matrix of the normal equations, entry by entry: the row of [O],
    the row of [E], then one row per column coefficient. *)
Definition normal_entry (nO nE : px) (nodd_j neven_j nrows_j : vec) (i k : nat) : px :=
  match i, k with
  | 0, 0 => nO
  | 0, 1 => zero
  | 0, S (S j) => nth j nodd_j NaN
  | 1, 0 => zero
  | 1, 1 => nE
  | 1, S (S j) => nth j neven_j NaN
  | S (S j), 0 => nth j nodd_j NaN
  | S (S j), 1 => nth j neven_j NaN
  | S (S j), S (S j') => if j =? j' then nth j nrows_j NaN else zero
  end.

(** ** Minimum-norm least squares *)

Definition dot (u v : list Qc) : Qc := Qcsum (zip_with Qcmult u v).

Definition matvec (A : list (list Qc)) (x : list Qc) : list Qc :=
  map (fun row => dot row x) A.

Definition norm2 (v : list Qc) : Qc := dot v v.

(** The squared residual of [A x = b]. *)
Definition residual2 (A : list (list Qc)) (b x : list Qc) : Qc :=
  norm2 (zip_with Qcminus (matvec A x) b).

Definition least_squares (A : list (list Qc)) (b x : list Qc) : Prop :=
  length x = length b /\
  forall y, length y = length b -> (residual2 A b x <= residual2 A b y)%Qc.

(** What the solver is documented to return on a singular system: the
    least-squares solution of least norm. *)
Definition minimum_norm_solution (A : list (list Qc)) (b x : list Qc) : Prop :=
  least_squares A b x /\
  forall y, least_squares A b y -> (norm2 x <= norm2 y)%Qc.

(** The same on numpy arrays, all of whose entries must be numbers. *)
Definition solves_min_norm (A : frame) (b x : vec) : Prop :=
  exists Aq bq xq,
    A = map (map num) Aq /\ b = map num bq /\ x = map num xq /\
    minimum_norm_solution Aq bq xq.

(** ** Decision procedures for concrete arrays *)

Definition px_eqb (a b : px) : bool :=
  match a, b with
  | Some x, Some y => Qc_eq_bool x y
  | None, None => true
  | _, _ => false
  end.

Fixpoint list_eqb (A : Type) (eqb : A -> A -> bool) (l m : list A) : bool :=
  match l, m with
  | [], [] => true
  | x :: l', y :: m' => eqb x y && list_eqb eqb l' m'
  | _, _ => false
  end.

Definition vec_eqb : vec -> vec -> bool := list_eqb px_eqb.

Definition frame_eqb : frame -> frame -> bool := list_eqb vec_eqb.

Definition cube_eqb : list frame -> list frame -> bool := list_eqb frame_eqb.

Definition ramp_eqb : ramp -> ramp -> bool := list_eqb cube_eqb.

Definition lmf_eqb (x y : result (list frame * frame)) : bool :=
  match x, y with
  | Ok (l, m), Ok (l', m') => cube_eqb l l' && frame_eqb m m'
  | Raise _, Raise _ => true
  | _, _ => false
  end.

Definition products_eqb (p q : preamp_products) : bool :=
  frame_eqb (out_mask p) (out_mask q) && ramp_eqb (out_refpix p) (out_refpix q)
  && cube_eqb (out_lmf_before p) (out_lmf_before q)
  && cube_eqb (out_lmf_after p) (out_lmf_after q).

Definition stage1_eqb (x y : result (option preamp_products)) : bool :=
  match x, y with
  | Ok (Some p), Ok (Some q) => products_eqb p q
  | Ok None, Ok None => true
  | Raise _, Raise _ => true
  | _, _ => false
  end.

Definition has_shapeb (nr nc : nat) (a : frame) : bool :=
  (length a =? nr) && forallb (fun r => length r =? nc) a.

Definition is_realb (a : frame) : bool :=
  forallb (forallb (fun x => match x with Some _ => true | None => false end)) a.

Definition is_maskb (m : frame) : bool :=
  forallb (forallb (fun x => px_eqb x zero || px_eqb x one)) m.

Definition ramp_shapeb (ni ng nr nc : nat) (data : ramp) : bool :=
  (length data =? ni)
  && forallb (fun integ => (length integ =? ng) && forallb (has_shapeb nr nc) integ) data.

Definition is_real_rampb (data : ramp) : bool := forallb (forallb is_realb) data.

(** ** Concrete arrays *)

(** Integer-valued rationals, pixels and frames. *)
Definition qz (z : Z) : Qc := Q2Qc (inject_Z z).

Definition zpx (z : Z) : px := num (qz z).

Definition zframe (l : list (list Z)) : frame := map (map zpx) l.

(** The synthetic scenario for ROEBA: ten rows of six columns on a zero
    background, 5 added to the odd rows, 2 to the even rows, and the ramp
    0, 1, ..., 5 along the columns; with the mask of ones. *)
Definition synthetic : frame :=
  map (fun r =>
         map (fun c => zpx ((if Nat.odd r then 5 else 2) + Z.of_nat c)) (seq 0 6))
    (seq 0 10).

Definition all_ones : frame := full 10 6 one.

(** A frame of five rows and two columns with one bright pixel, and a
    background mask that leaves out one pixel of the second column. *)
Definition bright_frame : frame := zframe [[1; 1]; [1; 100]; [1; 1]; [1; 2]; [1; 0]]%Z.

Definition bright_mask : frame := zframe [[1; 1]; [1; 1]; [1; 0]; [1; 1]; [1; 1]]%Z.

(** One integration of two groups of one row. *)
Definition two_groups : ramp := [[zframe [[1; 2; 4]]; zframe [[5; 7; 12]]]]%Z.

(** A frame of two rows and two columns whose second column holds no
    background pixel, its normal equations, and their minimum-norm
    solution. *)
Definition half_frame : frame := zframe [[2; 9]; [4; 7]]%Z.

Definition half_mask : frame := zframe [[1; 0]; [1; 0]]%Z.



Definition half_x : list Qc := map qz [2; 0; 2; 0]%Z.

(** A solver that answers with that solution. *)
Definition half_lsmr (A : frame) (b : vec) : vec := map num half_x.

(** One integration of two groups of four rows and two columns: a dark
    group, then a group whose last two rows are lit by the source; and the
    background mask that leaves the lit rows out. *)
Definition lit_ramp : ramp :=
  [[zframe [[0; 0]; [0; 0]; [0; 0]; [0; 0]];
    zframe [[0; 0]; [0; 0]; [8; 8]; [8; 8]]]]%Z.

Definition lit_mask : frame := zframe [[1; 1]; [1; 1]; [0; 0]; [0; 0]]%Z.

(** What the solver returns on a system whose right-hand side is 0. *)
Definition zero_lsmr (A : frame) (b : vec) : vec := repeat zero (length b).

(** A frame of three rows and two columns with one missing pixel in the
    second column. *)
Definition gap_frame : frame :=
  [[zpx 1; NaN]; [zpx 9; zpx 2]; [zpx 1; zpx 400]]%Z.

(** The median absolute deviation of the values of [data] on the given
    rows and columns whose mask entry is not 0. *)
Definition masked_mad (data mask : frame) (rows cols : list nat) : px :=
  nanmedian
    (map (fun x => pabs (psub x (masked_median data mask rows cols)))
       (masked_values data mask rows cols)).

(** The level above which the deviation of a pixel of column [c] from the
    column median makes it an outlier. *)
Definition outlier_level (data mask : frame) (nsigma : Qc) (c : nat) : px :=
  pmul (pmul (num nsigma) (masked_mad data mask (seq 0 (nrows data)) [c])) (num mad_scale).

(** ** The degeneracy of LOOM *)

(** The dot product of two numpy vectors. *)
Definition pdot (u v : vec) : px := psum (zip_with pmul u v).

(** The direction [(1, 1, -1, ..., -1)] in the space of the parameters
    [O, E, a_0, ..., a_(nc-1)]: one more on the two row levels, one less on
    every column coefficient. *)
Definition level_shift (nc : nat) : vec :=
  one :: one :: repeat (num (- (1))%Qc) nc.

(** ** More concrete arrays *)

(** The mask of ones on three rows and two columns. *)
Definition ones_3x2 : frame := full 3 2 one.

(** [bright_frame] with another value at the pixel that [bright_mask]
    leaves out. *)
Definition bright_frame' : frame :=
  zframe [[1; 1]; [1; 100]; [1; -50]; [1; 2]; [1; 0]]%Z.

(** A solver that answers with [half_x] moved along [(1, 1, -1, -1)]. *)
Definition shifted_lsmr (A : frame) (b : vec) : vec :=
  zip_with padd (half_lsmr A b) (map (fun d => pmul (zpx 3) d) (level_shift 2)).

(** One integration of three groups of one row. *)
Definition three_groups : ramp :=
  [[zframe [[1; 2; 4]]; zframe [[5; 7; 12]]; zframe [[9; 14; 20]]]]%Z.

Local Open Scope string_scope.

(** * The driver [stage1] and [download_reference_file]

    The part of [jwst.py] that talks to the file system, to the network
    and to the [jwst] pipeline.  Conventions of this part.
    - A Python string is a [String.string]; [str.lower] is modelled on the
      ASCII letters.
    - The file system, the network and the [jwst], [astropy] and [numpy]
      input/output calls are the fields of a [library]: they act on a
      [world] and may raise.  A computation of [stage1] is a function from
      the world to an [outcome].
    - The keyword arguments [**kwargs] are typed as the docstring uses
      them: file names under string keys (the [override_...] keywords), and
      the integers [min_group] and [max_group].
    - [print] is left out; the evaluation of its arguments is kept where it
      can raise.  The lower-casing of [skip_steps] is done on a copy: the
      caller's list is not modelled. *)

(** ** Python strings *)

Definition slash : Ascii.ascii := Ascii.ascii_of_nat 47.

(** [s.lower()] *)
Definition lower_char (c : Ascii.ascii) : Ascii.ascii :=
  let n := Ascii.nat_of_ascii c in
  if (65 <=? n) && (n <=? 90) then Ascii.ascii_of_nat (n + 32) else c.

Fixpoint lower (s : String.string) : String.string :=
  match s with
  | "" => ""
  | String.String c s' => String.String (lower_char c) (lower s')
  end.

(** [sub in s] *)
Fixpoint contains (sub s : String.string) : bool :=
  String.prefix sub s ||
  match s with
  | "" => false
  | String.String _ s' => contains sub s'
  end.

(** [s.split('/')[-1]]: the characters read since the last slash. *)
Fixpoint last_component (s current : String.string) : String.string :=
  match s with
  | "" => current
  | String.String c s' =>
      if Ascii.eqb c slash then last_component s' ""
      else last_component s' (String.append current (String.String c ""))
  end.

(** [s.split(pat)[0]] for a non-empty [pat]: what comes before the first
    occurrence of [pat], or [s] itself. *)
Fixpoint before_first (pat s : String.string) : String.string :=
  if String.prefix pat s then ""
  else match s with
       | "" => ""
       | String.String c s' => String.String c (before_first pat s')
       end.

(** [s[:-1]] *)
Fixpoint drop_last (s : String.string) : String.string :=
  match s with
  | "" => ""
  | String.String c s' =>
      match s' with
      | "" => ""
      | _ => String.String c (drop_last s')
      end
  end.

(** [s[-1]] *)
Fixpoint last_char (s : String.string) : option Ascii.ascii :=
  match s with
  | "" => None
  | String.String c s' =>
      match s' with
      | "" => Some c
      | _ => last_char s'
      end
  end.

(** [x in l] for a list of strings. *)
Definition mem (x : String.string) (l : list String.string) : bool :=
  existsb (String.eqb x) l.

(** ** Exceptions and effects *)

Inductive error : Type :=
| NumpyError (e : exn)
| KeyError (key : String.string)
| Exception (message : String.string)
| LibraryError (what : String.string).

Inductive outcome (A : Type) : Type :=
| Return (a : A)
| Throw (e : error).

Arguments Return {A} a.
Arguments Throw {A} e.

(** An exception of the numeric core, seen from the driver. *)
Definition of_result (A : Type) (r : result A) : outcome A :=
  match r with
  | Ok a => Return a
  | Raise e => Throw (NumpyError e)
  end.

(** A computation on the world [W]. *)
Definition io (W A : Type) : Type := W -> outcome (A * W).

Definition io_ret (W A : Type) (a : A) : io W A := fun w => Return (a, w).

Definition io_bind (W A B : Type) (m : io W A) (k : A -> io W B) : io W B :=
  fun w =>
    match m w with
    | Return (a, w') => k a w'
    | Throw e => Throw e
    end.

(** A computation that does not touch the world. *)
Definition pure (W A : Type) (o : outcome A) : io W A :=
  fun w =>
    match o with
    | Return a => Return (a, w)
    | Throw e => Throw e
    end.

Notation "'let*' x ':=' m 'in' k" := (io_bind m (fun x => k))
  (at level 10, x name, m at level 100, k at level 200).

Fixpoint for_io (W A S : Type) (body : S -> A -> io W S) (l : list A) (s : S) : io W S :=
  match l with
  | [] => io_ret s
  | x :: l' => let* s' := body s x in for_io body l' s'
  end.

(** ** Dictionaries *)

(** [**kwargs]. *)
Record keywords : Type := {
  files : list (String.string * String.string);
  kw_min_group : option Z;
  kw_max_group : option Z
}.

(** [key in kwargs.keys()] and [kwargs[key]] on the file keywords. *)
Definition has_key (A : Type) (key : String.string) (d : list (String.string * A)) : bool :=
  mem key (map fst d).

Fixpoint getitem (A : Type) (key : String.string) (d : list (String.string * A))
  : outcome A :=
  match d with
  | [] => Throw (KeyError key)
  | (k, v) :: d' => if String.eqb k key then Return v else getitem key d'
  end.

(** [d[key] = v]: the entry is replaced where it stands, or added at the
    end. *)
Fixpoint setitem (A : Type) (key : String.string) (v : A) (d : list (String.string * A))
  : list (String.string * A) :=
  match d with
  | [] => [(key, v)]
  | (k, v') :: d' =>
      if String.eqb k key then (key, v) :: d' else (k, v') :: setitem key v d'
  end.

(** [d.pop(key)] for a key of [d]. *)
Definition pop (A : Type) (key : String.string) (d : list (String.string * A))
  : list (String.string * A) :=
  filter (fun kv => negb (String.eqb (fst kv) key)) d.

(** ** The keyword arguments handed to the pipeline steps *)

(** The value of an argument of a step. *)
Inductive pyarg : Type :=
| ArgStr (s : String.string)
| ArgInt (z : Z)
| ArgBool (b : bool).

Definition arguments : Type := list (String.string * pyarg).

(** The truth value of a string in a condition. *)
Definition truthy (s : String.string) : bool := negb (String.eqb s "").

(** [override_x = kwargs['override_x']] *)
Definition override (kwargs : keywords) (name key : String.string) : outcome arguments :=
  match getitem key (files kwargs) with
  | Return v => Return [(name, ArgStr v)]
  | Throw e => Throw e
  end.

Definition both (a b : outcome arguments) : outcome arguments :=
  match a with
  | Return x =>
      match b with
      | Return y => Return (x ++ y)
      | Throw e => Throw e
      end
  | Throw e => Throw e
  end.

(** Lines 471-478, 498-505 and 640-647: the reference file of the step is
    overridden when its keyword is given. *)
Definition override_if_given (kwargs : keywords) (key : String.string) : outcome arguments :=
  if has_key key (files kwargs) then override kwargs key key else Return [].

(** Lines 666-673. *)
Definition darkcurrent_arguments (kwargs : keywords) : outcome arguments :=
  if has_key "override_darkcurrent" (files kwargs)
  then override kwargs "override_dark" "override_dark"
  else Return [].

(** Lines 692-718. *)
Definition jump_arguments (kwargs : keywords) (jump_threshold : Z)
    (maximum_cores : String.string) : outcome arguments :=
  let common :=
    Return [("rejection_threshold", ArgInt jump_threshold);
            ("maximum_cores", ArgStr maximum_cores)] in
  if has_key "override_readnoise" (files kwargs) && has_key "override_gain" (files kwargs)
  then both common
         (both (override kwargs "override_readnoise" "override_readnoise")
               (override kwargs "override_gain" "override_gain"))
  else if has_key "override_readnoise" (files kwargs)
  then both common (override kwargs "override_readnoise" "override_readnoise")
  else if has_key "override_gain" (files kwargs)
  then both common (override kwargs "override_gain" "override_gain")
  else common.

(** Lines 738-760.  The third test is the string ['override_gain'] itself,
    not its membership. *)
Definition rampfit_arguments (kwargs : keywords) (maximum_cores : String.string)
  : outcome arguments :=
  let common := Return [("maximum_cores", ArgStr maximum_cores)] in
  if has_key "override_readnoise" (files kwargs) && has_key "override_gain" (files kwargs)
  then both common
         (both (override kwargs "override_readnoise" "override_readnoise")
               (override kwargs "override_gain" "override_gain"))
  else if has_key "override_readnoise" (files kwargs)
  then both common (override kwargs "override_readnoise" "override_readnoise")
  else if truthy "override_gain"
  then both common (override kwargs "override_gain" "override_gain")
  else common.

(** ** What [stage1] uses of the world *)

(** The steps of the pipeline that return one product. *)
Inductive step : Type :=
| DQInitStep | SaturationStep | SuperBiasStep | RefPixStep
| LinearityStep | DarkCurrentStep | JumpStep | AssignWcsStep.

(** [os], [astropy], [jwst.datamodels], the pipeline steps, [numpy]
    input/output and the solver of [scipy]. *)
Record library : Type := {
  world : Type;
  datamodel : Type;
  (* os.path.exists, os.mkdir, os.rename *)
  path_exists : String.string -> world -> bool;
  mkdir : String.string -> io world unit;
  rename : String.string -> String.string -> io world unit;
  (* astropy.utils.data.download_file(url, cache=True) *)
  download_file : String.string -> io world String.string;
  (* TimeSeries(time_start, time_delta, data = {'flux': np.ones(n)}).time.jd *)
  time_series_jd : String.string -> px -> nat -> outcome vec;
  (* datamodels.RampModel(path), model.save(path) *)
  RampModel : String.string -> io world datamodel;
  save : datamodel -> String.string -> io world unit;
  (* model.data of a group-level product, and the same model with its data
     replaced *)
  data : datamodel -> ramp;
  with_data : ramp -> datamodel -> datamodel;
  (* model.data, model.err and model.dq of a rate product *)
  rate_data : datamodel -> list frame;
  rate_err : datamodel -> list frame;
  rate_dq : datamodel -> list frame;
  (* model.meta.wcs(column, row, order)[-1] *)
  wcs : datamodel -> nat -> nat -> nat -> outcome px;
  (* model.meta.dither.dither_points = int(model.meta.dither.dither_points),
     the read of the attribute, and model.meta.dither.dither_points = 1 *)
  dither_points_to_int : datamodel -> outcome datamodel;
  dither_points : datamodel -> outcome unit;
  dither_points_to_one : datamodel -> outcome datamodel;
  (* model.int_times['int_mid_BJD_TDB'] *)
  int_mid_BJD_TDB : datamodel -> outcome vec;
  (* model.meta.exposure.group_time, .nints, .ngroups, and
     model.meta.observation.date + 'T' + model.meta.observation.time *)
  group_time : datamodel -> outcome px;
  exposure_nints : datamodel -> outcome nat;
  exposure_ngroups : datamodel -> outcome nat;
  observation_start : datamodel -> outcome String.string;
  (* Step.call(model, **arguments) *)
  call : step -> datamodel -> arguments -> io world datamodel;
  (* RampFitStep.call(model, **arguments) *)
  call_ramp_fit : datamodel -> arguments -> io world (list datamodel);
  (* np.save(path, array), np.load(path) *)
  np_save : String.string -> list frame -> io world unit;
  np_load : String.string -> io world (list frame);
  (* scipy.sparse.linalg.lsmr(A, b)[0] *)
  solver : frame -> vec -> vec
}.

(** The values of the output dictionary. *)
Inductive entry (M : Type) : Type :=
| Model (m : M)
| Models (l : list M)
| Image (f : frame)
| Cube (c : list frame)
| Vector (v : vec).

Arguments Model {M} m.
Arguments Models {M} l.
Arguments Image {M} f.
Arguments Cube {M} c.
Arguments Vector {M} v.

Infix "^^" := String.append (at level 50, left associativity).

(** [for] loops of pure code that may raise. *)
Fixpoint for_outcome (A S : Type) (body : S -> A -> outcome S) (l : list A) (s : S)
  : outcome S :=
  match l with
  | [] => Return s
  | x :: l' =>
      match body s x with
      | Return s' => for_outcome body l' s'
      | Throw e => Throw e
      end
  end.

(** The constants of the time stamps. *)
Definition second_to_day : px := num (Q2Qc (1 # 86400)).
Definition half : px := num (Q2Qc (1 # 2)).
Definition mjd_offset : px := num (Q2Qc (4800001 # 2)).

(** The message of the exception of line 383, with its double quotes. *)
Definition quote : String.string := String.String (Ascii.ascii_of_nat 34) "".

Definition invalid_flag (preamp_correction : String.string) : String.string :=
  "The preamp_correction flag has to be either " ^^ quote ^^ "roeba" ^^ quote ^^ ", "
  ^^ quote ^^ "loom" ^^ quote ^^ " or " ^^ quote ^^ "stsci" ^^ quote ^^ " --- " ^^ quote
  ^^ preamp_correction ^^ quote ^^ " is not a valid flag.".

Section Driver.

Variable L : library.

Definition output_dictionary : Type := list (String.string * entry (datamodel L)).

(** [os.path.exists(path)] as a computation. *)
Definition exists_path (path : String.string) : io (world L) bool :=
  fun w => Return (path_exists L path w, w).

(** [d[key]] where a product is expected. *)
Definition getmodel (key : String.string) (d : output_dictionary) : outcome (datamodel L) :=
  match getitem key d with
  | Return (Model m) => Return m
  | Return _ => Throw (KeyError key)
  | Throw e => Throw e
  end.

(** ** [download_reference_file] (lines 200-209) *)

Definition download_reference_file (filename : String.string) : io (world L) unit :=
  let* download_filename :=
    download_file L
      ("https://jwst-crds.stsci.edu/unchecked_get/references/jwst/" ^^ filename) in
  rename L download_filename filename.

(** ** [stage1] (lines 308-834) *)

(** Lines 358-361. *)
Definition with_trailing_slash (outputfolder : String.string) : String.string :=
  if negb (String.eqb outputfolder "")
  then match last_char outputfolder with
       | Some c => if negb (Ascii.eqb c slash) then outputfolder ^^ "/" else outputfolder
       | None => outputfolder
       end
  else outputfolder.

(** Lines 364-372: the reference files that are not on disk are downloaded. *)
Definition fetch_reference_files (kwargs : keywords) : io (world L) unit :=
  for_io
    (fun (_ : unit) (kwarg : String.string) =>
       if contains "override_" kwarg
       then
         let* path := pure (getitem kwarg (files kwargs)) in
         let* present := exists_path path in
         if negb present
         then
           let rfile := last_component path "" in
           let* _ := download_reference_file rfile in
           rename L rfile path
         else io_ret tt
       else io_ret tt)
    (map fst (files kwargs)) tt.

(** Lines 380-383. *)
Definition parse_preamp_correction (preamp_correction : String.string) : outcome preamp :=
  let preamp_correction := lower preamp_correction in
  if String.eqb preamp_correction "roeba" then Return Roeba
  else if String.eqb preamp_correction "loom" then Return Loom
  else if String.eqb preamp_correction "stsci" then Return Stsci
  else Throw (Exception (invalid_flag preamp_correction)).

(** Lines 400-408. *)
Definition fix_dither_points (uncal_data : datamodel L) : outcome (datamodel L) :=
  match dither_points_to_int L uncal_data with
  | Return m => Return m
  | Throw _ =>
      match dither_points L uncal_data with
      | Return _ => dither_points_to_one L uncal_data
      | Throw e => Throw e
      end
  end.

(** [v[0]] and [v[-1]] *)
Definition first_and_last (v : vec) : outcome (px * px) :=
  match v with
  | [] => Throw (NumpyError IndexError)
  | x :: _ => Return (x, last v x)
  end.

(** Lines 411-440: the time stamps, read from the file or made up. *)
Definition get_time_stamps (uncal_data : datamodel L) : outcome vec :=
  match int_mid_BJD_TDB L uncal_data with
  | Return times => Return times
  | Throw _ =>
      match group_time L uncal_data with
      | Throw e => Throw e
      | Return frametime =>
      match observation_start L uncal_data with
      | Throw e => Throw e
      | Return time_start =>
      match exposure_nints L uncal_data with
      | Throw e => Throw e
      | Return nintegrations =>
      match exposure_ngroups L uncal_data with
      | Throw e => Throw e
      | Return ngroups =>
      match time_series_jd L time_start
              (pmul frametime (of_nat (ngroups + 1))) nintegrations with
      | Throw e => Throw e
      | Return jd =>
          let times :=
            map (fun t =>
                   padd (padd t (pmul frametime second_to_day))
                     (pmul (pmul (pmul frametime (of_nat ngroups)) half) second_to_day))
              jd in
          let times := map (fun t => psub t mjd_offset) times in
          match first_and_last times with
          | Throw e => Throw e
          | Return _ => Return times
          end
      end end end end end
  end.

(** Line 444. *)
Definition dataname_of (datafile : String.string) : String.string :=
  drop_last (before_first "uncal.fits" (last_component datafile "")).

(** The shape of the blocks of lines 448-516 and 634-729: a step is run on
    the product before it, or its product is loaded when it is on disk, or
    the product before it is passed on when the step is skipped. *)
Definition pipeline_step (skip_steps : list String.string)
    (outputfolder full_datapath : String.string)
    (name key suffix : String.string) (s : step)
    (input : outcome (datamodel L)) (extra : outcome arguments)
    (d : output_dictionary) : io (world L) output_dictionary :=
  if negb (mem name skip_steps)
  then
    let output_filename := full_datapath ^^ suffix in
    let* present := exists_path output_filename in
    if negb present
    then
      let* model := pure input in
      let* extra := pure extra in
      let* product :=
        call L s model
          ([("output_dir", ArgStr (outputfolder ^^ "pipeline_outputs"));
            ("save_results", ArgBool true)] ++ extra) in
      io_ret (setitem key (Model product) d)
    else
      let* product := RampModel L output_filename in
      io_ret (setitem key (Model product) d)
  else
    let* model := pure input in
    io_ret (setitem key (Model model) d).

(** Lines 519-536. *)
Definition refpix_step (skip_steps : list String.string) (method : preamp)
    (outputfolder full_datapath : String.string) (d : output_dictionary)
  : io (world L) output_dictionary :=
  if negb (mem "refpix" skip_steps)
  then
    match method with
    | Stsci =>
        let output_filename := full_datapath ^^ "_refpixstep.fits" in
        let* present := exists_path output_filename in
        if negb present
        then
          let* model := pure (getmodel "superbias" d) in
          let* refpix :=
            call L RefPixStep model
              [("output_dir", ArgStr (outputfolder ^^ "pipeline_outputs"));
               ("save_results", ArgBool true)] in
          io_ret (setitem "refpix" (Model refpix) d)
        else
          let* refpix := RampModel L output_filename in
          io_ret (setitem "refpix" (Model refpix) d)
    | _ => io_ret d
    end
  else
    let* model := pure (getmodel "superbias" d) in
    io_ret (setitem "refpix" (Model model) d).

(** The infix of the products of the two corrections. *)
Definition preamp_infix (method : preamp) : String.string :=
  match method with
  | Loom => "_refpixstep_loom"
  | Roeba => "_refpixstep_roeba"
  | Stsci => ""
  end.

(** Lines 539-632: the correction with LOOM or ROEBA; the path of the
    products that follow gets the infix of the correction. *)
Definition preamp_step (method : preamp) (kwargs : keywords)
    (uniluminated_mask : option frame) (full_datapath : String.string)
    (d : output_dictionary) : io (world L) (output_dictionary * String.string) :=
  let* superbias := pure (getmodel "superbias" d) in
  let nintegrations := length (data L superbias) in
  let ngroups := ngroups_of (data L superbias) in
  match method with
  | Stsci => io_ret (d, full_datapath)
  | _ =>
      let min_group :=
        match kw_min_group kwargs with
        | Some g => g
        | None => 0%Z
        end in
      let max_group :=
        match kw_max_group kwargs with
        | Some g => g
        | None => (Z.of_nat ngroups - 1)%Z
        end in
      let* before :=
        pure (of_result
                (get_last_minus_first (data L superbias) (Some min_group) (Some max_group))) in
      let lmf := fst before in
      let median_lmf := snd before in
      let mask :=
        match uniluminated_mask with
        | None => get_uniluminated_mask median_lmf (Q2Qc 3)
        | Some m => m
        end in
      let lmf_after :=
        repeat (full (nrows (frame0_of (data L superbias)))
                  (ncols (frame0_of (data L superbias))) zero)
          (length lmf) in
      let output_filename := full_datapath ^^ preamp_infix method ^^ ".fits" in
      let* present := exists_path output_filename in
      let* after :=
        if negb present
        then
          let* corrected :=
            pure (of_result
                    (correct_groups (solver L) method mask min_group max_group
                       nintegrations ngroups (data L superbias) lmf_after)) in
          let refpix := with_data L (fst corrected) superbias in
          let* _ := save L refpix output_filename in
          io_ret (refpix, snd corrected)
        else
          let* refpix := RampModel L output_filename in
          let* reloaded :=
            pure (of_result
                    (get_last_minus_first (data L refpix) (Some min_group)
                       (Some max_group))) in
          io_ret (refpix, fst reloaded) in
      let full_datapath := full_datapath ^^ preamp_infix method in
      let d := setitem "mask" (Image mask) d in
      let d := setitem "refpix" (Model (fst after)) d in
      let d := setitem "lmf_before" (Cube lmf) d in
      let d := setitem "lmf_after" (Cube (snd after)) d in
      io_ret (d, full_datapath)
  end.

(** Lines 731-767: the ramp fit, or its two products loaded from disk. *)
Definition rampfit_step (kwargs : keywords) (maximum_cores : String.string)
    (outputfolder full_datapath : String.string) (d : output_dictionary)
  : io (world L) (output_dictionary * list (datamodel L)) :=
  let output_filename0 := full_datapath ^^ "_0_rampfitstep.fits" in
  let output_filename1 := full_datapath ^^ "_1_rampfitstep.fits" in
  let* present := exists_path output_filename0 in
  let* rampstep :=
    if negb present
    then
      let* model := pure (getmodel "jumpstep" d) in
      let* extra := pure (rampfit_arguments kwargs maximum_cores) in
      call_ramp_fit L model
        ([("output_dir", ArgStr (outputfolder ^^ "pipeline_outputs"));
          ("save_results", ArgBool true)] ++ extra)
    else
      let* rate := RampModel L output_filename0 in
      let* rateints := RampModel L output_filename1 in
      io_ret [rate; rateints] in
  io_ret (setitem "rampstep" (Models rampstep) d, rampstep).

(** Lines 777-786. *)
Definition assign_wcs_step (outputfolder full_datapath : String.string)
    (rampstep : list (datamodel L)) : io (world L) (datamodel L) :=
  let output_filename := full_datapath ^^ "_1_assignwcsstep.fits" in
  let* present := exists_path output_filename in
  if negb present
  then
    let* rateints :=
      pure (match nth_error rampstep 1 with
            | Some m => Return m
            | None => Throw (NumpyError IndexError)
            end) in
    call L AssignWcsStep rateints
      [("output_dir", ArgStr (outputfolder ^^ "pipeline_outputs"));
       ("save_results", ArgBool true)]
  else RampModel L output_filename.

(** [wavelength_maps[order - 1, row, column] = v] *)
Definition set_voxel (k row column : nat) (v : px) (maps : list frame) : list frame :=
  set_nth k (set_pix row column v (nth k maps [])) maps.

(** Lines 796-801: the loops over the orders, the rows and the columns. *)
Definition wavelength_map_of (assign_wcs : datamodel L) : outcome (list frame) :=
  match rate_data L assign_wcs with
  | [] => Throw (NumpyError IndexError)
  | frame0 :: _ =>
      let rows := nrows frame0 in
      let columns := ncols frame0 in
      for_outcome
        (fun maps order =>
           for_outcome
             (fun maps row =>
                for_outcome
                  (fun maps column =>
                     match wcs L assign_wcs column row order with
                     | Return v => Return (set_voxel (order - 1) row column v maps)
                     | Throw e => Throw e
                     end)
                  (seq 0 columns) maps)
             (seq 0 rows) maps)
        [1; 2] (repeat (full rows columns zero) 2)
  end.

(** Lines 789-809. *)
Definition wavelength_map_step (outputfolder : String.string) (assign_wcs : datamodel L)
  : io (world L) (list frame) :=
  let wmap_fname := "wavelength_map" in
  let* present :=
    exists_path (outputfolder ^^ "pipeline_outputs/" ^^ wmap_fname ^^ ".npy") in
  if negb present
  then
    let* wavelength_maps := pure (wavelength_map_of assign_wcs) in
    let* _ := np_save L (outputfolder ^^ "pipeline_outputs/" ^^ wmap_fname) wavelength_maps in
    io_ret wavelength_maps
  else np_load L (outputfolder ^^ "pipeline_outputs/" ^^ wmap_fname ^^ ".npy").

(** Lines 814-818: the entries of the skipped steps are taken out. *)
Definition clean (skip_steps : list String.string) (d : output_dictionary)
  : output_dictionary :=
  fold_left (fun d skipped => if has_key skipped d then pop skipped d else d)
    skip_steps d.

Definition stage1 (datafile : String.string) (jump_threshold : Z)
    (get_times get_wavelength_map : bool) (maximum_cores preamp_correction : String.string)
    (skip_steps : list String.string) (outputfolder : String.string)
    (uniluminated_mask : option frame) (kwargs : keywords)
  : io (world L) output_dictionary :=
  let outputfolder := with_trailing_slash outputfolder in
  let* _ := fetch_reference_files kwargs in
  let skip_steps := map lower skip_steps in
  let* method := pure (parse_preamp_correction preamp_correction) in
  let output_dictionary : output_dictionary := [] in
  let* present := exists_path (outputfolder ^^ "pipeline_outputs") in
  let* _ := if negb present then mkdir L (outputfolder ^^ "pipeline_outputs") else io_ret tt in
  let* uncal_data := RampModel L datafile in
  let* uncal_data := pure (fix_dither_points uncal_data) in
  let* times :=
    if get_times
    then let* times := pure (get_time_stamps uncal_data) in io_ret (Some times)
    else io_ret None in
  let dataname := dataname_of datafile in
  let full_datapath := outputfolder ^^ "pipeline_outputs" ^^ "/" ^^ dataname in
  let* output_dictionary :=
    pipeline_step skip_steps outputfolder full_datapath
      "dqinit" "dqinit" "_dqinitstep.fits" DQInitStep
      (Return uncal_data) (Return []) output_dictionary in
  let* output_dictionary :=
    pipeline_step skip_steps outputfolder full_datapath
      "saturation" "saturation" "_saturationstep.fits" SaturationStep
      (getmodel "dqinit" output_dictionary)
      (override_if_given kwargs "override_saturation") output_dictionary in
  let* output_dictionary :=
    pipeline_step skip_steps outputfolder full_datapath
      "superbias" "superbias" "_superbiasstep.fits" SuperBiasStep
      (getmodel "saturation" output_dictionary)
      (override_if_given kwargs "override_superbias") output_dictionary in
  let* output_dictionary :=
    refpix_step skip_steps method outputfolder full_datapath output_dictionary in
  let* corrected :=
    preamp_step method kwargs uniluminated_mask full_datapath output_dictionary in
  let output_dictionary := fst corrected in
  let full_datapath := snd corrected in
  let* output_dictionary :=
    pipeline_step skip_steps outputfolder full_datapath
      "linearity" "linearity" "_linearitystep.fits" LinearityStep
      (getmodel "refpix" output_dictionary)
      (override_if_given kwargs "override_linearity") output_dictionary in
  let* output_dictionary :=
    pipeline_step skip_steps outputfolder full_datapath
      "darkcurrent" "darkcurrent" "_darkcurrentstep.fits" DarkCurrentStep
      (getmodel "linearity" output_dictionary)
      (darkcurrent_arguments kwargs) output_dictionary in
  let* output_dictionary :=
    pipeline_step skip_steps outputfolder full_datapath
      "jumpstep" "jumpstep" "_jumpstep.fits" JumpStep
      (getmodel "darkcurrent" output_dictionary)
      (jump_arguments kwargs jump_threshold maximum_cores) output_dictionary in
  let* fitted :=
    rampfit_step kwargs maximum_cores outputfolder full_datapath output_dictionary in
  let output_dictionary := fst fitted in
  let rampstep := snd fitted in
  let* assign_wcs := assign_wcs_step outputfolder full_datapath rampstep in
  let* wavelength_maps :=
    if get_wavelength_map
    then let* maps := wavelength_map_step outputfolder assign_wcs in io_ret (Some maps)
    else io_ret None in
  let output_dictionary := clean skip_steps output_dictionary in
  let output_dictionary := setitem "rateints" (Cube (rate_data L assign_wcs)) output_dictionary in
  let output_dictionary :=
    setitem "rateints_err" (Cube (rate_err L assign_wcs)) output_dictionary in
  let output_dictionary := setitem "rateints_dq" (Cube (rate_dq L assign_wcs)) output_dictionary in
  let output_dictionary :=
    match times with
    | Some times =>
        setitem "times" (Vector (map (fun t => padd t mjd_offset) times)) output_dictionary
    | None => output_dictionary
    end in
  let output_dictionary :=
    match wavelength_maps with
    | Some maps => setitem "wavelength_maps" (Cube maps) output_dictionary
    | None => output_dictionary
    end in
  io_ret output_dictionary.

End Driver.

(** The keys of the entries that [stage1] writes after the cleaning of
    lines 814-818. *)
Definition final_keys : list String.string :=
  ["rateints"; "rateints_err"; "rateints_dq"; "times"; "wavelength_maps"].

(** Two runs of a block that end alike: the same exception, or the same
    world, the same path and dictionaries with the same entry under every
    key. *)
Definition same_run (L : library)
    (x y : outcome ((output_dictionary L * String.string) * world L)) : Prop :=
  match x, y with
  | Return ((d1, p1), w1), Return ((d2, p2), w2) =>
      p1 = p2 /\ w1 = w2 /\ forall key, getitem key d1 = getitem key d2
  | Throw e1, Throw e2 => e1 = e2
  | _, _ => False
  end.

(** [c in s] for a character. *)
Fixpoint has_char (c : Ascii.ascii) (s : String.string) : bool :=
  match s with
  | "" => false
  | String.String c' s' => Ascii.eqb c' c || has_char c s'
  end.

Definition period : Ascii.ascii := Ascii.ascii_of_nat 46.

(** ** Two small worlds *)

(** A library for examples.  The world holds nothing to observe; every
    path is found on disk ([on_disk]) or none is; a model is its data, the
    pipeline steps hand their input on, and every file read holds
    [lit_ramp]. *)
Definition toy_library (on_disk : bool) : library := {|
  world := unit;
  datamodel := ramp;
  path_exists := fun _ _ => on_disk;
  mkdir := fun _ w => Return (tt, w);
  rename := fun _ _ w => Return (tt, w);
  download_file := fun _ w => Return ("download", w);
  time_series_jd := fun _ _ n => Return (repeat zero n);
  RampModel := fun _ w => Return (lit_ramp, w);
  save := fun _ _ w => Return (tt, w);
  data := fun m => m;
  with_data := fun r _ => r;
  rate_data := fun m => nth 0 m [];
  rate_err := fun m => nth 0 m [];
  rate_dq := fun m => nth 0 m [];
  wcs := fun _ column row order => Return (of_nat (column + row + order));
  dither_points_to_int := fun m => Return m;
  dither_points := fun _ => Return tt;
  dither_points_to_one := fun m => Return m;
  int_mid_BJD_TDB := fun _ => Return [zero];
  group_time := fun _ => Return one;
  exposure_nints := fun _ => Return 1;
  exposure_ngroups := fun _ => Return 2;
  observation_start := fun _ => Return "2022-01-01T00:00:00";
  call := fun _ m _ w => Return (m, w);
  call_ramp_fit := fun m _ w => Return ([m; m], w);
  np_save := fun _ _ w => Return (tt, w);
  np_load := fun _ w => Return ([], w);
  solver := zero_lsmr
|}.

(** Keywords: none; the gain alone; the dark current under the name that
    the step tests. *)
Definition no_keywords : keywords :=
  {| files := []; kw_min_group := None; kw_max_group := None |}.

Definition gain_keywords : keywords :=
  {| files := [("override_gain", "refs/gain.fits"); ("note", "none")];
     kw_min_group := None; kw_max_group := None |}.

Definition dark_keywords : keywords :=
  {| files := [("override_darkcurrent", "refs/dark.fits")];
     kw_min_group := None; kw_max_group := None |}.

(** A run on a system where nothing is on disk, with the gain given and
    two steps skipped. *)
Definition toy_run : outcome (output_dictionary (toy_library false) * unit) :=
  stage1 (toy_library false) "data/jw01_nis_uncal.fits" 15 true true "all" "LOOM"
    ["RefPix"; "dqinit"] "out" (Some lit_mask) gain_keywords tt.

Definition toy_result : output_dictionary (toy_library false) :=
  match toy_run with
  | Return (d, _) => d
  | Throw _ => []
  end.

(** The dictionary of a run that has just made the superbias product. *)
Definition toy_dictionary : output_dictionary (toy_library false) :=
  [("superbias", Model lit_ramp)].

(** The dictionary and the path after the correction of that run. *)
Definition toy_products : output_dictionary (toy_library false) * String.string :=
  match
    preamp_step Loom no_keywords (Some lit_mask) "out/pipeline_outputs/jw01_nis"
      toy_dictionary tt
  with
  | Return (products, _) => products
  | Throw _ => ([], "out/pipeline_outputs/jw01_nis")
  end.

(** ** Tactics *)

(** Goals on canonical rationals, moved to plain rationals. *)
Ltac qc2q :=
  unfold Qcle, Qclt, Qcdiv, Qcminus, Qcmult, Qcplus, Qcopp, Qcinv, Q2Qc in *;
  cbn [this] in *;
  repeat rewrite Qred_correct in *;
  change (/ 2)%Q with (1 # 2)%Q in *.

(** * Properties *)

(** ** Lists and arrays *)

Lemma length_set_nth (A : Type) (k : nat) (x : A) (l : list A) :
  length (set_nth k x l) = length l.
Proof.
  revert k; induction l as [|y l IH]; intros [|k]; simpl; auto.
Qed.

Lemma nth_set_nth_eq (A : Type) (k : nat) (x d : A) (l : list A) :
  k < length l -> nth k (set_nth k x l) d = x.
Proof.
  revert k; induction l as [|y l IH]; intros [|k] H; simpl in *; try lia; auto.
  apply IH; lia.
Qed.

Lemma nth_set_nth_neq (A : Type) (k k' : nat) (x d : A) (l : list A) :
  k <> k' -> nth k' (set_nth k x l) d = nth k' l d.
Proof.
  revert k k'; induction l as [|y l IH]; intros [|k] [|k'] H; simpl; auto; try lia.
Qed.

Lemma set_nth_out (A : Type) (k : nat) (x : A) (l : list A) :
  length l <= k -> set_nth k x l = l.
Proof.
  revert k; induction l as [|y l IH]; intros [|k] H; simpl in *; auto; try lia.
  f_equal; apply IH; lia.
Qed.

Lemma set_nth_self (A : Type) (k : nat) (d : A) (l : list A) :
  k < length l -> set_nth k (nth k l d) l = l.
Proof.
  revert k; induction l as [|y l IH]; intros [|k] H; simpl in *; auto; try lia.
  f_equal; apply IH; lia.
Qed.

Lemma Forall_set_nth (A : Type) (P : A -> Prop) (k : nat) (x : A) (l : list A) :
  (k < length l -> P x) -> Forall P l -> Forall P (set_nth k x l).
Proof.
  revert k; induction l as [|y l IH]; intros [|k] Hx H; simpl in *; auto;
    inversion H; subst; constructor; auto.
  - apply Hx; lia.
  - apply IH; auto. intros; apply Hx; lia.
Qed.

Lemma Forall_nth_default (A : Type) (P : A -> Prop) (k : nat) (d : A) (l : list A) :
  P d -> Forall P l -> P (nth k l d).
Proof.
  intros Hd H; revert k; induction H; intros [|k]; simpl; auto.
Qed.

Lemma row_length (nr nc : nat) (a : frame) (r : nat) :
  has_shape nr nc a -> r < nr -> length (nth r a []) = nc.
Proof.
  intros [Hl Hr] Hlt. rewrite Forall_forall in Hr.
  apply Hr, nth_In; lia.
Qed.

Lemma ncols_shape (nr nc : nat) (a : frame) :
  has_shape nr nc a -> 0 < nr -> ncols a = nc.
Proof.
  intros [Hl Hr] Hlt. destruct a as [|r a]; simpl in *; [lia|].
  inversion Hr; auto.
Qed.

Lemma has_shape_set_pix (nr nc r c : nat) (x : px) (a : frame) :
  has_shape nr nc a -> has_shape nr nc (set_pix r c x a).
Proof.
  intros [Hl Hr]. unfold set_pix. split.
  - now rewrite length_set_nth.
  - apply Forall_set_nth; auto.
    intros Hlt. rewrite length_set_nth.
    rewrite Forall_forall in Hr. apply Hr, nth_In; auto.
Qed.

Lemma pix_set_pix_same (r c : nat) (x : px) (a : frame) :
  r < length a -> c < length (nth r a []) -> pix (set_pix r c x a) r c = x.
Proof.
  intros Hr Hc. unfold pix, set_pix.
  rewrite nth_set_nth_eq by auto. now apply nth_set_nth_eq.
Qed.

Lemma pix_set_pix_other (r c r' c' : nat) (x : px) (a : frame) :
  (r, c) <> (r', c') -> pix (set_pix r c x a) r' c' = pix a r' c'.
Proof.
  intros Hne. unfold pix, set_pix.
  destruct (Nat.eq_dec r r') as [->|Hr].
  - destruct (Nat.lt_ge_cases r' (length a)) as [Hlt|Hge].
    + rewrite nth_set_nth_eq by auto.
      apply nth_set_nth_neq. congruence.
    + now rewrite set_nth_out by auto.
  - now rewrite nth_set_nth_neq by auto.
Qed.

Lemma pair_eq_dec (p q : nat * nat) : {p = q} + {p <> q}.
Proof.
  decide equality; apply Nat.eq_dec.
Qed.

Lemma has_shape_assign_at (nr nc : nat) (idx : list (nat * nat)) (x : px) (a : frame) :
  has_shape nr nc a -> has_shape nr nc (assign_at idx x a).
Proof.
  unfold assign_at. revert a.
  induction idx as [|rc idx IH]; intros a H; simpl; auto.
  apply IH, has_shape_set_pix, H.
Qed.

Lemma pix_assign_at_in (nr nc : nat) (idx : list (nat * nat)) (x : px) (a : frame)
    (r c : nat) :
  has_shape nr nc a -> r < nr -> c < nc -> In (r, c) idx ->
  pix (assign_at idx x a) r c = x.
Proof.
  unfold assign_at. revert a.
  induction idx as [|[r0 c0] idx IH]; intros a H Hr Hc Hin; simpl in *; [tauto|].
  destruct (in_dec pair_eq_dec (r, c) idx) as [Hi|Hn].
  - apply IH; auto. now apply has_shape_set_pix.
  - destruct Hin as [Heq|Hin]; [|tauto]. inversion Heq; subst r0 c0.
    assert (Hkeep : forall i b, ~ In (r, c) i ->
              pix (fold_left (fun m rc => set_pix (fst rc) (snd rc) x m) i b) r c
              = pix b r c).
    { clear. induction i as [|[r1 c1] i IHi]; intros b Hn; simpl in *; auto.
      rewrite IHi by tauto. apply pix_set_pix_other. intros E. apply Hn. now left. }
    rewrite Hkeep by auto. simpl.
    apply pix_set_pix_same.
    + destruct H as [Hl _]. lia.
    + now rewrite (row_length H Hr).
Qed.

Lemma pix_assign_at_notin (idx : list (nat * nat)) (x : px) (a : frame) (r c : nat) :
  ~ In (r, c) idx -> pix (assign_at idx x a) r c = pix a r c.
Proof.
  unfold assign_at. revert a.
  induction idx as [|[r1 c1] idx IH]; intros a Hn; simpl in *; auto.
  rewrite IH by tauto. apply pix_set_pix_other. intros E. apply Hn. now left.
Qed.

Lemma has_shape_full (nr nc : nat) (v : px) : has_shape nr nc (full nr nc v).
Proof.
  unfold full. split.
  - apply repeat_length.
  - apply Forall_forall. intros r Hr. apply repeat_spec in Hr. subst r.
    apply repeat_length.
Qed.

Lemma nth_repeat_lt (A : Type) (x d : A) (n k : nat) :
  k < n -> nth k (repeat x n) d = x.
Proof.
  revert k; induction n as [|n IH]; intros [|k] H; simpl; auto; try lia.
  apply IH; lia.
Qed.

Lemma pix_full (nr nc r c : nat) (v : px) :
  r < nr -> c < nc -> pix (full nr nc v) r c = v.
Proof.
  intros Hr Hc. unfold pix, full.
  rewrite nth_repeat_lt by auto. now apply nth_repeat_lt.
Qed.

Lemma in_where_row (r : nat) (row : list bool) (r' c : nat) :
  In (r', c) (where_row r row) <-> r' = r /\ nth c row false = true.
Proof.
  unfold where_row. rewrite in_map_iff. split.
  - intros (c0 & E & Hin). inversion E; subst. apply filter_In in Hin. tauto.
  - intros [-> Hc]. exists c. split; auto. apply filter_In. split; auto.
    apply in_seq. split; [lia|]. simpl.
    destruct (Nat.lt_ge_cases c (length row)); auto.
    rewrite nth_overflow in Hc by auto. discriminate.
Qed.

Lemma in_where2_from (k : nat) (cond : list (list bool)) (r c : nat) :
  In (r, c) (where2_from k cond) <->
  k <= r /\ nth c (nth (r - k) cond []) false = true.
Proof.
  revert k. induction cond as [|row cond IH]; intros k; simpl.
  - split; [tauto|]. intros [_ H]. destruct (r - k), c; discriminate.
  - rewrite in_app_iff, in_where_row, IH. split.
    + intros [[-> H]|[Hle H]].
      * rewrite Nat.sub_diag. auto with arith.
      * split; [lia|]. replace (r - k) with (S (r - S k)) by lia. exact H.
    + intros [Hle H]. destruct (Nat.eq_dec r k) as [->|Hne].
      * left. rewrite Nat.sub_diag in H. auto.
      * right. split; [lia|]. replace (r - k) with (S (r - S k)) in H by lia. exact H.
Qed.

Lemma in_where2 (cond : list (list bool)) (r c : nat) :
  In (r, c) (where2 cond) <-> nth c (nth r cond []) false = true.
Proof.
  unfold where2. rewrite in_where2_from, Nat.sub_0_r. split; [tauto|].
  split; [lia|auto].
Qed.

(** The array that results from [a[np.where(cond)] = x]. *)
Lemma pix_assign_where (nr nc : nat) (cond : list (list bool)) (x : px) (a : frame)
    (r c : nat) :
  has_shape nr nc a -> r < nr -> c < nc ->
  pix (assign_at (where2 cond) x a) r c =
  if nth c (nth r cond []) false then x else pix a r c.
Proof.
  intros H Hr Hc.
  destruct (nth c (nth r cond []) false) eqn:E.
  - apply (pix_assign_at_in (nr:=nr) (nc:=nc)); auto. now apply in_where2.
  - apply pix_assign_at_notin. rewrite in_where2. congruence.
Qed.

Lemma nth_column (c : nat) (a : frame) (r : nat) :
  nth r (column c a) NaN = pix a r c.
Proof.
  unfold column, pix.
  destruct (Nat.lt_ge_cases r (length a)) as [Hlt|Hge].
  - rewrite (nth_indep _ NaN (nth c [] NaN)) by now rewrite length_map.
    apply (map_nth (fun row => nth c row NaN)).
  - rewrite (nth_overflow (map _ a)) by (rewrite length_map; lia).
    rewrite (nth_overflow a) by lia. destruct c; reflexivity.
Qed.

Lemma length_column (c : nat) (a : frame) : length (column c a) = length a.
Proof. apply length_map. Qed.

Lemma nth_map_seq (A : Type) (f : nat -> A) (n k : nat) (d : A) :
  k < n -> nth k (map f (seq 0 n)) d = f k.
Proof.
  intros H. rewrite (nth_indep _ d (f 0)) by now rewrite length_map, length_seq.
  rewrite map_nth, seq_nth; auto.
Qed.

(** ** The illumination mask ([get_uniluminated_mask]) *)

Lemma in_where_gt (v : vec) (t : px) (r : nat) :
  In r (where_gt v t) <-> pgtb (nth r v NaN) t = true.
Proof.
  unfold where_gt. rewrite filter_In, in_seq. split; [tauto|].
  intros H. split; auto. split; [lia|]. simpl.
  destruct (Nat.lt_ge_cases r (length v)); auto.
  rewrite nth_overflow in H by auto. discriminate.
Qed.

Lemma pix_clear_column (nr nc : nat) (idx : list nat) (i : nat) (m : frame) (r c : nat) :
  has_shape nr nc m -> r < nr -> c < nc ->
  pix (clear_column idx i m) r c =
  if (i =? c) && (if in_dec Nat.eq_dec r idx then true else false)
  then zero else pix m r c.
Proof.
  intros H Hr Hc. unfold clear_column.
  destruct (Nat.eqb_spec i c) as [->|Hne]; simpl.
  - destruct (in_dec Nat.eq_dec r idx) as [Hin|Hn].
    + apply (pix_assign_at_in (nr:=nr) (nc:=nc)); auto.
      apply in_map_iff. now exists r.
    + apply pix_assign_at_notin. rewrite in_map_iff.
      intros (r0 & E & Hin). inversion E; subst. tauto.
  - apply pix_assign_at_notin. rewrite in_map_iff.
    intros (r0 & E & Hin). inversion E; subst. tauto.
Qed.

Lemma pix_uniluminated_step (nr nc : nat) (data : frame) (nsigma : Qc) (cc : vec)
    (m : frame) (i r c : nat) :
  has_shape nr nc m -> r < nr -> c < nc ->
  pix (uniluminated_step data nsigma cc m i) r c =
  if (i =? c)
     && pgtb (pix data r c)
          (padd (nth c cc NaN) (pmul (num nsigma) (column_sigma data cc c)))
  then zero else pix m r c.
Proof.
  intros H Hr Hc. unfold uniluminated_step.
  rewrite (pix_clear_column _ _ H Hr Hc).
  destruct (Nat.eqb_spec i c) as [->|Hne]; simpl; auto.
  destruct (in_dec Nat.eq_dec r _) as [Hin|Hn].
  - apply in_where_gt in Hin. rewrite nth_column in Hin. now rewrite Hin.
  - rewrite in_where_gt, nth_column in Hn.
    destruct (pgtb (pix data r c) _); congruence.
Qed.

Lemma has_shape_uniluminated_step (nr nc : nat) (data : frame) (nsigma : Qc) (cc : vec)
    (m : frame) (i : nat) :
  has_shape nr nc m -> has_shape nr nc (uniluminated_step data nsigma cc m i).
Proof.
  intros H. unfold uniluminated_step, clear_column. now apply has_shape_assign_at.
Qed.

Lemma has_shape_uniluminated_fold (nr nc : nat) (data : frame) (nsigma : Qc) (cc : vec)
    (cols : list nat) (m : frame) :
  has_shape nr nc m ->
  has_shape nr nc (fold_left (uniluminated_step data nsigma cc) cols m).
Proof.
  revert m. induction cols as [|i cols IH]; intros m H; simpl; auto.
  apply IH, has_shape_uniluminated_step, H.
Qed.

Lemma pix_uniluminated_fold (nr nc : nat) (data : frame) (nsigma : Qc) (cc : vec)
    (cols : list nat) (m : frame) (r c : nat) :
  has_shape nr nc m -> r < nr -> c < nc ->
  pix (fold_left (uniluminated_step data nsigma cc) cols m) r c =
  if existsb (fun i => i =? c) cols
     && pgtb (pix data r c)
          (padd (nth c cc NaN) (pmul (num nsigma) (column_sigma data cc c)))
  then zero else pix m r c.
Proof.
  intros H Hr Hc. revert m H.
  induction cols as [|i cols IH]; intros m H; simpl; auto.
  rewrite IH by now apply has_shape_uniluminated_step.
  rewrite (pix_uniluminated_step _ _ _ _ H Hr Hc).
  destruct (i =? c), (existsb (fun i0 => i0 =? c) cols),
    (pgtb (pix data r c) _); reflexivity.
Qed.

Lemma length_median_axis0 (nc : nat) (a : frame) : length (median_axis0 nc a) = nc.
Proof. unfold median_axis0. now rewrite length_map, length_seq. Qed.

Lemma column_sigma_scaled_mad (data : frame) (c : nat) :
  c < ncols data ->
  column_sigma data (median_axis0 (ncols data) data) c =
  scaled_mad (map (fun x => psub x (median (column c data))) (column c data)).
Proof.
  intros Hc. unfold column_sigma, scaled_mad, median_axis0.
  now rewrite nth_map_seq by auto.
Qed.

Lemma get_uniluminated_mask_pix (nr nc : nat) (data : frame) (nsigma : Qc) (r c : nat) :
  has_shape nr nc data -> r < nr -> c < nc ->
  pix (get_uniluminated_mask data nsigma) r c =
  if pgtb (pix data r c) (illumination_level data nsigma c) then zero else one.
Proof.
  intros H Hr Hc. unfold get_uniluminated_mask.
  assert (Hnc : ncols data = nc) by (apply (ncols_shape H); lia).
  assert (Hnr : nrows data = nr) by apply H.
  rewrite length_median_axis0, Hnr.
  rewrite (pix_uniluminated_fold (nr:=nr) (nc:=ncols data)); auto.
  - rewrite column_sigma_scaled_mad by lia.
    unfold median_axis0 at 1. rewrite nth_map_seq by lia.
    fold (illumination_level data nsigma c).
    replace (existsb (fun i => i =? c) (seq 0 (ncols data))) with true.
    + simpl. rewrite pix_full by lia. reflexivity.
    + symmetry. apply existsb_exists. exists c. split.
      * apply in_seq. lia.
      * apply Nat.eqb_refl.
  - apply has_shape_full.
  - lia.
Qed.

Lemma get_uniluminated_mask_shape (nr nc : nat) (data : frame) (nsigma : Qc) :
  has_shape nr nc data -> 0 < nr ->
  has_shape nr nc (get_uniluminated_mask data nsigma).
Proof.
  intros H Hr. unfold get_uniluminated_mask.
  apply has_shape_uniluminated_fold.
  rewrite (ncols_shape H Hr). destruct H as [Hl _]. unfold nrows. rewrite Hl.
  apply has_shape_full.
Qed.

(** ** Comparisons *)

Lemma Qcltb_lt (x y : Qc) : Qcltb x y = true <-> (x < y)%Qc.
Proof.
  unfold Qcltb. rewrite Qclt_alt. destruct (x ?= y)%Qc; split; congruence.
Qed.

Lemma Qcleb_le (x y : Qc) : Qcleb x y = true <-> (x <= y)%Qc.
Proof.
  unfold Qcleb. rewrite Qcle_alt. destruct (x ?= y)%Qc; split; congruence.
Qed.

Lemma pgtb_true (a b : px) :
  pgtb a b = true <-> exists v t, a = num v /\ b = num t /\ (t < v)%Qc.
Proof.
  unfold pgtb, num. split.
  - destruct a as [v|], b as [t|]; try discriminate.
    intros H. exists v, t. rewrite <- Qcltb_lt. auto.
  - intros (v & t & -> & -> & H). now apply Qcltb_lt.
Qed.

Lemma zero_neq_one : zero <> one.
Proof. discriminate. Qed.

(** C5: a pixel of the illumination mask is 0 exactly when its value is
    strictly above the median of its column plus [nsigma] times the scaled
    MAD of the column residuals, and 1 otherwise; a pixel at or below that
    level is never flagged. *)
Theorem get_uniluminated_mask_threshold (nr nc : nat) (data : frame) (nsigma : Qc)
    (r c : nat) :
  has_shape nr nc data -> r < nr -> c < nc ->
  let mask := get_uniluminated_mask data nsigma in
  let level := illumination_level data nsigma c in
  (pix mask r c = zero <->
   exists v t, pix data r c = num v /\ level = num t /\ (t < v)%Qc) /\
  (pix mask r c = one <-> pix mask r c <> zero) /\
  (forall v t, pix data r c = num v -> level = num t -> (v <= t)%Qc ->
               pix mask r c = one).
Proof.
  intros H Hr Hc mask level. subst mask level.
  rewrite (get_uniluminated_mask_pix nsigma H Hr Hc).
  rewrite <- pgtb_true.
  destruct (pgtb (pix data r c) (illumination_level data nsigma c)) eqn:E.
  - split; [tauto|]. split.
    + split; [discriminate|]. intros Hn. now elim Hn.
    + intros v t Hv Ht Hle. apply pgtb_true in E.
      destruct E as (v' & t' & Hv' & Ht' & Hlt).
      rewrite Hv in Hv'. rewrite Ht in Ht'.
      inversion Hv'; inversion Ht'; subst.
      exfalso. now apply (Qcle_not_lt _ _ Hle).
  - split; [split; discriminate|]. split; [|reflexivity].
    split; [discriminate|reflexivity].
Qed.

(** ** Exact rationals *)

Lemma Qc_mean_ge (a b : Qc) : (a <= b)%Qc -> (a <= (a + b) / Q2Qc 2)%Qc.
Proof. intros H. qc2q. lra. Qed.

Lemma Qc_mean_nonneg (a b : Qc) :
  (0 <= a)%Qc -> (0 <= b)%Qc -> (0 <= (a + b) / Q2Qc 2)%Qc.
Proof. intros Ha Hb. qc2q. lra. Qed.

Lemma Qc_mul_nonneg (a b : Qc) : (0 <= a)%Qc -> (0 <= b)%Qc -> (0 <= a * b)%Qc.
Proof. intros Ha Hb. qc2q. nra. Qed.

Lemma Qc_add_nonneg_ge (a b : Qc) : (0 <= b)%Qc -> (a <= a + b)%Qc.
Proof. intros Hb. qc2q. lra. Qed.


Lemma Qcabs_ge_0 (a : Qc) : (0 <= Qcabs a)%Qc.
Proof. apply Qcabs_nonneg. Qed.

Lemma mad_scale_pos : (0 <= mad_scale)%Qc.
Proof. unfold mad_scale. qc2q. unfold Qle; simpl; lia. Qed.

(** ** Medians *)

Lemma filter_length_perm (A : Type) (p : A -> bool) (l l' : list A) :
  Permutation l l' -> length (filter p l) = length (filter p l').
Proof.
  induction 1; simpl; auto.
  - destruct (p x); simpl; auto.
  - destruct (p x), (p y); simpl; auto.
  - congruence.
Qed.

Lemma filter_length_mono (A : Type) (p q : A -> bool) (l : list A) :
  (forall x, In x l -> p x = true -> q x = true) ->
  length (filter p l) <= length (filter q l).
Proof.
  induction l as [|x l IH]; intros H; simpl; auto.
  assert (IH' : length (filter p l) <= length (filter q l))
    by (apply IH; intros; apply H; simpl; auto).
  destruct (p x) eqn:Ep.
  - rewrite (H x) by (simpl; auto). simpl. lia.
  - destruct (q x); simpl; lia.
Qed.

Lemma filter_length_le (A : Type) (p : A -> bool) (l : list A) :
  length (filter p l) <= length l.
Proof.
  induction l as [|x l IH]; simpl; auto. destruct (p x); simpl; lia.
Qed.

Lemma sortedQc_sort (l : list Qc) : sortedQc (QcSort.sort l).
Proof.
  apply QcSort.StronglySorted_sort.
  intros x y z Hxy Hyz. unfold is_true, QcOrder.leb in *.
  rewrite Qcleb_le in *. eapply Qcle_trans; eauto.
Qed.

Lemma sortedQc_nth_le (s : list Qc) (i j : nat) :
  sortedQc s -> i <= j -> j < length s -> (nth i s 0 <= nth j s 0)%Qc.
Proof.
  intros Hs. revert i j. induction Hs as [|x s Hs IH Hx]; intros i j Hij Hj.
  - simpl in Hj. lia.
  - destruct i as [|i], j as [|j]; simpl in *; try lia.
    + apply Qcle_refl.
    + rewrite Forall_forall in Hx.
      apply Qcleb_le. apply Hx. apply nth_In. lia.
    + apply IH; lia.
Qed.

(** In a sorted sample at least [k + 1] entries are at most the entry of
    rank [k]. *)
Lemma sortedQc_count_le (s : list Qc) (k : nat) (m : Qc) :
  sortedQc s -> k < length s -> (nth k s 0 <= m)%Qc ->
  S k <= length (filter (fun x => Qcleb x m) s).
Proof.
  intros Hs. revert k. induction Hs as [|x s Hs IH Hx]; intros k Hk Hm.
  - simpl in Hk. lia.
  - assert (Hxm : Qcleb x m = true).
    { apply Qcleb_le. eapply Qcle_trans; [|exact Hm].
      apply (@sortedQc_nth_le (x :: s) 0 k); auto; try lia.
      now constructor. }
    simpl. rewrite Hxm. simpl.
    destruct k as [|k]; [lia|].
    simpl in Hk, Hm. apply le_n_S. apply IH; auto. lia.
Qed.

Lemma middle_ge_lower_rank (s : list Qc) :
  sortedQc s -> 0 < length s -> (nth ((length s - 1) / 2) s 0 <= middle s)%Qc.
Proof.
  intros Hs Hn. unfold middle.
  destruct (Nat.odd (length s)) eqn:E.
  - apply Nat.odd_spec in E. destruct E as [k Hk].
    replace ((length s - 1) / 2) with (length s / 2) by lia.
    apply Qcle_refl.
  - assert (Hev : Nat.even (length s) = true)
      by (rewrite <- Nat.negb_odd, E; reflexivity).
    apply Nat.even_spec in Hev. destruct Hev as [k Hk].
    replace ((length s - 1) / 2) with (length s / 2 - 1) by lia.
    apply Qc_mean_ge. apply sortedQc_nth_le; auto; lia.
Qed.

(** At least half of a sample (rounded up) is at most its median. *)
Lemma count_le_median (l : list Qc) (m : Qc) :
  medianQ l = num m ->
  (length l + 1) / 2 <= length (filter (fun x => Qcleb x m) l).
Proof.
  unfold medianQ. destruct l as [|x l'] eqn:El; [discriminate|].
  rewrite <- El. intros Hm. inversion Hm as [Hm']. clear Hm.
  assert (Hlen : length (QcSort.sort l) = length l)
    by (symmetry; apply Permutation_length, QcSort.Permuted_sort).
  assert (Hpos : 0 < length l) by (rewrite El; simpl; lia).
  rewrite (filter_length_perm _ (QcSort.Permuted_sort l)).
  replace ((length l + 1) / 2) with (S ((length l - 1) / 2)) by lia.
  apply sortedQc_count_le.
  - apply sortedQc_sort.
  - rewrite Hlen. lia.
  - rewrite <- Hlen. apply middle_ge_lower_rank.
    + apply sortedQc_sort.
    + now rewrite Hlen.
Qed.

Lemma middle_nonneg (s : list Qc) :
  Forall (fun x => (0 <= x)%Qc) s -> (0 <= middle s)%Qc.
Proof.
  intros H. unfold middle.
  assert (Hn : forall k, (0 <= nth k s 0)%Qc).
  { intros k. apply Forall_nth_default; auto. apply Qcle_refl. }
  destruct (Nat.odd (length s)); auto.
  apply Qc_mean_nonneg; auto.
Qed.

Lemma medianQ_nonneg (l : list Qc) (m : Qc) :
  Forall (fun x => (0 <= x)%Qc) l -> medianQ l = num m -> (0 <= m)%Qc.
Proof.
  unfold medianQ. destruct l as [|x l'] eqn:El; [discriminate|].
  rewrite <- El. intros H Hm. inversion Hm. apply middle_nonneg.
  rewrite Forall_forall in *. intros y Hy. apply H.
  eapply Permutation_in; [|exact Hy].
  apply Permutation_sym, QcSort.Permuted_sort.
Qed.

Lemma drop_nan_abs_nonneg (f : px -> px) (v : vec) :
  Forall (fun x => (0 <= x)%Qc) (drop_nan (map (fun x => pabs (f x)) v)).
Proof.
  induction v as [|x v IH]; simpl; auto.
  destruct (f x) as [y|]; simpl; auto.
  constructor; auto. apply Qcabs_ge_0.
Qed.

Lemma scaled_mad_nonneg (v : vec) (s : Qc) : scaled_mad v = num s -> (0 <= s)%Qc.
Proof.
  unfold scaled_mad, nanmedian.
  destruct (medianQ _) as [d|] eqn:E; simpl; [|discriminate].
  intros H. inversion H. apply Qc_mul_nonneg.
  - eapply medianQ_nonneg; [|exact E]. apply drop_nan_abs_nonneg.
  - apply mad_scale_pos.
Qed.

(** A value at or below the median of its column is not above the
    illumination level, whatever the non-negative [nsigma]. *)
Lemma not_above_level (data : frame) (nsigma : Qc) (c : nat) (v m : Qc) :
  (0 <= nsigma)%Qc -> median (column c data) = num m -> (v <= m)%Qc ->
  pgtb (num v) (illumination_level data nsigma c) = false.
Proof.
  intros Hn Hm Hv. unfold illumination_level. rewrite Hm.
  destruct (scaled_mad _) as [s|] eqn:Es; simpl; auto.
  destruct (Qcltb _ v) eqn:E; auto. apply Qcltb_lt in E. exfalso.
  apply scaled_mad_nonneg in Es.
  assert (H0 : (0 <= nsigma * s)%Qc) by now apply Qc_mul_nonneg.
  revert E. apply Qcle_not_lt.
  eapply Qcle_trans; [exact Hv|]. now apply Qc_add_nonneg_ge.
Qed.

Lemma filter_length_map (A B : Type) (f : A -> B) (p : B -> bool) (l : list A) :
  length (filter p (map f l)) = length (filter (fun x => p (f x)) l).
Proof.
  induction l as [|x l IH]; simpl; auto. destruct (p (f x)); simpl; auto.
Qed.

Lemma filter_length_all (A : Type) (p : A -> bool) (l : list A) :
  (forall x, In x l -> p x = true) -> length (filter p l) = length l.
Proof.
  induction l as [|x l IH]; intros H; simpl; auto.
  rewrite (H x) by (simpl; auto). simpl. f_equal. apply IH.
  intros; apply H; simpl; auto.
Qed.

Lemma has_nan_false (v : vec) : has_nan v = false -> v = map num (drop_nan v).
Proof.
  induction v as [|[x|] v IH]; simpl; auto; try discriminate.
  intros H. f_equal. auto.
Qed.

Lemma length_drop_nan_real (v : vec) : has_nan v = false -> length (drop_nan v) = length v.
Proof.
  intros H. rewrite (has_nan_false v H) at 2. now rewrite length_map.
Qed.

Lemma column_uniluminated_mask (nr nc : nat) (data : frame) (nsigma : Qc) (c : nat) :
  has_shape nr nc data -> c < nc ->
  column c (get_uniluminated_mask data nsigma) =
  map (fun x => if pgtb x (illumination_level data nsigma c) then zero else one)
    (column c data).
Proof.
  intros H Hc. destruct (Nat.eq_dec nr 0) as [->|Hnr].
  - destruct H as [Hl _]. apply length_zero_iff_nil in Hl. subst data. reflexivity.
  - assert (Hs := @get_uniluminated_mask_shape nr nc data nsigma H ltac:(lia)).
    apply (nth_ext _ _ NaN NaN).
    + rewrite length_map, !length_column. destruct Hs as [-> _]. now destruct H.
    + intros r Hr. rewrite length_column in Hr. destruct Hs as [Hl _].
      set (g := fun x => if pgtb x (illumination_level data nsigma c)
                         then zero else one).
      rewrite (nth_indep (map g (column c data)) NaN (g NaN))
        by (rewrite length_map, length_column; destruct H; lia).
      rewrite (map_nth g), !nth_column. subst g.
      apply (get_uniluminated_mask_pix nsigma H); lia.
Qed.

(** C10: with a non-negative [nsigma] the illumination mask keeps every
    pixel at or below the median of its column, so each column of the mask
    holds at least half of the rows (rounded up) as 1-entries, and at least
    one as soon as the frame has a row. *)
Theorem get_uniluminated_mask_keeps_lower_half (nr nc : nat) (data : frame)
    (nsigma : Qc) :
  has_shape nr nc data -> (0 <= nsigma)%Qc ->
  let mask := get_uniluminated_mask data nsigma in
  (forall r c v m, r < nr -> c < nc ->
     pix data r c = num v -> median (column c data) = num m -> (v <= m)%Qc ->
     pix mask r c = one) /\
  (forall c, c < nc -> (nr + 1) / 2 <= count_ones (column c mask)) /\
  (forall c, c < nc -> 0 < nr -> exists r, r < nr /\ pix mask r c = one).
Proof.
  intros H Hn mask.
  assert (Hhalf : forall c, c < nc -> (nr + 1) / 2 <= count_ones (column c mask)).
  { intros c Hc. subst mask. rewrite (column_uniluminated_mask nsigma H Hc).
    unfold count_ones. rewrite filter_length_map.
    assert (Hlen : length (column c data) = nr)
      by (rewrite length_column; apply H).
    destruct (median (column c data)) as [m|] eqn:Em.
    - unfold median in Em. destruct (has_nan (column c data)) eqn:En; [discriminate|].
      assert (Hm : median (column c data) = num m)
        by (unfold median; rewrite En; exact Em).
      pose proof (has_nan_false _ En) as Hcol.
      rewrite Hcol at 1. rewrite filter_length_map.
      replace nr with (length (drop_nan (column c data)))
        by (rewrite length_drop_nan_real; auto).
      etransitivity; [apply (count_le_median _ Em)|].
      apply filter_length_mono. intros v _ Hv. apply Qcleb_le in Hv.
      now rewrite (not_above_level data c Hn Hm Hv).
    - rewrite filter_length_all.
      + rewrite Hlen. lia.
      + intros x _. unfold illumination_level. rewrite Em.
        destruct x; reflexivity. }
  split; [|split; auto].
  - intros r c v m Hr Hc Hv Hm Hle. subst mask.
    rewrite (get_uniluminated_mask_pix nsigma H Hr Hc), Hv.
    now rewrite (not_above_level data c Hn Hm Hle).
  - intros c Hc Hr. specialize (Hhalf c Hc).
    assert (Hpos : 0 < count_ones (column c mask)) by lia.
    unfold count_ones in Hpos.
    destruct (filter is_one (column c mask)) as [|x l] eqn:Ef; [simpl in Hpos; lia|].
    assert (Hin : In x (filter is_one (column c mask))) by (rewrite Ef; simpl; auto).
    apply filter_In in Hin. destruct Hin as [Hin Hx].
    apply (In_nth _ _ NaN) in Hin. destruct Hin as (r & Hr' & Hnth).
    rewrite nth_column in Hnth. rewrite length_column in Hr'.
    exists r. split.
    + subst mask.
      now rewrite (proj1 (get_uniluminated_mask_shape nsigma H Hr)) in Hr'.
    + rewrite Hnth. unfold is_one in Hx. destruct x as [q|]; [|discriminate].
      destruct (Qc_eq_dec q 1%Qc); [subst; reflexivity|discriminate].
Qed.

(** ** Element-wise operations *)

Lemma length_zip_with (A B C : Type) (f : A -> B -> C) (l : list A) (m : list B) :
  length (zip_with f l m) = Nat.min (length l) (length m).
Proof.
  revert m; induction l as [|x l IH]; intros [|y m]; simpl; auto.
Qed.

Lemma nth_zip_with (A B C : Type) (f : A -> B -> C) (l : list A) (m : list B)
    (k : nat) (d : C) (dl : A) (dm : B) :
  k < length l -> k < length m ->
  nth k (zip_with f l m) d = f (nth k l dl) (nth k m dm).
Proof.
  revert m k; induction l as [|x l IH]; intros [|y m] [|k] Hl Hm; simpl in *;
    try lia; auto.
  apply IH; lia.
Qed.

Lemma has_shape_map2 (nr nc : nat) (f : px -> px -> px) (a b : frame) :
  has_shape nr nc a -> has_shape nr nc b -> has_shape nr nc (map2 f a b).
Proof.
  intros [Ha Hra] [Hb Hrb]. unfold map2. split.
  - rewrite length_zip_with. lia.
  - clear Ha Hb. revert b Hrb. induction Hra as [|x a Hx Hra IH]; intros b Hrb.
    + constructor.
    + destruct b as [|y b]; simpl; [constructor|].
      inversion Hrb; subst. constructor; auto.
      rewrite length_zip_with. lia.
Qed.

Lemma pix_map2 (nr nc : nat) (f : px -> px -> px) (a b : frame) (r c : nat) :
  has_shape nr nc a -> has_shape nr nc b -> r < nr -> c < nc ->
  pix (map2 f a b) r c = f (pix a r c) (pix b r c).
Proof.
  intros Ha Hb Hr Hc. unfold pix, map2.
  rewrite (nth_zip_with (zip_with f) a b [] [] []);
    [|destruct Ha; lia|destruct Hb; lia].
  apply nth_zip_with.
  - now rewrite (row_length Ha Hr).
  - now rewrite (row_length Hb Hr).
Qed.

(** ** Masks *)

Lemma is_mask_pix (nr nc : nat) (m : frame) (r c : nat) :
  has_shape nr nc m -> is_mask m -> r < nr -> c < nc ->
  pix m r c = zero \/ pix m r c = one.
Proof.
  intros H Hm Hr Hc. unfold pix, is_mask in *.
  rewrite Forall_forall in Hm.
  assert (Hin : In (nth r m []) m) by (apply nth_In; destruct H; lia).
  specialize (Hm _ Hin). rewrite Forall_forall in Hm.
  apply Hm, nth_In. now rewrite (row_length H Hr).
Qed.

Lemma pmul_zero_l (a : px) : a = zero \/ a = one -> pmul zero a = zero.
Proof. intros [->| ->]; reflexivity. Qed.

Lemma pmul_one_l (a : px) : a = zero \/ a = one -> pmul one a = a.
Proof. intros [->| ->]; reflexivity. Qed.

Lemma ple_zero_one : ple zero one.
Proof. exists 0%Qc, 1%Qc. repeat split. discriminate. Qed.

Lemma ple_refl_num (x : Qc) : ple (num x) (num x).
Proof. exists x, x. repeat split. apply Qcle_refl. Qed.

(** C3: the mask returned by [cc_uniluminated_outliers] is congruent to
    the input mask, holds only 0 and 1, is 0 wherever the input mask is 0,
    and is element-wise at most the input mask. *)
Theorem cc_uniluminated_outliers_tightens (nr nc : nat) (data mask : frame)
    (nsigma : Qc) :
  has_shape nr nc data -> has_shape nr nc mask -> is_mask mask ->
  let updated := cc_uniluminated_outliers data mask nsigma in
  has_shape nr nc updated /\
  forall r c, r < nr -> c < nc ->
    (pix updated r c = zero \/ pix updated r c = one) /\
    (pix mask r c = zero -> pix updated r c = zero) /\
    (pix updated r c = one -> pix mask r c = one) /\
    ple (pix updated r c) (pix mask r c).
Proof.
  intros Hd Hm H01 updated. subst updated. unfold cc_uniluminated_outliers.
  set (idx := where2 _).
  assert (Hnr : nrows data = nr) by apply Hd.
  destruct (Nat.eq_dec nr 0) as [Hz|Hpos].
  - split; [|intros; lia].
    destruct Hm as [Hl _]. rewrite Hz in Hl.
    apply length_zero_iff_nil in Hl. subst mask.
    split; [simpl; lia|constructor].
  - rewrite Hnr, (ncols_shape Hd) by lia.
    set (new_mask := assign_at idx zero (full nr nc one)).
    assert (Hnew : has_shape nr nc new_mask)
      by apply has_shape_assign_at, has_shape_full.
    split; [now apply has_shape_map2|].
    intros r c Hr Hc. rewrite (pix_map2 pmul Hm Hnew Hr Hc).
    assert (Hn01 : pix new_mask r c = zero \/ pix new_mask r c = one).
    { subst new_mask. destruct (in_dec pair_eq_dec (r, c) idx) as [Hin|Hn].
      - left. apply (pix_assign_at_in (nr:=nr) (nc:=nc)); auto.
        apply has_shape_full.
      - right. rewrite pix_assign_at_notin by auto. now apply pix_full. }
    destruct (is_mask_pix Hm H01 Hr Hc) as [E|E]; rewrite E.
    + rewrite pmul_zero_l by auto.
      split; [now left|]. split; [reflexivity|]. split; [|apply ple_refl_num].
      intros Hc'. now apply zero_neq_one in Hc'.
    + rewrite pmul_one_l by auto.
      split; [exact Hn01|]. split; [|split; [reflexivity|]].
      * intros Hc'. symmetry in Hc'. now apply zero_neq_one in Hc'.
      * destruct Hn01 as [-> | ->]; [apply ple_zero_one|apply ple_refl_num].
Qed.

(** ** Slices *)

Lemma evens_cons2 (A : Type) (x y : A) (l : list A) : evens (x :: y :: l) = x :: evens l.
Proof. reflexivity. Qed.

Lemma pair_induction (A : Type) (P : list A -> Prop) :
  P [] -> (forall x, P [x]) -> (forall x y l, P l -> P (x :: y :: l)) ->
  forall l, P l.
Proof.
  intros H0 H1 H2 l.
  assert (H : P l /\ forall x, P (x :: l)).
  { induction l as [|y l [IH1 IH2]]; split; auto. }
  tauto.
Qed.

Lemma length_evens (A : Type) (l : list A) : length (evens l) = (length l + 1) / 2.
Proof.
  induction l as [| x | x y l IH] using pair_induction; auto.
  rewrite evens_cons2. simpl length. rewrite IH. lia.
Qed.

Lemma length_odds (A : Type) (l : list A) : length (odds l) = length l / 2.
Proof.
  destruct l as [|x l]; [reflexivity|].
  unfold odds. rewrite length_evens. simpl length. lia.
Qed.

Lemma nth_evens (A : Type) (l : list A) (k : nat) (d : A) :
  nth k (evens l) d = nth (2 * k) l d.
Proof.
  revert k. induction l as [| x | x y l IH] using pair_induction; intros k.
  - destruct k; reflexivity.
  - destruct k as [|[|k]]; reflexivity.
  - rewrite evens_cons2. destruct k as [|k]; [reflexivity|].
    replace (2 * S k) with (S (S (2 * k))) by lia. simpl nth. apply IH.
Qed.

Lemma nth_odds (A : Type) (l : list A) (k : nat) (d : A) :
  nth k (odds l) d = nth (2 * k + 1) l d.
Proof.
  destruct l as [|x l].
  - destruct k; simpl; auto.
  - unfold odds. rewrite nth_evens.
    replace (2 * k + 1) with (S (2 * k)) by lia. reflexivity.
Qed.

Lemma evens_rows (A : Type) (l : list A) (d : A) :
  evens l = map (fun r => nth r l d) (even_rows (length l)).
Proof.
  unfold even_rows. rewrite map_map.
  apply (nth_ext _ _ d d).
  - now rewrite length_evens, length_map, length_seq.
  - intros k Hk. rewrite length_evens in Hk.
    now rewrite nth_evens, nth_map_seq.
Qed.

Lemma odds_rows (A : Type) (l : list A) (d : A) :
  odds l = map (fun r => nth r l d) (odd_rows (length l)).
Proof.
  unfold odd_rows. rewrite map_map.
  apply (nth_ext _ _ d d).
  - now rewrite length_odds, length_map, length_seq.
  - intros k Hk. rewrite length_odds in Hk.
    now rewrite nth_odds, nth_map_seq.
Qed.

Lemma in_even_rows (nr r : nat) : In r (even_rows nr) <-> r < nr /\ Nat.even r = true.
Proof.
  unfold even_rows. rewrite in_map_iff. split.
  - intros (k & <- & Hk). apply in_seq in Hk. split; [lia|].
    apply Nat.even_spec. now exists k.
  - intros [Hr He]. apply Nat.even_spec in He. destruct He as [k ->].
    exists k. split; auto. apply in_seq. lia.
Qed.

Lemma in_odd_rows (nr r : nat) : In r (odd_rows nr) <-> r < nr /\ Nat.odd r = true.
Proof.
  unfold odd_rows. rewrite in_map_iff. split.
  - intros (k & <- & Hk). apply in_seq in Hk. split; [lia|].
    apply Nat.odd_spec. now exists k.
  - intros [Hr He]. apply Nat.odd_spec in He. destruct He as [k ->].
    exists k. split; auto. apply in_seq. lia.
Qed.

(** A rectangular array is the table of its entries. *)
Lemma row_table (nr nc : nat) (a : frame) (r : nat) :
  has_shape nr nc a -> r < nr -> nth r a [] = map (fun c => pix a r c) (seq 0 nc).
Proof.
  intros H Hr. apply (nth_ext _ _ NaN NaN).
  - now rewrite (row_length H Hr), length_map, length_seq.
  - intros c Hc. rewrite (row_length H Hr) in Hc. now rewrite nth_map_seq.
Qed.

Lemma column_table (nr nc : nat) (a : frame) (c : nat) :
  has_shape nr nc a -> column c a = map (fun r => pix a r c) (seq 0 nr).
Proof.
  intros H. apply (nth_ext _ _ NaN NaN).
  - rewrite length_column, length_map, length_seq. apply H.
  - intros r Hr. rewrite length_column in Hr. destruct H as [Hl _].
    rewrite nth_column, nth_map_seq; auto. lia.
Qed.

Lemma pix_fill_evens (nr nc : nat) (v : px) (a : frame) (r c : nat) :
  has_shape nr nc a -> r < nr -> c < nc ->
  pix (fill_evens v a) r c = if Nat.even r then v else pix a r c.
Proof.
  intros [Hl Hrows]. revert nr r Hl.
  induction a as [| x | x y a IH] using pair_induction; intros nr r Hl Hr Hc.
  - simpl in Hl. lia.
  - simpl in Hl. assert (r = 0) by lia. subst r. unfold pix. simpl.
    inversion Hrows; subst.
    rewrite (nth_indep _ NaN ((fun _ => v) NaN)) by (rewrite length_map; lia).
    now rewrite (map_nth (fun _ => v)).
  - inversion Hrows as [|? ? Hx Hrows']; subst. inversion Hrows'; subst.
    destruct r as [|[|r]].
    + unfold pix. simpl.
      rewrite (nth_indep _ NaN ((fun _ => v) NaN)) by (rewrite length_map; lia).
      now rewrite (map_nth (fun _ => v)).
    + reflexivity.
    + change (pix (fill_evens v (x :: y :: a)) (S (S r)) c)
        with (pix (fill_evens v a) r c).
      change (pix (x :: y :: a) (S (S r)) c) with (pix a r c).
      rewrite Nat.even_succ_succ.
      apply (IH ltac:(assumption) (length a)); auto. simpl in Hr. lia.
Qed.

Lemma has_shape_fill_evens (nr nc : nat) (v : px) (a : frame) :
  has_shape nr nc a -> has_shape nr nc (fill_evens v a).
Proof.
  intros [Hl Hrows]. revert nr Hl.
  induction a as [| x | x y a IH] using pair_induction; intros nr Hl.
  - split; auto.
  - split; auto. inversion Hrows; subst. constructor; auto.
    now rewrite length_map.
  - inversion Hrows as [|? ? Hx Hrows']; subst. inversion Hrows'; subst.
    destruct (IH ltac:(assumption) (length a) eq_refl) as [Hl' Hr'].
    split.
    + simpl. simpl in Hl'. rewrite Hl'. reflexivity.
    + constructor; [now rewrite length_map|]. constructor; auto.
Qed.

Lemma pix_fill_odds (nr nc : nat) (v : px) (a : frame) (r c : nat) :
  has_shape nr nc a -> r < nr -> c < nc ->
  pix (fill_odds v a) r c = if Nat.odd r then v else pix a r c.
Proof.
  intros [Hl Hrows] Hr Hc. destruct a as [|x a]; [simpl in Hl; lia|].
  inversion Hrows; subst. destruct r as [|r]; [reflexivity|].
  change (pix (fill_odds v (x :: a)) (S r) c) with (pix (fill_evens v a) r c).
  change (pix (x :: a) (S r) c) with (pix a r c).
  rewrite Nat.odd_succ.
  apply (@pix_fill_evens (length a) (length x)); auto.
  - split; auto.
  - simpl in Hr. lia.
Qed.

Lemma has_shape_fill_odds (nr nc : nat) (v : px) (a : frame) :
  has_shape nr nc a -> has_shape nr nc (fill_odds v a).
Proof.
  intros [Hl Hrows]. destruct a as [|x a]; [split; auto|].
  inversion Hrows; subst.
  destruct (@has_shape_fill_evens (length a) (length x) v a) as [Hl' Hr'];
    [split; auto|].
  split.
  - simpl. now rewrite Hl'.
  - constructor; auto.
Qed.

Lemma pix_broadcast_row (nr nc : nat) (f : px -> px -> px) (a : frame) (v : vec)
    (r c : nat) :
  has_shape nr nc a -> length v = nc -> r < nr -> c < nc ->
  pix (broadcast_row f a v) r c = f (pix a r c) (nth c v NaN).
Proof.
  intros H Hv Hr Hc. unfold pix, broadcast_row.
  rewrite (nth_indep _ [] ((fun row => zip_with f row v) []))
    by (rewrite length_map; destruct H; lia).
  rewrite (map_nth (fun row => zip_with f row v)).
  apply nth_zip_with; [now rewrite (row_length H Hr)|lia].
Qed.

(** ** Masked samples *)

Lemma is_real_pix (nr nc : nat) (a : frame) (r c : nat) :
  has_shape nr nc a -> is_real a -> r < nr -> c < nc -> exists v, pix a r c = num v.
Proof.
  intros H Hreal Hr Hc. unfold pix, is_real in *.
  rewrite Forall_forall in Hreal.
  assert (Hin : In (nth r a []) a) by (apply nth_In; destruct H; lia).
  specialize (Hreal _ Hin). rewrite Forall_forall in Hreal.
  assert (Hx : nth c (nth r a []) NaN <> NaN).
  { apply Hreal, nth_In. now rewrite (row_length H Hr). }
  destruct (nth c (nth r a []) NaN) as [v|]; [now exists v|now elim Hx].
Qed.

Lemma nth_eq_zero (mask : frame) (r c : nat) :
  nth c (nth r (eq_zero mask) []) false = is_zero (pix mask r c).
Proof.
  unfold eq_zero, pix.
  change (@nil bool) with (map is_zero []).
  rewrite (map_nth (map is_zero)).
  change false with (is_zero NaN). apply (map_nth is_zero).
Qed.

Lemma pix_nan_where_masked (nr nc : nat) (data mask : frame) (r c : nat) :
  has_shape nr nc data -> r < nr -> c < nc ->
  pix (nan_where_masked data mask) r c =
  if is_zero (pix mask r c) then NaN else pix data r c.
Proof.
  intros H Hr Hc. unfold nan_where_masked.
  rewrite (pix_assign_where _ _ H Hr Hc). now rewrite nth_eq_zero.
Qed.

Lemma has_shape_nan_where_masked (nr nc : nat) (data mask : frame) :
  has_shape nr nc data -> has_shape nr nc (nan_where_masked data mask).
Proof. intros H. now apply has_shape_assign_at. Qed.

Lemma drop_nan_app (l m : vec) : drop_nan (l ++ m) = drop_nan l ++ drop_nan m.
Proof.
  induction l as [|[x|] l IH]; simpl; auto. now rewrite IH.
Qed.

(** Blanking the masked-out pixels and ignoring NaN selects the masked
    sample. *)
Lemma drop_nan_masked (nr nc : nat) (data mask : frame) (rows cols : list nat) :
  has_shape nr nc data ->
  (forall r, In r rows -> r < nr) -> (forall c, In c cols -> c < nc) ->
  drop_nan
    (concat (map (fun r => map (fun c => pix (nan_where_masked data mask) r c) cols) rows))
  = drop_nan (masked_values data mask rows cols).
Proof.
  intros H Hrows Hcols. unfold masked_values.
  induction rows as [|r rows IH]; simpl; auto.
  rewrite !drop_nan_app, IH by (intros; apply Hrows; simpl; auto).
  f_equal.
  assert (Hr : r < nr) by (apply Hrows; simpl; auto).
  clear IH Hrows. induction cols as [|c cols IHc]; simpl; auto.
  rewrite drop_nan_app, <- IHc by (intros; apply Hcols; simpl; auto).
  rewrite (pix_nan_where_masked mask H Hr) by (apply Hcols; simpl; auto).
  destruct (is_zero (pix mask r c)); simpl; auto.
  destruct (pix data r c); reflexivity.
Qed.

Lemma concat_map_singleton (A B : Type) (f : A -> B) (l : list A) :
  concat (map (fun x => [f x]) l) = map f l.
Proof. induction l as [|x l IH]; simpl; congruence. Qed.

Lemma nanmedian_rows (nr nc : nat) (data mask : frame) (rows : list nat) :
  has_shape nr nc data -> (forall r, In r rows -> r < nr) ->
  nanmedian (flatten (map (fun r => nth r (nan_where_masked data mask) []) rows))
  = masked_median data mask rows (seq 0 nc).
Proof.
  intros H Hrows. unfold masked_median, nanmedian, flatten.
  rewrite <- (drop_nan_masked mask rows (seq 0 nc) H Hrows)
    by (intros c Hc; apply in_seq in Hc; lia).
  do 3 f_equal. apply map_ext_in. intros r Hr.
  apply (row_table (has_shape_nan_where_masked mask H)). auto.
Qed.

Lemma nanmedian_evens (nr nc : nat) (data mask : frame) :
  has_shape nr nc data ->
  nanmedian (flatten (evens (nan_where_masked data mask)))
  = masked_median data mask (even_rows nr) (seq 0 nc).
Proof.
  intros H. rewrite (evens_rows _ []).
  rewrite (proj1 (has_shape_nan_where_masked mask H)).
  apply (@nanmedian_rows nr nc data mask _ H).
  intros r Hr. now apply in_even_rows in Hr.
Qed.

Lemma nanmedian_odds (nr nc : nat) (data mask : frame) :
  has_shape nr nc data ->
  nanmedian (flatten (odds (nan_where_masked data mask)))
  = masked_median data mask (odd_rows nr) (seq 0 nc).
Proof.
  intros H. rewrite (odds_rows _ []).
  rewrite (proj1 (has_shape_nan_where_masked mask H)).
  apply (@nanmedian_rows nr nc data mask _ H).
  intros r Hr. now apply in_odd_rows in Hr.
Qed.

Lemma nanmedian_column (nr nc : nat) (data mask : frame) (c : nat) :
  has_shape nr nc data -> c < nc ->
  nanmedian (column c (nan_where_masked data mask))
  = masked_median data mask (seq 0 nr) [c].
Proof.
  intros H Hc. unfold masked_median, nanmedian.
  rewrite <- (drop_nan_masked mask (seq 0 nr) [c] H).
  - rewrite (column_table c (has_shape_nan_where_masked mask H)).
    simpl map. now rewrite concat_map_singleton.
  - intros r Hr. apply in_seq in Hr. lia.
  - intros c' [<-|[]]. exact Hc.
Qed.

Lemma length_nanmedian_axis0 (nc : nat) (a : frame) : length (nanmedian_axis0 nc a) = nc.
Proof. unfold nanmedian_axis0. now rewrite length_map, length_seq. Qed.

(** The model of [get_roeba], entry by entry. *)
Lemma get_roeba_pix (nr nc : nat) (data mask : frame) (r c : nat) :
  has_shape nr nc data -> r < nr -> c < nc ->
  pix (get_roeba data mask) r c =
  padd (if Nat.odd r
        then masked_median data mask (odd_rows nr) (seq 0 nc)
        else masked_median data mask (even_rows nr) (seq 0 nc))
       (masked_median data mask (seq 0 nr) [c]).
Proof.
  intros H Hr Hc. unfold get_roeba.
  assert (Hnr : nrows data = nr) by apply H.
  rewrite Hnr, (ncols_shape H) by lia.
  assert (H0 := has_shape_full nr nc zero).
  assert (H1 := has_shape_fill_evens
                  (nanmedian (flatten (evens (nan_where_masked data mask)))) H0).
  rewrite (@pix_broadcast_row nr nc); auto.
  - unfold nanmedian_axis0. rewrite nth_map_seq by auto.
    rewrite (nanmedian_column mask H Hc). f_equal.
    rewrite (pix_fill_odds _ H1 Hr Hc), (pix_fill_evens _ H0 Hr Hc).
    rewrite (nanmedian_odds mask H), (nanmedian_evens mask H).
    rewrite <- Nat.negb_odd. destruct (Nat.odd r); reflexivity.
  - now apply has_shape_fill_odds.
  - apply length_nanmedian_axis0.
Qed.

Lemma in_drop_nan (v : Qc) (l : vec) : In (num v) l -> In v (drop_nan l).
Proof.
  induction l as [|[x|] l IH]; simpl; auto.
  - intros [E|H]; [inversion E; auto|auto].
  - intros [E|H]; [discriminate|auto].
Qed.

Lemma medianQ_defined (l : list Qc) (v : Qc) : In v l -> exists q, medianQ l = num q.
Proof.
  destruct l as [|x l]; [intros []|]. intros _. unfold medianQ. eauto.
Qed.

Lemma masked_median_defined (nr nc : nat) (data mask : frame) (rows cols : list nat)
    (r c : nat) :
  has_shape nr nc data -> is_real data -> r < nr -> c < nc ->
  In r rows -> In c cols -> pix mask r c = one ->
  exists q, masked_median data mask rows cols = num q.
Proof.
  intros H Hreal Hr Hc Hir Hic Hone.
  destruct (is_real_pix H Hreal Hr Hc) as [v Hv].
  apply (@medianQ_defined _ v). apply in_drop_nan.
  unfold masked_values. apply in_flat_map. exists r. split; auto.
  apply in_flat_map. exists c. split; auto.
  rewrite Hone, Hv. simpl. auto.
Qed.

(** C2: on a real-valued frame and a congruent mask with a 1-entry on the
    odd rows, on the even rows and in every column, the model of
    [get_roeba] at (r, c) is the median of the masked pixels of the odd
    rows when r is odd, of the even rows when r is even, plus the median of
    the masked pixels of column c over all rows; two rows of the same
    parity of the model are equal, so that an odd and an even row differ by
    nothing but the level of their parity, added to one and the same
    vector of column medians. *)
Theorem get_roeba_parity_plus_column (nr nc : nat) (data mask : frame) :
  has_shape nr nc data -> has_shape nr nc mask -> is_mask mask -> is_real data ->
  (exists r c, r < nr /\ c < nc /\ Nat.odd r = true /\ pix mask r c = one) ->
  (exists r c, r < nr /\ c < nc /\ Nat.even r = true /\ pix mask r c = one) ->
  (forall c, c < nc -> exists r, r < nr /\ pix mask r c = one) ->
  exists (O E : Qc) (col : list Qc),
    masked_median data mask (odd_rows nr) (seq 0 nc) = num O /\
    masked_median data mask (even_rows nr) (seq 0 nc) = num E /\
    length col = nc /\
    (forall c, c < nc ->
       masked_median data mask (seq 0 nr) [c] = num (nth c col 0%Qc)) /\
    (forall r c, r < nr -> c < nc ->
       pix (get_roeba data mask) r c =
       num ((if Nat.odd r then O else E) + nth c col 0%Qc)%Qc) /\
    (forall r1 r2 c, r1 < nr -> r2 < nr -> c < nc ->
       Nat.odd r1 = Nat.odd r2 ->
       pix (get_roeba data mask) r1 c = pix (get_roeba data mask) r2 c).
Proof.
  intros H Hm _ Hreal (ro & co & Hro & Hco & Hodd & Hone_o)
    (re & ce & Hre & Hce & Heven & Hone_e) Hcols.
  destruct (@masked_median_defined nr nc data mask (odd_rows nr) (seq 0 nc) ro co)
    as [O HO]; auto; [now apply in_odd_rows|apply in_seq; lia|].
  destruct (@masked_median_defined nr nc data mask (even_rows nr) (seq 0 nc) re ce)
    as [E HE]; auto; [now apply in_even_rows|apply in_seq; lia|].
  set (colmed := fun c => match masked_median data mask (seq 0 nr) [c] with
                          | Some q => q
                          | None => 0%Qc
                          end).
  assert (Hcol : forall c, c < nc ->
            masked_median data mask (seq 0 nr) [c] = num (colmed c)).
  { intros c Hc. destruct (Hcols c Hc) as (r & Hr & Hone).
    destruct (@masked_median_defined nr nc data mask (seq 0 nr) [c] r c)
      as [q Hq]; auto; [apply in_seq; lia|simpl; auto|].
    unfold colmed. now rewrite Hq. }
  assert (Hpix : forall r c, r < nr -> c < nc ->
            pix (get_roeba data mask) r c =
            num ((if Nat.odd r then O else E) + colmed c)%Qc).
  { intros r c Hr Hc. rewrite (get_roeba_pix mask H Hr Hc), HO, HE, (Hcol c Hc).
    destruct (Nat.odd r); reflexivity. }
  exists O, E, (map colmed (seq 0 nc)).
  split; [exact HO|]. split; [exact HE|].
  split; [now rewrite length_map, length_seq|].
  split; [intros c Hc; rewrite nth_map_seq by auto; auto|].
  split; [intros r c Hr Hc; rewrite nth_map_seq by auto; auto|].
  intros r1 r2 c Hr1 Hr2 Hc Hparity.
  now rewrite (Hpix r1 c Hr1 Hc), (Hpix r2 c Hr2 Hc), Hparity.
Qed.

(** ** Decision procedures for concrete arrays *)

Lemma px_eqb_eq (a b : px) : px_eqb a b = true -> a = b.
Proof.
  destruct a as [x|], b as [y|]; simpl; try discriminate; auto.
  intros H. f_equal. now apply Qc_eq_bool_correct.
Qed.

Lemma list_eqb_eq (A : Type) (eqb : A -> A -> bool) :
  (forall x y, eqb x y = true -> x = y) ->
  forall l m, list_eqb eqb l m = true -> l = m.
Proof.
  intros Heq. induction l as [|x l IH]; intros [|y m]; simpl; try discriminate; auto.
  intros H. apply andb_prop in H. destruct H as [Hx Hl].
  f_equal; auto.
Qed.

Lemma vec_eqb_eq (l m : vec) : vec_eqb l m = true -> l = m.
Proof. apply list_eqb_eq, px_eqb_eq. Qed.

Lemma frame_eqb_eq (a b : frame) : frame_eqb a b = true -> a = b.
Proof. apply list_eqb_eq, vec_eqb_eq. Qed.

Lemma cube_eqb_eq (a b : list frame) : cube_eqb a b = true -> a = b.
Proof. apply list_eqb_eq, frame_eqb_eq. Qed.

Lemma has_shapeb_ok (nr nc : nat) (a : frame) :
  has_shapeb nr nc a = true -> has_shape nr nc a.
Proof.
  unfold has_shapeb. intros H. apply andb_prop in H. destruct H as [Hl Hr].
  split.
  - now apply Nat.eqb_eq.
  - apply Forall_forall. intros r Hin.
    rewrite forallb_forall in Hr. now apply Nat.eqb_eq, Hr.
Qed.

Lemma is_realb_ok (a : frame) : is_realb a = true -> is_real a.
Proof.
  unfold is_realb, is_real. intros H. rewrite forallb_forall in H.
  apply Forall_forall. intros r Hr. specialize (H r Hr).
  rewrite forallb_forall in H. apply Forall_forall. intros x Hx.
  specialize (H x Hx). destruct x; [discriminate|discriminate].
Qed.

Lemma is_maskb_ok (m : frame) : is_maskb m = true -> is_mask m.
Proof.
  unfold is_maskb, is_mask. intros H. rewrite forallb_forall in H.
  apply Forall_forall. intros r Hr. specialize (H r Hr).
  rewrite forallb_forall in H. apply Forall_forall. intros x Hx.
  specialize (H x Hx). apply orb_prop in H.
  destruct H as [H|H]; apply px_eqb_eq in H; auto.
Qed.

(** ** The synthetic scenario for ROEBA *)

(** C9: on the synthetic frame under the all-ones mask [get_roeba] does
    not give back the injected pattern.  The per-column medians of line 94
    are taken from the same data as the two row levels of lines 90-91, not
    from the data with the row levels taken off, so each holds a row level
    a second time: the level of the odd rows is 15/2 and not 5, the level
    of the even rows 9/2 and not 2, the median of column c is c + 7/2 and
    not c, and the model is the injected pattern plus 6 at every pixel, so
    that the frame minus the model is -6 everywhere. *)
Theorem get_roeba_synthetic_not_recovered :
  get_roeba synthetic all_ones = broadcast_scalar padd synthetic (zpx 6) /\
  map2 psub synthetic (get_roeba synthetic all_ones) = full 10 6 (zpx (-6)) /\
  get_roeba synthetic all_ones <> synthetic /\
  (masked_median synthetic all_ones (odd_rows 10) (seq 0 6) = num (Q2Qc (15 # 2)) /\
   masked_median synthetic all_ones (odd_rows 10) (seq 0 6) <> zpx 5) /\
  (masked_median synthetic all_ones (even_rows 10) (seq 0 6) = num (Q2Qc (9 # 2)) /\
   masked_median synthetic all_ones (even_rows 10) (seq 0 6) <> zpx 2) /\
  (map (fun c => masked_median synthetic all_ones (seq 0 10) [c]) (seq 0 6) =
   map (fun c => num (Q2Qc (inject_Z (Z.of_nat c) + (7 # 2)))) (seq 0 6) /\
   masked_median synthetic all_ones (seq 0 10) [0] <> zpx 0) /\
  get_roeba synthetic all_ones =
  map (fun r =>
         map (fun c =>
                padd (masked_median synthetic all_ones
                        (if Nat.odd r then odd_rows 10 else even_rows 10) (seq 0 6))
                  (masked_median synthetic all_ones (seq 0 10) [c]))
           (seq 0 6))
    (seq 0 10).
Proof.
  split; [apply frame_eqb_eq; vm_compute; reflexivity|].
  split; [apply frame_eqb_eq; vm_compute; reflexivity|].
  split.
  { intros H.
    assert (E : px_eqb (pix (get_roeba synthetic all_ones) 0 0) (pix synthetic 0 0)
                = true) by (rewrite H; reflexivity).
    vm_compute in E. discriminate. }
  split.
  { split; [apply px_eqb_eq; vm_compute; reflexivity|]. intros H.
    assert (E : px_eqb (masked_median synthetic all_ones (odd_rows 10) (seq 0 6))
                  (zpx 5) = true) by (rewrite H; reflexivity).
    vm_compute in E. discriminate. }
  split.
  { split; [apply px_eqb_eq; vm_compute; reflexivity|]. intros H.
    assert (E : px_eqb (masked_median synthetic all_ones (even_rows 10) (seq 0 6))
                  (zpx 2) = true) by (rewrite H; reflexivity).
    vm_compute in E. discriminate. }
  split.
  { split; [apply vec_eqb_eq; vm_compute; reflexivity|]. intros H.
    assert (E : px_eqb (masked_median synthetic all_ones (seq 0 10) [0])
                  (zpx 0) = true) by (rewrite H; reflexivity).
    vm_compute in E. discriminate. }
  apply frame_eqb_eq. vm_compute. reflexivity.
Qed.

(** ** Loops *)

Lemma for_each_ok (A S : Type) (body : S -> A -> result S) (step : S -> A -> S)
    (l : list A) (s : S) :
  (forall s' x, In x l -> body s' x = Ok (step s' x)) ->
  for_each body l s = Ok (fold_left step l s).
Proof.
  revert s. induction l as [|x l IH]; intros s H; simpl; auto.
  rewrite (H s x) by (simpl; auto). simpl. apply IH.
  intros; apply H; simpl; auto.
Qed.

(** A loop that stores [g i] at position [i] for [i = a, ..., a + k - 1]. *)
Lemma nth_fold_set_nth (A : Type) (g : nat -> A) (d : A) (k a : nat) (l : list A)
    (j : nat) :
  a + k <= length l ->
  nth j (fold_left (fun m i => set_nth i (g i) m) (seq a k) l) d =
  if (a <=? j) && (j <? a + k) then g j else nth j l d.
Proof.
  revert a l. induction k as [|k IH]; intros a l Hl; cbn [seq fold_left].
  - destruct (Nat.leb_spec a j), (Nat.ltb_spec j (a + 0)); simpl; auto. lia.
  - rewrite IH by (rewrite length_set_nth; lia).
    destruct (Nat.eq_dec j a) as [->|Hne].
    + destruct (Nat.leb_spec (S a) a), (Nat.leb_spec a a),
        (Nat.ltb_spec a (a + S k)); simpl; try lia.
      apply nth_set_nth_eq. lia.
    + rewrite nth_set_nth_neq by auto.
      destruct (Nat.leb_spec (S a) j), (Nat.leb_spec a j),
        (Nat.ltb_spec j (S a + k)), (Nat.ltb_spec j (a + S k));
        simpl; auto; lia.
Qed.

Lemma length_fold_set_nth (A : Type) (g : nat -> A) (idx : list nat) (l : list A) :
  length (fold_left (fun m i => set_nth i (g i) m) idx l) = length l.
Proof.
  revert l. induction idx as [|i idx IH]; intros l; simpl; auto.
  now rewrite IH, length_set_nth.
Qed.

Lemma fold_set_nth_table (A : Type) (g : nat -> A) (l : list A) :
  fold_left (fun m i => set_nth i (g i) m) (seq 0 (length l)) l =
  map g (seq 0 (length l)).
Proof.
  destruct l as [|x l'] eqn:El; [reflexivity|]. rewrite <- El.
  apply (nth_ext _ _ x x).
  - now rewrite length_fold_set_nth, length_map, length_seq.
  - intros j Hj. rewrite length_fold_set_nth in Hj.
    rewrite nth_fold_set_nth by lia. rewrite nth_map_seq by auto.
    replace (0 <=? j) with true by (symmetry; apply Nat.leb_le; lia).
    replace (j <? 0 + length l) with true by (symmetry; apply Nat.ltb_lt; lia).
    reflexivity.
Qed.

(** ** The slope estimate ([get_last_minus_first]) *)

Lemma get_last_minus_first_ok (data : ramp) (mn mx : Z) (kmin kmax : nat) :
  py_index (ngroups_of data) mx = Ok kmax ->
  py_index (ngroups_of data) mn = Ok kmin ->
  get_last_minus_first data (Some mn) (Some mx) =
  Ok (map (slope data kmin kmax) (seq 0 (length data)),
      nanmedian_cube (nrows (frame0_of data)) (ncols (frame0_of data))
        (map (slope data kmin kmax) (seq 0 (length data)))).
Proof.
  intros Hmx Hmn. unfold get_last_minus_first.
  rewrite (for_each_ok _ (fun lmf i => set_nth i (slope data kmin kmax i) lmf)).
  - simpl.
    set (init := repeat _ (length data)).
    assert (Hl : length init = length data) by apply repeat_length.
    rewrite <- Hl, fold_set_nth_table. reflexivity.
  - intros lmf i _. unfold group_at. rewrite Hmx, Hmn. reflexivity.
Qed.

Lemma get_last_minus_first_raise (data : ramp) (mn mx : Z) :
  0 < length data ->
  py_index (ngroups_of data) mx = Raise IndexError \/
  py_index (ngroups_of data) mn = Raise IndexError ->
  get_last_minus_first data (Some mn) (Some mx) = Raise IndexError.
Proof.
  intros Hlen H. unfold get_last_minus_first.
  destruct (length data) as [|n] eqn:El; [lia|].
  simpl. unfold group_at.
  destruct (py_index (ngroups_of data) mx) as [kmax|[]] eqn:Emx; simpl; auto.
  destruct H as [H|H]; [discriminate|]. now rewrite H.
Qed.

Lemma py_index_nat (n k : nat) : k < n -> py_index n (Z.of_nat k) = Ok k.
Proof.
  intros H. unfold py_index.
  replace ((0 <=? Z.of_nat k) && (Z.of_nat k <? Z.of_nat n))%Z with true.
  - now rewrite Nat2Z.id.
  - symmetry. apply andb_true_intro. split; [apply Z.leb_le|apply Z.ltb_lt]; lia.
Qed.

Lemma ramp_shape_frame (ni ng nr nc : nat) (data : ramp) (i g : nat) :
  ramp_shape ni ng nr nc data -> i < ni -> g < ng ->
  has_shape nr nc (frame_at data i g).
Proof.
  intros [Hl Hf] Hi Hg. unfold frame_at. rewrite Forall_forall in Hf.
  destruct (Hf (nth i data [])) as [Hlg Hfr]; [apply nth_In; lia|].
  rewrite Forall_forall in Hfr. apply Hfr, nth_In. lia.
Qed.

Lemma ramp_shape_ngroups (ni ng nr nc : nat) (data : ramp) :
  ramp_shape ni ng nr nc data -> 0 < ni -> ngroups_of data = ng.
Proof.
  intros [Hl Hf] Hi. destruct data as [|integ data]; simpl in *; [lia|].
  inversion Hf; subst. tauto.
Qed.

Lemma ramp_shape_frame0 (ni ng nr nc : nat) (data : ramp) :
  ramp_shape ni ng nr nc data -> 0 < ni -> 0 < ng ->
  has_shape nr nc (frame0_of data).
Proof.
  intros H Hi Hg.
  replace (frame0_of data) with (frame_at data 0 0).
  - apply (ramp_shape_frame H); auto.
  - unfold frame_at, frame0_of. destruct data as [|[|f integ] data]; reflexivity.
Qed.

Lemma pix_broadcast_scalar (nr nc : nat) (f : px -> px -> px) (a : frame) (s : px)
    (r c : nat) :
  has_shape nr nc a -> r < nr -> c < nc ->
  pix (broadcast_scalar f a s) r c = f (pix a r c) s.
Proof.
  intros H Hr Hc. unfold pix, broadcast_scalar.
  rewrite (nth_indep _ [] (map (fun x => f x s) []))
    by (rewrite length_map; destruct H; lia).
  rewrite (map_nth (map (fun x => f x s))).
  rewrite (nth_indep _ NaN ((fun x => f x s) NaN))
    by (rewrite length_map, (row_length H Hr); lia).
  now rewrite (map_nth (fun x => f x s)).
Qed.

Lemma has_shape_broadcast_scalar (nr nc : nat) (f : px -> px -> px) (a : frame) (s : px) :
  has_shape nr nc a -> has_shape nr nc (broadcast_scalar f a s).
Proof.
  intros [Hl Hr]. unfold broadcast_scalar. split.
  - now rewrite length_map.
  - apply Forall_forall. intros row Hin. apply in_map_iff in Hin.
    destruct Hin as (row' & <- & Hin'). rewrite length_map.
    rewrite Forall_forall in Hr. auto.
Qed.

Lemma pix_slope (ni ng nr nc : nat) (data : ramp) (kmin kmax i r c : nat) :
  ramp_shape ni ng nr nc data -> i < ni -> kmin < ng -> kmax < ng -> r < nr -> c < nc ->
  pix (slope data kmin kmax i) r c =
  psub (psub (pix (frame_at data i kmax) r c) (nanmedian (flatten (frame_at data i kmax))))
       (psub (pix (frame_at data i kmin) r c) (nanmedian (flatten (frame_at data i kmin)))).
Proof.
  intros H Hi Hmin Hmax Hr Hc. unfold slope, minus_nanmedian.
  assert (Hfmax := ramp_shape_frame H Hi Hmax).
  assert (Hfmin := ramp_shape_frame H Hi Hmin).
  rewrite (@pix_map2 nr nc); auto using has_shape_broadcast_scalar.
  now rewrite !(@pix_broadcast_scalar nr nc).
Qed.

Lemma pix_nanmedian_cube (nr nc : nat) (cube : list frame) (r c : nat) :
  r < nr -> c < nc ->
  pix (nanmedian_cube nr nc cube) r c = nanmedian (map (fun f => pix f r c) cube).
Proof.
  intros Hr Hc. unfold pix at 1, nanmedian_cube.
  rewrite (nth_map_seq _ _ Hr). now rewrite nth_map_seq.
Qed.

Lemma nanmedian_flatten_defined (nr nc : nat) (f : frame) (r c : nat) :
  has_shape nr nc f -> is_real f -> r < nr -> c < nc ->
  exists m, nanmedian (flatten f) = num m.
Proof.
  intros H Hreal Hr Hc.
  destruct (is_real_pix H Hreal Hr Hc) as [v Hv].
  apply (@medianQ_defined _ v), in_drop_nan.
  unfold flatten. apply in_concat. exists (nth r f []). split.
  - apply nth_In. destruct H; lia.
  - rewrite <- Hv. apply nth_In. now rewrite (row_length H Hr).
Qed.

Lemma is_real_frame_at (ni ng nr nc : nat) (data : ramp) (i g : nat) :
  ramp_shape ni ng nr nc data -> is_real_ramp data -> i < ni -> g < ng ->
  is_real (frame_at data i g).
Proof.
  intros [Hl Hf] Hreal Hi Hg. unfold frame_at, is_real_ramp in *.
  rewrite Forall_forall in Hreal, Hf.
  assert (Hin : In (nth i data []) data) by (apply nth_In; lia).
  specialize (Hreal _ Hin). destruct (Hf _ Hin) as [Hlg _].
  rewrite Forall_forall in Hreal. apply Hreal, nth_In. lia.
Qed.

Lemma psub_self (a : px) (v : Qc) : a = num v -> psub a a = zero.
Proof. intros ->. unfold psub, zero, num. simpl. f_equal. ring. Qed.

Lemma pix_nil (r c : nat) : pix [] r c = NaN.
Proof. unfold pix. destruct r, c; reflexivity. Qed.

Lemma get_last_minus_first_defaults (data : ramp) (mn mx : option Z) :
  get_last_minus_first data mn mx =
  get_last_minus_first data
    (Some (match mn with Some g => g | None => 0%Z end))
    (Some (match mx with Some g => g | None => (Z.of_nat (ngroups_of data) - 1)%Z end)).
Proof. destruct mn, mx; reflexivity. Qed.

(** The call with optional indices, on the positions they stand for. *)
Lemma get_last_minus_first_options (ni ng nr nc : nat) (data : ramp)
    (min_group max_group : option nat) :
  ramp_shape ni ng nr nc data -> last_group_of ng max_group < ng ->
  get_last_minus_first data (option_map Z.of_nat min_group)
    (option_map Z.of_nat max_group) =
  get_last_minus_first data (Some (Z.of_nat (first_group_of min_group)))
    (Some (Z.of_nat (last_group_of ng max_group))).
Proof.
  intros H Hmx. assert (Hni : length data = ni) by apply H.
  destruct (Nat.eq_dec ni 0) as [Hz|Hpos].
  - rewrite Hz in Hni. apply length_zero_iff_nil in Hni. subst data.
    destruct min_group, max_group; reflexivity.
  - assert (Hng : ngroups_of data = ng) by (apply (ramp_shape_ngroups H); lia).
    rewrite get_last_minus_first_defaults, Hng.
    destruct min_group as [mn|], max_group as [mx|]; cbn [option_map first_group_of
      last_group_of] in *; try reflexivity;
      replace (Z.of_nat ng - 1)%Z with (Z.of_nat (ng - 1)) by lia; reflexivity.
Qed.

(** The slopes between two positions of the group axis. *)
Lemma get_last_minus_first_positions (ni ng nr nc : nat) (data : ramp) (mn mx : nat) :
  ramp_shape ni ng nr nc data -> mn < ng -> mx < ng ->
  exists lmf median_lmf,
    get_last_minus_first data (Some (Z.of_nat mn)) (Some (Z.of_nat mx))
    = Ok (lmf, median_lmf) /\
    length lmf = ni /\
    (forall i r c, i < ni -> r < nr -> c < nc ->
       pix (nth i lmf []) r c =
       psub (psub (pix (frame_at data i mx) r c)
                  (nanmedian (flatten (frame_at data i mx))))
            (psub (pix (frame_at data i mn) r c)
                  (nanmedian (flatten (frame_at data i mn))))) /\
    (forall r c, r < nr -> c < nc ->
       pix median_lmf r c = nanmedian (map (fun f => pix f r c) lmf)) /\
    (mn = mx -> is_real_ramp data ->
     forall i r c, i < ni -> r < nr -> c < nc -> pix (nth i lmf []) r c = zero).
Proof.
  intros H Hmn Hmx.
  assert (Hni : length data = ni) by apply H.
  destruct (Nat.eq_dec ni 0) as [Hz|Hpos].
  - rewrite Hz in Hni. apply length_zero_iff_nil in Hni. subst data ni.
    exists [], []. split; [reflexivity|]. split; [reflexivity|].
    split; [intros; lia|]. split; [|intros; lia].
    intros r c _ _. apply pix_nil.
  - assert (Hng : ngroups_of data = ng) by (apply (ramp_shape_ngroups H); lia).
    assert (Hok := @get_last_minus_first_ok data (Z.of_nat mn) (Z.of_nat mx) mn mx).
    rewrite Hng in Hok.
    specialize (Hok (py_index_nat Hmx) (py_index_nat Hmn)).
    rewrite Hni in Hok.
    assert (Hslope : forall i, i < ni ->
              nth i (map (slope data mn mx) (seq 0 ni)) [] = slope data mn mx i).
    { intros i Hi. now apply nth_map_seq. }
    eexists _, _. split; [exact Hok|].
    split; [now rewrite length_map, length_seq|].
    split; [|split].
    + intros i r c Hi Hr Hc. rewrite (Hslope i Hi).
      apply (pix_slope H); auto; lia.
    + intros r c Hr Hc.
      assert (Hni0 : 0 < ni) by lia. assert (Hng0 : 0 < ng) by lia.
      assert (H0 := ramp_shape_frame0 H Hni0 Hng0).
      rewrite (ncols_shape H0) by lia.
      replace (nrows (frame0_of data)) with nr by (symmetry; apply H0).
      now apply pix_nanmedian_cube.
    + intros Heq Hreal i r c Hi Hr Hc. rewrite (Hslope i Hi).
      rewrite (pix_slope H) by (auto; lia). subst mn.
      assert (Hf := ramp_shape_frame H Hi Hmx).
      assert (Hrf := is_real_frame_at H Hreal Hi Hmx).
      destruct (is_real_pix Hf Hrf Hr Hc) as [v Hv].
      destruct (nanmedian_flatten_defined Hf Hrf Hr Hc) as [m Hm].
      rewrite Hv, Hm. now apply (@psub_self _ (v - m)%Qc).
Qed.

(** C4: with each index given or omitted on its own (an omitted
    [min_group] stands for 0, an omitted [max_group] for ngroups - 1), and
    the first group not after the last one inside the group axis, the
    slope of integration i is (ramp[i, last] - median(ramp[i, last])) -
    (ramp[i, first] - median(ramp[i, first])), each median taken over all
    pixels of that group of that integration; the second output is the
    pixel-wise median of the slopes across integrations; and on a
    real-valued ramp every call whose two indices stand for the same group
    returns slopes that are zero at every pixel. *)
Theorem get_last_minus_first_slope (ni ng nr nc : nat) (data : ramp)
    (min_group max_group : option nat) :
  ramp_shape ni ng nr nc data ->
  first_group_of min_group <= last_group_of ng max_group ->
  last_group_of ng max_group < ng ->
  exists lmf median_lmf,
    get_last_minus_first data (option_map Z.of_nat min_group)
      (option_map Z.of_nat max_group)
    = Ok (lmf, median_lmf) /\
    length lmf = ni /\
    (forall i r c, i < ni -> r < nr -> c < nc ->
       pix (nth i lmf []) r c =
       psub (psub (pix (frame_at data i (last_group_of ng max_group)) r c)
                  (nanmedian (flatten (frame_at data i (last_group_of ng max_group)))))
            (psub (pix (frame_at data i (first_group_of min_group)) r c)
                  (nanmedian (flatten (frame_at data i (first_group_of min_group)))))) /\
    (forall r c, r < nr -> c < nc ->
       pix median_lmf r c = nanmedian (map (fun f => pix f r c) lmf)) /\
    (is_real_ramp data ->
     forall same_min same_max : option nat,
       first_group_of same_min = last_group_of ng same_max ->
       last_group_of ng same_max < ng ->
       exists zeros median_zeros,
         get_last_minus_first data (option_map Z.of_nat same_min)
           (option_map Z.of_nat same_max)
         = Ok (zeros, median_zeros) /\
         length zeros = ni /\
         forall i r c, i < ni -> r < nr -> c < nc -> pix (nth i zeros []) r c = zero).
Proof.
  intros H Hle Hmx.
  destruct (@get_last_minus_first_positions ni ng nr nc data (first_group_of min_group)
              (last_group_of ng max_group) H)
    as (lmf & median_lmf & Hrun & Hlen & Hslope & Hmedian & _); [lia|exact Hmx|].
  exists lmf, median_lmf.
  split; [now rewrite (get_last_minus_first_options _ _ H Hmx)|].
  split; [exact Hlen|]. split; [exact Hslope|]. split; [exact Hmedian|].
  intros Hreal same_min same_max Hsame Hin.
  destruct (@get_last_minus_first_positions ni ng nr nc data (first_group_of same_min)
              (last_group_of ng same_max) H)
    as (zeros & median_zeros & Hrun0 & Hlen0 & _ & _ & Hzero); [lia|exact Hin|].
  exists zeros, median_zeros.
  split; [now rewrite (get_last_minus_first_options _ _ H Hin)|].
  split; [exact Hlen0|]. now apply Hzero.
Qed.

(** ** Group indices *)

Lemma py_index_in_axis (n : nat) (g : Z) :
  in_axis n g -> py_index n g = Ok (position n g).
Proof.
  unfold in_axis, py_index, position. intros [Hlo Hhi].
  destruct (Z.ltb_spec g 0) as [Hneg|Hpos].
  - replace (0 <=? g)%Z with false by (symmetry; apply Z.leb_gt; lia).
    replace (- Z.of_nat n <=? g)%Z with true by (symmetry; apply Z.leb_le; lia).
    reflexivity.
  - replace (0 <=? g)%Z with true by (symmetry; apply Z.leb_le; lia).
    replace (g <? Z.of_nat n)%Z with true by (symmetry; apply Z.ltb_lt; lia).
    reflexivity.
Qed.

Lemma py_index_out_of_axis (n : nat) (g : Z) :
  ~ in_axis n g -> py_index n g = Raise IndexError.
Proof.
  unfold in_axis, py_index. intros H.
  destruct (Z.leb_spec 0 g), (Z.ltb_spec g (Z.of_nat n)),
    (Z.leb_spec (- Z.of_nat n) g), (Z.ltb_spec g 0); simpl; auto; lia.
Qed.

Lemma in_axis_dec (n : nat) (g : Z) : {in_axis n g} + {~ in_axis n g}.
Proof.
  unfold in_axis.
  destruct (Z_le_dec (- Z.of_nat n) g), (Z_lt_dec g (Z.of_nat n)); auto; right; lia.
Qed.

Lemma lmf_eqb_eq (x y : result (list frame * frame)) : lmf_eqb x y = true -> x = y.
Proof.
  destruct x as [[l m]|[]], y as [[l' m']|[]]; simpl; try discriminate; auto.
  intros H. apply andb_prop in H. destruct H as [Hl Hm].
  apply cube_eqb_eq in Hl. apply frame_eqb_eq in Hm. now subst.
Qed.

(** C7, as stated, fails: with [min_group = 1 > max_group = 0] the call
    raises nothing and returns a slope. *)
Lemma get_last_minus_first_reversed_returns :
  (0 < 1)%Z /\
  get_last_minus_first two_groups (Some 1%Z) (Some 0%Z)
  = Ok ([zframe [[1; 0; -3]]], zframe [[1; 0; -3]])%Z /\
  forall e, get_last_minus_first two_groups (Some 1%Z) (Some 0%Z) <> Raise e.
Proof.
  assert (E : get_last_minus_first two_groups (Some 1%Z) (Some 0%Z)
              = Ok ([zframe [[1; 0; -3]]], zframe [[1; 0; -3]])%Z)
    by (apply lmf_eqb_eq; vm_compute; reflexivity).
  split; [lia|]. split; [exact E|].
  intros e. rewrite E. discriminate.
Qed.

(** C7, amended: [get_last_minus_first] does not compare the two indices.
    On a ramp with at least one integration it returns the slopes between
    the two groups the indices denote whenever both lie in
    [-ngroups, ngroups - 1] (negative ones counted from the end), in
    whichever order they come, and raises [IndexError] exactly when one of
    them lies outside that range. *)
Theorem get_last_minus_first_index_errors (ni ng nr nc : nat) (data : ramp) :
  ramp_shape ni ng nr nc data -> 0 < ni ->
  (forall mn mx, in_axis ng mn -> in_axis ng mx ->
     exists median_lmf,
       get_last_minus_first data (Some mn) (Some mx)
       = Ok (map (slope data (position ng mn) (position ng mx)) (seq 0 ni),
             median_lmf)) /\
  (forall mn mx, ~ (in_axis ng mn /\ in_axis ng mx) ->
     get_last_minus_first data (Some mn) (Some mx) = Raise IndexError).
Proof.
  intros H Hpos. assert (Hni : length data = ni) by apply H.
  assert (Hng : ngroups_of data = ng) by now apply (ramp_shape_ngroups H).
  split.
  - intros mn mx Hmn Hmx. eexists. rewrite <- Hni.
    apply get_last_minus_first_ok; rewrite Hng; now apply py_index_in_axis.
  - intros mn mx Hout.
    apply get_last_minus_first_raise; [lia|]. rewrite Hng.
    destruct (in_axis_dec ng mx) as [Hmx|Hmx].
    + right. apply py_index_out_of_axis. tauto.
    + left. now apply py_index_out_of_axis.
Qed.

(** ** Sums *)

Lemma padd_zero_l (a : px) : padd zero a = a.
Proof. destruct a as [x|]; simpl; auto. unfold padd, zero, num; simpl. f_equal. ring. Qed.

Lemma padd_zero_r (a : px) : padd a zero = a.
Proof. destruct a as [x|]; simpl; auto. unfold padd, zero, num; simpl. f_equal. ring. Qed.

Lemma padd_assoc (a b c : px) : padd (padd a b) c = padd a (padd b c).
Proof.
  destruct a as [x|], b as [y|], c as [z|]; simpl; auto.
  unfold padd; simpl. f_equal. ring.
Qed.

Lemma fold_padd (l : vec) (a : px) : fold_left padd l a = padd a (psum l).
Proof.
  unfold psum. revert a. induction l as [|x l IH]; intros a; cbn [fold_left].
  - now rewrite padd_zero_r.
  - rewrite (IH (padd a x)), (IH (padd zero x)), padd_zero_l. apply padd_assoc.
Qed.

Lemma psum_cons (x : px) (l : vec) : psum (x :: l) = padd x (psum l).
Proof. unfold psum at 1. cbn [fold_left]. now rewrite fold_padd, padd_zero_l. Qed.

Lemma psum_nil : psum [] = zero.
Proof. reflexivity. Qed.

Lemma psum_app (l m : vec) : psum (l ++ m) = padd (psum l) (psum m).
Proof.
  induction l as [|x l IH]; cbn [app].
  - now rewrite psum_nil, padd_zero_l.
  - now rewrite !psum_cons, IH, padd_assoc.
Qed.

Lemma psum_concat (ls : list vec) : psum (concat ls) = psum (map psum ls).
Proof.
  induction ls as [|l ls IH]; cbn [concat map]; auto.
  now rewrite psum_app, psum_cons, IH.
Qed.

Lemma of_nat_0 : of_nat 0 = zero.
Proof. reflexivity. Qed.

Lemma of_nat_add (a b : nat) : padd (of_nat a) (of_nat b) = of_nat (a + b).
Proof.
  unfold padd, of_nat, num. simpl. f_equal. apply Qc_is_canon.
  qc2q. rewrite Nat2Z.inj_add, inject_Z_plus. reflexivity.
Qed.

Lemma of_nat_1 : of_nat 1 = one.
Proof. reflexivity. Qed.

Lemma is_zero_zero : is_zero zero = true.
Proof. reflexivity. Qed.

Lemma is_zero_one : is_zero one = false.
Proof. reflexivity. Qed.

Lemma is_one_zero : is_one zero = false.
Proof. reflexivity. Qed.

Lemma is_one_one : is_one one = true.
Proof. reflexivity. Qed.

Lemma psum_count_ones (v : vec) :
  Forall (fun x => x = zero \/ x = one) v -> psum v = of_nat (count_ones v).
Proof.
  induction 1 as [|x v Hx Hv IH]; [reflexivity|].
  rewrite psum_cons, IH. unfold count_ones. cbn [filter].
  destruct Hx as [-> | ->].
  - rewrite is_one_zero. apply padd_zero_l.
  - rewrite is_one_one. cbn [length].
    rewrite <- of_nat_1. apply (of_nat_add 1).
Qed.

Lemma psum_of_nat (l : list nat) : psum (map of_nat l) = of_nat (list_sum l).
Proof.
  induction l as [|n l IH]; [reflexivity|].
  cbn [map list_sum fold_right]. now rewrite psum_cons, IH, of_nat_add.
Qed.

Lemma psum_masked_count (mask : frame) (rows cols : list nat) :
  (forall r c, In r rows -> In c cols -> pix mask r c = zero \/ pix mask r c = one) ->
  psum (concat (map (fun r => map (fun c => pix mask r c) cols) rows))
  = of_nat (masked_count mask rows cols).
Proof.
  intros H. rewrite psum_concat, map_map. unfold masked_count.
  rewrite <- psum_of_nat, map_map. f_equal.
  apply map_ext_in. intros r Hr. apply psum_count_ones.
  apply Forall_forall. intros x Hx. apply in_map_iff in Hx.
  destruct Hx as (c & <- & Hc). auto.
Qed.

Lemma Qcsum_app (l m : list Qc) : Qcsum (l ++ m) = (Qcsum l + Qcsum m)%Qc.
Proof.
  unfold Qcsum. induction l as [|x l IH]; simpl.
  - ring.
  - rewrite IH. ring.
Qed.

Lemma psum_masked_sum (data mask : frame) (rows cols : list nat) :
  (forall r c, In r rows -> In c cols ->
     (pix mask r c = zero \/ pix mask r c = one) /\ exists v, pix data r c = num v) ->
  psum (concat (map (fun r => map (fun c => pmul (pix mask r c) (pix data r c)) cols) rows))
  = num (masked_sum data mask rows cols).
Proof.
  intros H. unfold masked_sum, masked_values.
  induction rows as [|r rows IH]; [reflexivity|].
  cbn [map concat flat_map]. rewrite psum_app, drop_nan_app, Qcsum_app.
  rewrite IH by (intros; apply H; simpl; auto).
  assert (Hr : forall c, In c cols ->
            (pix mask r c = zero \/ pix mask r c = one) /\
            exists v, pix data r c = num v) by (intros; apply H; simpl; auto).
  clear IH H.
  assert (Hrow : psum (map (fun c => pmul (pix mask r c) (pix data r c)) cols)
                 = num (Qcsum (drop_nan
                     (flat_map (fun c => if is_zero (pix mask r c) then []
                                         else [pix data r c]) cols)))).
  { induction cols as [|c cols IHc]; [reflexivity|].
    cbn [map flat_map]. rewrite psum_cons, drop_nan_app, Qcsum_app.
    rewrite IHc by (intros; apply Hr; simpl; auto).
    destruct (Hr c (or_introl eq_refl)) as [Hm [v Hv]].
    rewrite Hv. destruct Hm as [Hm|Hm]; rewrite Hm.
    - rewrite is_zero_zero. change (drop_nan []) with (@nil Qc).
      change (Qcsum []) with 0%Qc.
      unfold padd, pmul, zero, num, lift2. apply f_equal. ring.
    - rewrite is_zero_one. change (drop_nan [num v]) with [v].
      change (Qcsum [v]) with (v + 0)%Qc.
      unfold padd, pmul, one, num, lift2. apply f_equal. ring. }
  rewrite Hrow. reflexivity.
Qed.

(** ** Updates of a matrix *)

Lemma pix_set_pix (nr nc : nat) (a : frame) (r c r' c' : nat) (x : px) :
  has_shape nr nc a -> r < nr -> c < nc ->
  pix (set_pix r c x a) r' c' = if (r =? r') && (c =? c') then x else pix a r' c'.
Proof.
  intros H Hr Hc.
  destruct (Nat.eqb_spec r r') as [<-|Hne]; simpl.
  - destruct (Nat.eqb_spec c c') as [<-|Hne].
    + apply pix_set_pix_same; [destruct H; lia|now rewrite (row_length H Hr)].
    + apply pix_set_pix_other. congruence.
  - apply pix_set_pix_other. congruence.
Qed.

(** A loop of assignments to pairwise distinct positions. *)
Lemma has_shape_fold_set_pix (nr nc : nat) (tr tc : nat -> nat) (g : nat -> px)
    (idx : list nat) (a : frame) :
  has_shape nr nc a ->
  has_shape nr nc (fold_left (fun m t => set_pix (tr t) (tc t) (g t) m) idx a).
Proof.
  revert a. induction idx as [|t idx IH]; intros a H; simpl; auto.
  apply IH, has_shape_set_pix, H.
Qed.

Lemma pix_fold_set_pix_other (tr tc : nat -> nat) (g : nat -> px)
    (idx : list nat) (a : frame) (r c : nat) :
  (forall t, In t idx -> (tr t, tc t) <> (r, c)) ->
  pix (fold_left (fun m t => set_pix (tr t) (tc t) (g t) m) idx a) r c = pix a r c.
Proof.
  revert a. induction idx as [|t idx IH]; intros a H; simpl; auto.
  rewrite IH by (intros; apply H; simpl; auto).
  apply pix_set_pix_other. apply H. simpl; auto.
Qed.

Lemma pix_fold_set_pix_at (nr nc : nat) (tr tc : nat -> nat) (g : nat -> px)
    (idx : list nat) (a : frame) (t : nat) :
  has_shape nr nc a -> NoDup idx ->
  (forall u u', In u idx -> In u' idx -> tr u = tr u' -> tc u = tc u' -> u = u') ->
  In t idx -> tr t < nr -> tc t < nc ->
  pix (fold_left (fun m u => set_pix (tr u) (tc u) (g u) m) idx a) (tr t) (tc t) = g t.
Proof.
  revert a. induction idx as [|u idx IH]; intros a H Hnd Hinj Hin Hr Hc; [destruct Hin|].
  inversion Hnd as [|? ? Hnotin Hnd']; subst. simpl.
  destruct Hin as [->|Hin].
  - rewrite pix_fold_set_pix_other.
    + apply pix_set_pix_same; [destruct H; lia|now rewrite (row_length H Hr)].
    + intros u Hu E. inversion E. apply Hnotin.
      replace t with u; auto. apply Hinj; simpl; auto.
  - apply IH; auto.
    + now apply has_shape_set_pix.
    + intros; apply Hinj; simpl; auto.
Qed.

Lemma pix_set_col_from (nr nc : nat) (k j : nat) (vs : vec) (a : frame) (r c : nat) :
  has_shape nr nc a -> j < nc -> k + length vs <= nr ->
  pix (set_col_from k j vs a) r c =
  if (c =? j) && (k <=? r) && (r <? k + length vs) then nth (r - k) vs NaN
  else pix a r c.
Proof.
  intros H Hj Hk. unfold set_col_from.
  destruct (Nat.eqb_spec c j) as [->|Hne]; simpl.
  - destruct (Nat.leb_spec k r) as [Hle|Hlt]; simpl.
    + destruct (Nat.ltb_spec r (k + length vs)) as [Hlt|Hge].
      * replace r with (k + (r - k)) at 1 by lia.
        apply (@pix_fold_set_pix_at nr nc (fun t => k + t) (fun _ => j)
                 (fun t => nth t vs NaN)); auto.
        -- apply seq_NoDup.
        -- intros; lia.
        -- apply in_seq. lia.
        -- lia.
      * apply (pix_fold_set_pix_other (fun t => k + t) (fun _ => j)).
        intros t Ht E. apply in_seq in Ht. inversion E. lia.
    + apply (pix_fold_set_pix_other (fun t => k + t) (fun _ => j)).
      intros t Ht E. inversion E. lia.
  - apply (pix_fold_set_pix_other (fun t => k + t) (fun _ => j)).
    intros t Ht E. inversion E. lia.
Qed.

Lemma has_shape_set_col_from (nr nc : nat) (k j : nat) (vs : vec) (a : frame) :
  has_shape nr nc a -> has_shape nr nc (set_col_from k j vs a).
Proof.
  intros H. unfold set_col_from.
  now apply (has_shape_fold_set_pix (fun t => k + t) (fun _ => j)).
Qed.

Lemma has_shape_set_row_from (nr nc : nat) (i k : nat) (vs : vec) (a : frame) :
  has_shape nr nc a -> k + length vs = nc -> has_shape nr nc (set_row_from i k vs a).
Proof.
  intros [Hl Hr] Hk. unfold set_row_from. split.
  - now rewrite length_set_nth.
  - apply Forall_set_nth; auto. intros Hi.
    rewrite length_app, length_firstn.
    assert (Hrow : length (nth i a []) = nc).
    { rewrite Forall_forall in Hr. apply Hr, nth_In; auto. }
    lia.
Qed.

Lemma pix_set_row_from (nr nc : nat) (i k : nat) (vs : vec) (a : frame) (r c : nat) :
  has_shape nr nc a -> i < nr -> k + length vs = nc ->
  pix (set_row_from i k vs a) r c =
  if (r =? i) && (k <=? c) then nth (c - k) vs NaN else pix a r c.
Proof.
  intros H Hi Hk. unfold set_row_from, pix.
  assert (Hrow : length (nth i a []) = nc) by now apply (row_length H).
  destruct (Nat.eqb_spec r i) as [->|Hne]; simpl.
  - rewrite nth_set_nth_eq by (destruct H; lia).
    destruct (Nat.leb_spec k c) as [Hle|Hlt].
    + rewrite app_nth2; rewrite length_firstn; [|lia].
      f_equal. lia.
    + rewrite app_nth1 by (rewrite length_firstn; lia).
      rewrite nth_firstn.
      destruct (Nat.ltb_spec c k); [reflexivity|lia].
  - now rewrite nth_set_nth_neq by auto.
Qed.

Lemma fold_left_pair (A B C : Type) (F : A -> C -> A) (G : B -> C -> B)
    (l : list C) (a : A) (b : B) :
  fold_left (fun ab x => (F (fst ab) x, G (snd ab) x)) l (a, b) =
  (fold_left F l a, fold_left G l b).
Proof.
  revert a b. induction l as [|x l IH]; intros a b; simpl; auto.
Qed.

Lemma fold_left_shift (A : Type) (F : A -> nat -> A) (k n : nat) (a : A) :
  fold_left (fun m j => F m (j + k)) (seq 0 n) a = fold_left F (seq k n) a.
Proof.
  replace (seq k n) with (map (fun j => j + k) (seq 0 n)).
  - generalize (seq 0 n). intros l. revert a.
    induction l as [|x l IH]; intros a; simpl; auto.
  - clear. induction k as [|k IH].
    + rewrite <- (map_id (seq 0 n)) at 2. apply map_ext. intros; lia.
    + rewrite <- seq_shift, <- IH, map_map. apply map_ext. intros; lia.
Qed.

Lemma nth_fold_set_nth_other (A : Type) (tr : nat -> nat) (g : nat -> A)
    (idx : list nat) (l : list A) (k : nat) (d : A) :
  (forall t, In t idx -> tr t <> k) ->
  nth k (fold_left (fun m t => set_nth (tr t) (g t) m) idx l) d = nth k l d.
Proof.
  revert l. induction idx as [|t idx IH]; intros l H; simpl; auto.
  rewrite IH by (intros; apply H; simpl; auto).
  apply nth_set_nth_neq. apply H. simpl; auto.
Qed.

Lemma length_fold_set_nth_gen (A : Type) (tr : nat -> nat) (g : nat -> A)
    (idx : list nat) (l : list A) :
  length (fold_left (fun m t => set_nth (tr t) (g t) m) idx l) = length l.
Proof.
  revert l. induction idx as [|t idx IH]; intros l; simpl; auto.
  now rewrite IH, length_set_nth.
Qed.

Lemma nth_fold_set_nth_at (A : Type) (tr : nat -> nat) (g : nat -> A)
    (idx : list nat) (l : list A) (t : nat) (d : A) :
  NoDup idx -> (forall u u', In u idx -> In u' idx -> tr u = tr u' -> u = u') ->
  In t idx -> tr t < length l ->
  nth (tr t) (fold_left (fun m u => set_nth (tr u) (g u) m) idx l) d = g t.
Proof.
  revert l. induction idx as [|u idx IH]; intros l Hnd Hinj Hin Hlt; [destruct Hin|].
  inversion Hnd as [|? ? Hnotin Hnd']; subst. simpl.
  destruct Hin as [->|Hin].
  - rewrite nth_fold_set_nth_other.
    + now apply nth_set_nth_eq.
    + intros u Hu E. apply Hnotin. replace t with u; auto.
      apply Hinj; simpl; auto.
  - apply IH; auto.
    + intros; apply Hinj; simpl; auto.
    + now rewrite length_set_nth.
Qed.

(** ** The normal equations of LOOM ([loom_system]) *)

Lemma length_sum_axis0 (nc : nat) (a : frame) : length (sum_axis0 nc a) = nc.
Proof. unfold sum_axis0. now rewrite length_map, length_seq. Qed.

Lemma loom_system_fst (data mask : frame) :
  let nc := ncols data in
  fst (loom_system data mask) =
  fold_left
    (fun m j => set_pix (j + 2) (j + 2) (nth j (sum_axis0 nc mask) NaN) m)
    (seq 0 nc)
    (set_col_from 2 1 (sum_axis0 nc (evens mask))
       (set_col_from 2 0 (sum_axis0 nc (odds mask))
          (set_row_from 1 2 (sum_axis0 nc (evens mask))
             (set_pix 1 1 (psum (evens (sum_axis1 mask)))
                (set_pix 1 0 zero
                   (set_row_from 0 2 (sum_axis0 nc (odds mask))
                      (set_pix 0 1 zero
                         (set_pix 0 0 (psum (odds (sum_axis1 mask)))
                            (full (nc + 2) (nc + 2) zero))))))))).
Proof.
  intros nc. unfold loom_system. fold nc.
  rewrite (fold_left_pair
             (fun m j => set_pix (j + 2) (j + 2) (nth j (sum_axis0 nc mask) NaN) m)
             (fun b j => set_nth (j + 2)
                           (psum (zip_with pmul (column j mask) (column j data))) b)).
  reflexivity.
Qed.

Lemma loom_system_snd (data mask : frame) :
  let nc := ncols data in
  snd (loom_system data mask) =
  fold_left
    (fun b j => set_nth (j + 2) (psum (zip_with pmul (column j mask) (column j data))) b)
    (seq 0 nc)
    (set_nth 1 (psum (flatten (map2 pmul (evens mask) (evens data))))
       (set_nth 0 (psum (flatten (map2 pmul (odds mask) (odds data))))
          (repeat zero (nc + 2)))).
Proof.
  intros nc. unfold loom_system. fold nc.
  rewrite (fold_left_pair
             (fun m j => set_pix (j + 2) (j + 2) (nth j (sum_axis0 nc mask) NaN) m)
             (fun b j => set_nth (j + 2)
                           (psum (zip_with pmul (column j mask) (column j data))) b)).
  reflexivity.
Qed.

Lemma loom_matrix_shape (data mask : frame) :
  has_shape (ncols data + 2) (ncols data + 2) (fst (loom_system data mask)).
Proof.
  rewrite loom_system_fst.
  apply (has_shape_fold_set_pix (fun j => j + 2) (fun j => j + 2)).
  repeat first [ apply has_shape_set_col_from
               | apply has_shape_set_row_from
               | apply has_shape_set_pix
               | apply has_shape_full
               | rewrite length_sum_axis0; lia ].
Qed.

Lemma loom_matrix_pix (data mask : frame) (i k : nat) :
  i < ncols data + 2 -> k < ncols data + 2 ->
  pix (fst (loom_system data mask)) i k =
  normal_entry (psum (odds (sum_axis1 mask))) (psum (evens (sum_axis1 mask)))
    (sum_axis0 (ncols data) (odds mask)) (sum_axis0 (ncols data) (evens mask))
    (sum_axis0 (ncols data) mask) i k.
Proof.
  intros Hi Hk. rewrite loom_system_fst. cbv zeta.
  set (nc := ncols data) in *. set (n := nc + 2).
  set (nO := psum (odds (sum_axis1 mask))).
  set (nE := psum (evens (sum_axis1 mask))).
  set (nodd := sum_axis0 nc (odds mask)).
  set (neven := sum_axis0 nc (evens mask)).
  set (ntot := sum_axis0 nc mask).
  assert (Lo : length nodd = nc) by apply length_sum_axis0.
  assert (Le : length neven = nc) by apply length_sum_axis0.
  set (A0 := full n n zero).
  assert (H0 : has_shape n n A0) by apply has_shape_full.
  set (A1 := set_pix 0 0 nO A0).
  assert (H1 : has_shape n n A1) by now apply has_shape_set_pix.
  set (A2 := set_pix 0 1 zero A1).
  assert (H2 : has_shape n n A2) by now apply has_shape_set_pix.
  set (A3 := set_row_from 0 2 nodd A2).
  assert (H3 : has_shape n n A3) by (apply has_shape_set_row_from; auto; lia).
  set (A4 := set_pix 1 0 zero A3).
  assert (H4 : has_shape n n A4) by now apply has_shape_set_pix.
  set (A5 := set_pix 1 1 nE A4).
  assert (H5 : has_shape n n A5) by now apply has_shape_set_pix.
  set (A6 := set_row_from 1 2 neven A5).
  assert (H6 : has_shape n n A6) by (apply has_shape_set_row_from; auto; lia).
  set (A7 := set_col_from 2 0 nodd A6).
  assert (H7 : has_shape n n A7) by now apply has_shape_set_col_from.
  set (A8 := set_col_from 2 1 neven A7).
  assert (H8 : has_shape n n A8) by now apply has_shape_set_col_from.
  assert (Hbase : pix A8 i k =
            match i, k with
            | 0, 0 => nO
            | 0, 1 => zero
            | 0, S (S j) => nth j nodd NaN
            | 1, 0 => zero
            | 1, 1 => nE
            | 1, S (S j) => nth j neven NaN
            | S (S j), 0 => nth j nodd NaN
            | S (S j), 1 => nth j neven NaN
            | S (S j), S (S j') => zero
            end).
  { subst A8 A7. rewrite !(@pix_set_col_from n n) by (auto; lia).
    subst A6. rewrite (@pix_set_row_from n n) by (auto; lia).
    subst A5 A4. rewrite !(@pix_set_pix n n) by (auto; lia).
    subst A3. rewrite (@pix_set_row_from n n) by (auto; lia).
    subst A2 A1. rewrite !(@pix_set_pix n n) by (auto; lia).
    subst A0. rewrite pix_full by auto.
    rewrite Lo, Le.
    destruct i as [|[|i]], k as [|[|k]];
      cbn [Nat.eqb Nat.leb Nat.sub andb]; rewrite ?Nat.sub_0_r; try reflexivity.
    all: destruct (Nat.ltb_spec (S (S i)) (2 + nc)); [reflexivity|lia]. }
  destruct i as [|[|i]].
  - rewrite (pix_fold_set_pix_other (fun j => j + 2) (fun j => j + 2)).
    + rewrite Hbase. destruct k as [|[|k]]; reflexivity.
    + intros t _ E. inversion E. lia.
  - rewrite (pix_fold_set_pix_other (fun j => j + 2) (fun j => j + 2)).
    + rewrite Hbase. destruct k as [|[|k]]; reflexivity.
    + intros t _ E. inversion E. lia.
  - destruct k as [|[|k]].
    + rewrite (pix_fold_set_pix_other (fun j => j + 2) (fun j => j + 2)).
      * now rewrite Hbase.
      * intros t _ E. inversion E. lia.
    + rewrite (pix_fold_set_pix_other (fun j => j + 2) (fun j => j + 2)).
      * now rewrite Hbase.
      * intros t _ E. inversion E. lia.
    + cbn [normal_entry]. destruct (Nat.eqb_spec i k) as [->|Hne].
      * replace (S (S k)) with (k + 2) by lia.
        apply (@pix_fold_set_pix_at n n (fun j => j + 2) (fun j => j + 2)
                 (fun j => nth j ntot NaN)); auto;
          first [ apply seq_NoDup | apply in_seq; lia | intros; lia | unfold n; lia ].
      * rewrite (pix_fold_set_pix_other (fun j => j + 2) (fun j => j + 2)).
        -- now rewrite Hbase.
        -- intros t _ E. inversion E. lia.
Qed.

Lemma loom_rhs_length (data mask : frame) :
  length (snd (loom_system data mask)) = ncols data + 2.
Proof.
  rewrite loom_system_snd. cbv zeta.
  rewrite (length_fold_set_nth_gen (fun j => j + 2)).
  now rewrite !length_set_nth, repeat_length.
Qed.

Lemma loom_rhs_nth (data mask : frame) (k : nat) :
  k < ncols data + 2 ->
  nth k (snd (loom_system data mask)) NaN =
  match k with
  | 0 => psum (flatten (map2 pmul (odds mask) (odds data)))
  | 1 => psum (flatten (map2 pmul (evens mask) (evens data)))
  | S (S j) => psum (zip_with pmul (column j mask) (column j data))
  end.
Proof.
  intros Hk. rewrite loom_system_snd. cbv zeta.
  set (nc := ncols data) in *.
  destruct k as [|[|j]].
  - rewrite (nth_fold_set_nth_other (fun j => j + 2)) by (intros; lia).
    rewrite nth_set_nth_neq by lia.
    apply nth_set_nth_eq. rewrite repeat_length. lia.
  - rewrite (nth_fold_set_nth_other (fun j => j + 2)) by (intros; lia).
    apply nth_set_nth_eq. rewrite length_set_nth, repeat_length. lia.
  - replace (S (S j)) with (j + 2) by lia.
    apply (nth_fold_set_nth_at (fun j => j + 2)
             (fun j => psum (zip_with pmul (column j mask) (column j data)))).
    + apply seq_NoDup.
    + intros; lia.
    + apply in_seq. lia.
    + rewrite !length_set_nth, repeat_length. lia.
Qed.

Lemma zip_with_map (A B C D : Type) (f : A -> B -> C) (g : D -> A) (h : D -> B)
    (l : list D) :
  zip_with f (map g l) (map h l) = map (fun x => f (g x) (h x)) l.
Proof. induction l as [|x l IH]; simpl; congruence. Qed.

(** The products [mask * data] on a selection of rows, as a table. *)
Lemma rows_product (nr nc : nat) (data mask : frame) (rows : list nat) :
  has_shape nr nc data -> has_shape nr nc mask -> (forall r, In r rows -> r < nr) ->
  map2 pmul (map (fun r => nth r mask []) rows) (map (fun r => nth r data []) rows) =
  map (fun r => map (fun c => pmul (pix mask r c) (pix data r c)) (seq 0 nc)) rows.
Proof.
  intros Hd Hm Hrows. unfold map2. rewrite zip_with_map.
  apply map_ext_in. intros r Hr.
  rewrite (row_table Hm (Hrows r Hr)), (row_table Hd (Hrows r Hr)).
  apply zip_with_map.
Qed.

Section Statistics.

Variables (nr nc : nat) (data mask : frame).
Hypothesis Hd : has_shape nr nc data.
Hypothesis Hm : has_shape nr nc mask.
Hypothesis H01 : is_mask mask.
Hypothesis Hreal : is_real data.

Lemma mask_entry (r c : nat) :
  r < nr -> c < nc -> pix mask r c = zero \/ pix mask r c = one.
Proof. intros; now apply (is_mask_pix Hm H01). Qed.

Lemma sum_rows_count (rows : list nat) :
  (forall r, In r rows -> r < nr) ->
  psum (map (fun r => nth r (sum_axis1 mask) (psum [])) rows) =
  of_nat (masked_count mask rows (seq 0 nc)).
Proof.
  intros Hrows. rewrite <- psum_masked_count.
  - rewrite psum_concat, map_map. f_equal. apply map_ext_in. intros r Hr.
    unfold sum_axis1. rewrite (map_nth psum). f_equal.
    apply (row_table Hm). auto.
  - intros r c Hr Hc. apply in_seq in Hc. apply mask_entry; auto; lia.
Qed.

Lemma sum_column_count (rows : list nat) (j : nat) :
  (forall r, In r rows -> r < nr) -> j < nc ->
  psum (column j (map (fun r => nth r mask []) rows)) =
  of_nat (masked_count mask rows [j]).
Proof.
  intros Hrows Hj. rewrite <- psum_masked_count.
  - cbn [map]. rewrite concat_map_singleton. f_equal.
    unfold column. now rewrite map_map.
  - intros r c Hr [<-|[]]. apply mask_entry; auto.
Qed.

Lemma sum_rows_product (rows : list nat) :
  (forall r, In r rows -> r < nr) ->
  psum (flatten (map2 pmul (map (fun r => nth r mask []) rows)
                   (map (fun r => nth r data []) rows))) =
  num (masked_sum data mask rows (seq 0 nc)).
Proof.
  intros Hrows. rewrite (rows_product rows Hd Hm Hrows). unfold flatten.
  apply psum_masked_sum. intros r c Hr Hc. apply in_seq in Hc. split.
  - apply mask_entry; auto; lia.
  - apply (is_real_pix Hd Hreal); auto; lia.
Qed.

Lemma sum_column_product (j : nat) :
  j < nc ->
  psum (zip_with pmul (column j mask) (column j data)) =
  num (masked_sum data mask (seq 0 nr) [j]).
Proof.
  intros Hj. rewrite (column_table j Hm), (column_table j Hd), zip_with_map.
  rewrite <- psum_masked_sum.
  - cbn [map]. now rewrite concat_map_singleton.
  - intros r c Hr [<-|[]]. apply in_seq in Hr. split.
    + apply mask_entry; auto; lia.
    + apply (is_real_pix Hd Hreal); auto; lia.
Qed.

Lemma lt_odd_rows (r : nat) : In r (odd_rows nr) -> r < nr.
Proof. intros H. now apply in_odd_rows in H. Qed.

Lemma lt_even_rows (r : nat) : In r (even_rows nr) -> r < nr.
Proof. intros H. now apply in_even_rows in H. Qed.

Lemma lt_all_rows (r : nat) : In r (seq 0 nr) -> r < nr.
Proof. intros H. apply in_seq in H. lia. Qed.

Lemma mask_length : length mask = nr.
Proof. apply Hm. Qed.

Lemma data_length : length data = nr.
Proof. apply Hd. Qed.

Lemma nO_count :
  psum (odds (sum_axis1 mask)) = of_nat (masked_count mask (odd_rows nr) (seq 0 nc)).
Proof.
  rewrite (odds_rows _ (psum [])). unfold sum_axis1 at 2.
  rewrite length_map, mask_length. apply sum_rows_count, lt_odd_rows.
Qed.

Lemma nE_count :
  psum (evens (sum_axis1 mask)) = of_nat (masked_count mask (even_rows nr) (seq 0 nc)).
Proof.
  rewrite (evens_rows _ (psum [])). unfold sum_axis1 at 2.
  rewrite length_map, mask_length. apply sum_rows_count, lt_even_rows.
Qed.

Lemma nodd_count (j : nat) :
  j < nc ->
  nth j (sum_axis0 nc (odds mask)) NaN = of_nat (masked_count mask (odd_rows nr) [j]).
Proof.
  intros Hj. unfold sum_axis0. rewrite nth_map_seq by auto.
  rewrite (odds_rows _ []), mask_length. apply sum_column_count; auto.
  apply lt_odd_rows.
Qed.

Lemma neven_count (j : nat) :
  j < nc ->
  nth j (sum_axis0 nc (evens mask)) NaN = of_nat (masked_count mask (even_rows nr) [j]).
Proof.
  intros Hj. unfold sum_axis0. rewrite nth_map_seq by auto.
  rewrite (evens_rows _ []), mask_length. apply sum_column_count; auto.
  apply lt_even_rows.
Qed.

Lemma nrows_count (j : nat) :
  j < nc ->
  nth j (sum_axis0 nc mask) NaN = of_nat (masked_count mask (seq 0 nr) [j]).
Proof.
  intros Hj. unfold sum_axis0. rewrite nth_map_seq by auto.
  rewrite <- (sum_column_count (seq 0 nr) lt_all_rows Hj). f_equal. f_equal.
  apply (nth_ext _ _ [] []).
  - now rewrite length_map, length_seq, mask_length.
  - intros r Hr. rewrite mask_length in Hr. now rewrite nth_map_seq.
Qed.

Lemma odd_sum :
  psum (flatten (map2 pmul (odds mask) (odds data))) =
  num (masked_sum data mask (odd_rows nr) (seq 0 nc)).
Proof.
  rewrite (odds_rows mask []), (odds_rows data []), mask_length, data_length.
  apply sum_rows_product, lt_odd_rows.
Qed.

Lemma even_sum :
  psum (flatten (map2 pmul (evens mask) (evens data))) =
  num (masked_sum data mask (even_rows nr) (seq 0 nc)).
Proof.
  rewrite (evens_rows mask []), (evens_rows data []), mask_length, data_length.
  apply sum_rows_product, lt_even_rows.
Qed.

End Statistics.

(** ** The model of LOOM ([get_loom]) *)

Lemma map_row_nth (f : px -> px) (row : vec) (c : nat) :
  c < length row -> nth c (map f row) NaN = f (nth c row NaN).
Proof.
  intros H. rewrite (nth_indep _ NaN (f NaN)) by now rewrite length_map.
  apply map_nth.
Qed.

Lemma pix_add_evens (nr nc : nat) (v : px) (a : frame) (r c : nat) :
  has_shape nr nc a -> r < nr -> c < nc ->
  pix (add_evens v a) r c = if Nat.even r then padd (pix a r c) v else pix a r c.
Proof.
  intros [Hl Hrows]. revert nr r Hl.
  induction a as [| x | x y a IH] using pair_induction; intros nr r Hl Hr Hc.
  - simpl in Hl. lia.
  - simpl in Hl. assert (r = 0) by lia. subst r. unfold pix. simpl.
    inversion Hrows; subst. now apply map_row_nth.
  - inversion Hrows as [|? ? Hx Hrows']; subst. inversion Hrows'; subst.
    destruct r as [|[|r]].
    + unfold pix. simpl. now apply map_row_nth.
    + reflexivity.
    + change (pix (add_evens v (x :: y :: a)) (S (S r)) c)
        with (pix (add_evens v a) r c).
      change (pix (x :: y :: a) (S (S r)) c) with (pix a r c).
      rewrite Nat.even_succ_succ.
      apply (IH ltac:(assumption) (length a)); auto. simpl in Hr. lia.
Qed.

Lemma has_shape_add_evens (nr nc : nat) (v : px) (a : frame) :
  has_shape nr nc a -> has_shape nr nc (add_evens v a).
Proof.
  intros [Hl Hrows]. revert nr Hl.
  induction a as [| x | x y a IH] using pair_induction; intros nr Hl.
  - split; auto.
  - split; auto. inversion Hrows; subst. constructor; auto.
    now rewrite length_map.
  - inversion Hrows as [|? ? Hx Hrows']; subst. inversion Hrows'; subst.
    destruct (IH ltac:(assumption) (length a) eq_refl) as [Hl' Hr'].
    split.
    + simpl. simpl in Hl'. rewrite Hl'. reflexivity.
    + constructor; [now rewrite length_map|]. constructor; auto.
Qed.

Lemma pix_add_odds (nr nc : nat) (v : px) (a : frame) (r c : nat) :
  has_shape nr nc a -> r < nr -> c < nc ->
  pix (add_odds v a) r c = if Nat.odd r then padd (pix a r c) v else pix a r c.
Proof.
  intros [Hl Hrows] Hr Hc. destruct a as [|x a]; [simpl in Hl; lia|].
  inversion Hrows; subst. destruct r as [|r]; [reflexivity|].
  change (pix (add_odds v (x :: a)) (S r) c) with (pix (add_evens v a) r c).
  change (pix (x :: a) (S r) c) with (pix a r c).
  rewrite Nat.odd_succ.
  apply (@pix_add_evens (length a) (length x)); auto.
  - split; auto.
  - simpl in Hr. lia.
Qed.

Lemma has_shape_add_odds (nr nc : nat) (v : px) (a : frame) :
  has_shape nr nc a -> has_shape nr nc (add_odds v a).
Proof.
  intros [Hl Hrows]. destruct a as [|x a]; [split; auto|].
  inversion Hrows; subst.
  destruct (@has_shape_add_evens (length a) (length x) v a) as [Hl' Hr'];
    [split; auto|].
  split.
  - simpl. now rewrite Hl'.
  - constructor; auto.
Qed.

Lemma has_shape_add_column (nr nc : nat) (j : nat) (v : px) (a : frame) :
  has_shape nr nc a -> has_shape nr nc (add_column j v a).
Proof.
  intros [Hl Hr]. unfold add_column. split.
  - now rewrite length_map.
  - apply Forall_forall. intros row Hin. apply in_map_iff in Hin.
    destruct Hin as (row' & <- & Hin'). rewrite length_set_nth.
    rewrite Forall_forall in Hr. auto.
Qed.

Lemma pix_add_column (nr nc : nat) (j : nat) (v : px) (a : frame) (r c : nat) :
  has_shape nr nc a -> r < nr -> c < nc ->
  pix (add_column j v a) r c = if c =? j then padd (pix a r c) v else pix a r c.
Proof.
  intros H Hr Hc. unfold pix, add_column.
  set (f := fun row => set_nth j (padd (nth j row NaN) v) row).
  rewrite (nth_indep _ [] (f [])) by (rewrite length_map; destruct H; lia).
  rewrite (map_nth f). subst f. cbv beta.
  destruct (Nat.eqb_spec c j) as [->|Hne].
  - apply nth_set_nth_eq. now rewrite (row_length H Hr).
  - apply nth_set_nth_neq. congruence.
Qed.

Lemma add_columns (nr nc : nat) (v : nat -> px) (cols : list nat) (a : frame)
    (r c : nat) :
  has_shape nr nc a -> NoDup cols -> r < nr -> c < nc ->
  has_shape nr nc (fold_left (fun m j => add_column j (v j) m) cols a) /\
  pix (fold_left (fun m j => add_column j (v j) m) cols a) r c =
  if in_dec Nat.eq_dec c cols then padd (pix a r c) (v c) else pix a r c.
Proof.
  intros H Hnd Hr Hc. revert a H.
  induction Hnd as [|j cols Hj Hnd IH]; intros a H; simpl.
  - auto.
  - destruct (IH _ (has_shape_add_column j (v j) H)) as [Hs Hp].
    split; auto. rewrite Hp, (pix_add_column j (v j) H Hr Hc).
    destruct (Nat.eq_dec j c) as [->|Hne].
    + rewrite Nat.eqb_refl.
      destruct (in_dec Nat.eq_dec c cols); [contradiction|reflexivity].
    + destruct (Nat.eqb_spec c j); [congruence|].
      destruct (in_dec Nat.eq_dec c cols); reflexivity.
Qed.

Lemma index_ok (x : vec) (k : nat) : k < length x -> index x k = Ok (nth k x NaN).
Proof.
  intros H. unfold index.
  destruct (nth_error x k) as [y|] eqn:E.
  - now rewrite (nth_error_nth x k NaN E).
  - apply nth_error_None in E. lia.
Qed.

Section LoomModel.

Variable lsmr : frame -> vec -> vec.
Variables (nr nc : nat) (data mask : frame).
Hypothesis Hd : has_shape nr nc data.
Hypothesis Hpos : 0 < nr.

Let x : vec := lsmr (fst (loom_system data mask)) (snd (loom_system data mask)).

Lemma get_loom_model (return_parameters : bool) :
  length x = nc + 2 ->
  exists loom,
    get_loom lsmr data mask return_parameters
    = Ok (loom, if return_parameters then Some x else None) /\
    has_shape nr nc loom /\
    forall r c, r < nr -> c < nc ->
      pix loom r c =
      padd (if Nat.odd r then nth 0 x NaN else nth 1 x NaN) (nth (c + 2) x NaN).
Proof.
  intros Hx. unfold get_loom. fold x.
  assert (Hnc : ncols data = nc) by now apply (ncols_shape Hd).
  assert (Hnr : nrows data = nr) by apply Hd.
  rewrite Hnc, Hnr.
  rewrite (@index_ok x 0), (@index_ok x 1) by lia. cbn [bind].
  rewrite (for_each_ok _ (fun m j => add_column j (nth (j + 2) x NaN) m)).
  - cbn [bind].
    set (L2 := add_evens (nth 1 x NaN) (add_odds (nth 0 x NaN) (full nr nc zero))).
    set (loom := fold_left _ (seq 0 nc) L2).
    exists loom. split; [destruct return_parameters; reflexivity|].
    assert (H0 := has_shape_full nr nc zero).
    assert (H1 := has_shape_add_odds (nth 0 x NaN) H0).
    assert (H2 : has_shape nr nc L2) by now apply has_shape_add_evens.
    split.
    + destruct nr as [|n]; [lia|]. destruct nc as [|m].
      * subst loom. simpl. exact H2.
      * apply (@add_columns (S n) (S m) (fun j => nth (j + 2) x NaN)
                 (seq 0 (S m)) L2 0 0 H2 (seq_NoDup _ _)); lia.
    + intros r c Hr Hc.
      destruct (@add_columns nr nc (fun j => nth (j + 2) x NaN)
                  (seq 0 nc) L2 r c H2 (seq_NoDup _ _) Hr Hc) as [_ Hp].
      subst loom. rewrite Hp.
      destruct (in_dec Nat.eq_dec c (seq 0 nc)) as [_|Hn];
        [|elim Hn; apply in_seq; lia].
      f_equal. subst L2.
      rewrite (pix_add_evens _ H1 Hr Hc), (pix_add_odds _ H0 Hr Hc).
      rewrite pix_full by auto. rewrite <- Nat.negb_odd.
      destruct (Nat.odd r); simpl; apply padd_zero_l.
  - intros m j Hj. apply in_seq in Hj.
    rewrite (@index_ok x (j + 2)) by lia. reflexivity.
Qed.

End LoomModel.

(** C1: on a congruent 0/1 mask and a real-valued frame, [get_loom] builds
    a (columns + 2) x (columns + 2) system whose row 0 holds the number of
    masked pixels of the odd rows on the diagonal and the counts per column
    on the odd rows in the entries 2 .. columns + 1, with the sum of the
    masked pixels of the odd rows as right-hand side; row 1 is the same for
    the even rows; row j + 2 holds the odd and even counts of column j in
    its first two entries and the count of column j on the diagonal, with
    the sum of the masked pixels of column j as right-hand side; every other
    entry is 0.  The model is x[0] on the odd rows, x[1] on the even rows,
    plus x[j + 2] on column j, for the solution x the solver returns, and x
    comes with the model exactly when the flag is set. *)
Theorem get_loom_normal_equations (lsmr : frame -> vec -> vec) (nr nc : nat)
    (data mask : frame) (return_parameters : bool) :
  has_shape nr nc data -> has_shape nr nc mask -> is_mask mask -> is_real data ->
  0 < nr ->
  let A := fst (loom_system data mask) in
  let b := snd (loom_system data mask) in
  let x := lsmr A b in
  let odd := odd_rows nr in
  let even := even_rows nr in
  let all := seq 0 nr in
  let cols := seq 0 nc in
  has_shape (nc + 2) (nc + 2) A /\ length b = nc + 2 /\
  (pix A 0 0 = of_nat (masked_count mask odd cols) /\
   pix A 0 1 = zero /\
   (forall j, j < nc -> pix A 0 (j + 2) = of_nat (masked_count mask odd [j])) /\
   nth 0 b NaN = num (masked_sum data mask odd cols)) /\
  (pix A 1 0 = zero /\
   pix A 1 1 = of_nat (masked_count mask even cols) /\
   (forall j, j < nc -> pix A 1 (j + 2) = of_nat (masked_count mask even [j])) /\
   nth 1 b NaN = num (masked_sum data mask even cols)) /\
  (forall j, j < nc ->
     pix A (j + 2) 0 = of_nat (masked_count mask odd [j]) /\
     pix A (j + 2) 1 = of_nat (masked_count mask even [j]) /\
     pix A (j + 2) (j + 2) = of_nat (masked_count mask all [j]) /\
     (forall k, k < nc -> k <> j -> pix A (j + 2) (k + 2) = zero) /\
     nth (j + 2) b NaN = num (masked_sum data mask all [j])) /\
  (length x = nc + 2 ->
   exists loom,
     get_loom lsmr data mask return_parameters
     = Ok (loom, if return_parameters then Some x else None) /\
     has_shape nr nc loom /\
     forall r c, r < nr -> c < nc ->
       pix loom r c =
       padd (if Nat.odd r then nth 0 x NaN else nth 1 x NaN) (nth (c + 2) x NaN)).
Proof.
  intros Hd Hm H01 Hreal Hpos A b x odd even all cols.
  assert (Hnc : ncols data = nc) by now apply (ncols_shape Hd).
  assert (HA : forall i k, i < nc + 2 -> k < nc + 2 ->
            pix A i k =
            normal_entry (psum (odds (sum_axis1 mask))) (psum (evens (sum_axis1 mask)))
              (sum_axis0 nc (odds mask)) (sum_axis0 nc (evens mask))
              (sum_axis0 nc mask) i k).
  { intros i k Hi Hk. subst A. rewrite <- Hnc in *. now apply loom_matrix_pix. }
  assert (Hb : forall k, k < nc + 2 ->
            nth k b NaN =
            match k with
            | 0 => psum (flatten (map2 pmul (odds mask) (odds data)))
            | 1 => psum (flatten (map2 pmul (evens mask) (evens data)))
            | S (S j) => psum (zip_with pmul (column j mask) (column j data))
            end).
  { intros k Hk. subst b. rewrite <- Hnc in Hk. now apply loom_rhs_nth. }
  split; [subst A; rewrite <- Hnc; apply loom_matrix_shape|].
  split; [subst b; rewrite <- Hnc; apply loom_rhs_length|].
  split; [|split; [|split]].
  - rewrite !HA by lia. cbn [normal_entry]. split; [|split; [|split]].
    + apply (nO_count Hm H01).
    + reflexivity.
    + intros j Hj. rewrite HA by lia. replace (j + 2) with (S (S j)) by lia.
      cbn [normal_entry]. now apply (nodd_count Hm H01).
    + rewrite Hb by lia. apply (odd_sum Hd Hm H01 Hreal).
  - rewrite !HA by lia. cbn [normal_entry]. split; [|split; [|split]].
    + reflexivity.
    + apply (nE_count Hm H01).
    + intros j Hj. rewrite HA by lia. replace (j + 2) with (S (S j)) by lia.
      cbn [normal_entry]. now apply (neven_count Hm H01).
    + rewrite Hb by lia. apply (even_sum Hd Hm H01 Hreal).
  - intros j Hj. rewrite !HA by lia. rewrite Hb by lia.
    replace (j + 2) with (S (S j)) by lia. cbn [normal_entry].
    rewrite Nat.eqb_refl.
    split; [now apply (nodd_count Hm H01)|].
    split; [now apply (neven_count Hm H01)|].
    split; [now apply (nrows_count Hm H01)|].
    split; [|now apply (sum_column_product Hd Hm H01 Hreal)].
    intros k Hk Hne. rewrite HA by lia.
    replace (k + 2) with (S (S k)) by lia. cbn [normal_entry].
    destruct (Nat.eqb_spec j k); [congruence|reflexivity].
  - intros Hx. now apply (get_loom_model lsmr mask Hd Hpos).
Qed.

(** ** Minimum-norm least squares *)





(** ** A column without background pixels *)




Lemma length_column_medians (data mask : frame) :
  length (column_medians data mask) = ncols data.
Proof. apply length_nanmedian_axis0. Qed.

Lemma has_shape_broadcast_row (nr nc : nat) (f : px -> px -> px) (a : frame) (v : vec) :
  has_shape nr nc a -> length v = nc -> has_shape nr nc (broadcast_row f a v).
Proof.
  intros [Hl Hr] Hv. unfold broadcast_row. split.
  - now rewrite length_map.
  - apply Forall_forall. intros row Hin. apply in_map_iff in Hin.
    destruct Hin as (row' & <- & Hin'). rewrite length_zip_with.
    rewrite Forall_forall in Hr. rewrite (Hr _ Hin'). lia.
Qed.

Section EmptyColumn.

Variables (nr nc : nat) (data mask : frame) (j : nat).
Hypothesis Hd : has_shape nr nc data.
Hypothesis Hm : has_shape nr nc mask.
Hypothesis Hpos : 0 < nr.
Hypothesis Hj : j < nc.
Hypothesis Hempty : forall r, r < nr -> pix mask r j = zero.






End EmptyColumn.



(** ** The slope recorded after the correction ([stage1]) *)

Lemma ramp_eqb_eq (a b : ramp) : ramp_eqb a b = true -> a = b.
Proof. apply list_eqb_eq, cube_eqb_eq. Qed.

Lemma stage1_eqb_eq (x y : result (option preamp_products)) :
  stage1_eqb x y = true -> x = y.
Proof.
  destruct x as [[[m r b a]|]|[]], y as [[[m' r' b' a']|]|[]]; simpl;
    try discriminate; auto.
  unfold products_eqb. simpl. intros H.
  apply andb_prop in H. destruct H as [H Ha].
  apply andb_prop in H. destruct H as [H Hb].
  apply andb_prop in H. destruct H as [Hm Hr].
  apply frame_eqb_eq in Hm. apply ramp_eqb_eq in Hr.
  apply cube_eqb_eq in Hb. apply cube_eqb_eq in Ha. now subst.
Qed.


Lemma norm2_nonneg (v : list Qc) : (0 <= norm2 v)%Qc.
Proof.
  unfold norm2, dot, Qcsum. induction v as [|a v IH]; simpl.
  - apply Qcle_refl.
  - revert IH. generalize (fold_right Qcplus (Q2Qc 0) (zip_with Qcmult v v)).
    intros s Hs. qc2q. nra.
Qed.

Lemma dot_zeros (row : list Qc) (n : nat) : dot row (repeat 0%Qc n) = 0%Qc.
Proof.
  unfold dot, Qcsum. revert n. induction row as [|a row IH]; intros [|n]; simpl; auto.
  rewrite IH. ring.
Qed.

Lemma norm2_zeros (n : nat) : norm2 (repeat 0%Qc n) = 0%Qc.
Proof. apply dot_zeros. Qed.

Lemma residual2_zeros (A : list (list Qc)) (n : nat) :
  residual2 A (repeat 0%Qc n) (repeat 0%Qc n) = 0%Qc.
Proof.
  unfold residual2, matvec.
  replace (map (fun row => dot row (repeat 0%Qc n)) A)
    with (repeat 0%Qc (length A)).
  - generalize (length A). intros m. revert n.
    induction m as [|m IH]; intros [|n]; simpl; auto.
    unfold norm2, dot, Qcsum in *. simpl. rewrite IH. ring.
  - induction A as [|row A IH]; simpl; auto. now rewrite dot_zeros, IH.
Qed.

(** On a zero right-hand side the zero vector is the minimum-norm
    least-squares solution, whatever the matrix. *)
Lemma zero_rhs_min_norm (A : list (list Qc)) (n : nat) :
  minimum_norm_solution A (repeat 0%Qc n) (repeat 0%Qc n).
Proof.
  split.
  - split; [reflexivity|]. intros y Hy. rewrite residual2_zeros. apply norm2_nonneg.
  - intros y Hy. rewrite norm2_zeros. apply norm2_nonneg.
Qed.

(** C8 fails on a fresh run: [stage1] records as the slope after the
    correction the plain difference of the two corrected groups, while
    [get_last_minus_first] on the corrected ramp removes the median of each
    group first.  On [lit_ramp] with [lit_mask] both models are 0 (the
    background is dark), the corrected ramp is [lit_ramp], the recorded
    slope is 8 on the lit rows and 0 elsewhere, and [get_last_minus_first]
    gives 4 and -4; the latter is also what [stage1] records when it finds
    the corrected ramp on disk. *)
Theorem stage1_lmf_after_skips_median :
  (forall lsmr,
     stage1_preamp lsmr Roeba lit_ramp None None (Some lit_mask) None =
     Ok (Some {| out_mask := lit_mask;
                 out_refpix := lit_ramp;
                 out_lmf_before := [zframe [[-4; -4]; [-4; -4]; [4; 4]; [4; 4]]];
                 out_lmf_after := [zframe [[0; 0]; [0; 0]; [8; 8]; [8; 8]]] |})%Z) /\
  stage1_preamp zero_lsmr Loom lit_ramp None None (Some lit_mask) None =
  Ok (Some {| out_mask := lit_mask;
              out_refpix := lit_ramp;
              out_lmf_before := [zframe [[-4; -4]; [-4; -4]; [4; 4]; [4; 4]]];
              out_lmf_after := [zframe [[0; 0]; [0; 0]; [8; 8]; [8; 8]]] |})%Z /\
  get_last_minus_first lit_ramp (Some 0%Z) (Some 1%Z) =
  Ok ([zframe [[-4; -4]; [-4; -4]; [4; 4]; [4; 4]]],
      zframe [[-4; -4]; [-4; -4]; [4; 4]; [4; 4]])%Z /\
  (forall lsmr,
     stage1_preamp lsmr Loom lit_ramp None None (Some lit_mask) (Some lit_ramp) =
     Ok (Some {| out_mask := lit_mask;
                 out_refpix := lit_ramp;
                 out_lmf_before := [zframe [[-4; -4]; [-4; -4]; [4; 4]; [4; 4]]];
                 out_lmf_after := [zframe [[-4; -4]; [-4; -4]; [4; 4]; [4; 4]]] |})%Z).
Proof.
  split; [|split; [|split]].
  - intros lsmr. apply stage1_eqb_eq. vm_compute. reflexivity.
  - apply stage1_eqb_eq. vm_compute. reflexivity.
  - apply lmf_eqb_eq. vm_compute. reflexivity.
  - intros lsmr. apply stage1_eqb_eq. vm_compute. reflexivity.
Qed.

(** The systems [get_loom] builds for the two groups of [lit_ramp] have a
    zero right-hand side, so [zero_lsmr] answers them as a minimum-norm
    solver does. *)
Lemma zero_lsmr_solves_lit (g : nat) :
  g < 2 ->
  let f := frame_at lit_ramp 0 g in
  let group_mask := cc_uniluminated_outliers f lit_mask (Q2Qc 5) in
  solves_min_norm (fst (loom_system f group_mask)) (snd (loom_system f group_mask))
    (zero_lsmr (fst (loom_system f group_mask)) (snd (loom_system f group_mask))).
Proof.
  intros Hg f group_mask.
  exists (map (map qz) [[2; 0; 1; 1]; [0; 2; 1; 1]; [1; 1; 2; 0]; [1; 1; 0; 2]]%Z),
    (repeat 0%Qc 4), (repeat 0%Qc 4).
  destruct g as [|[|g]]; [| |lia]; subst f group_mask;
    (split; [apply frame_eqb_eq; vm_compute; reflexivity|]);
    (split; [apply vec_eqb_eq; vm_compute; reflexivity|]);
    (split; [apply vec_eqb_eq; vm_compute; reflexivity|]);
    apply zero_rhs_min_norm.
Qed.

(** ** Instances on concrete arrays *)

Lemma ramp_shapeb_ok (ni ng nr nc : nat) (data : ramp) :
  ramp_shapeb ni ng nr nc data = true -> ramp_shape ni ng nr nc data.
Proof.
  unfold ramp_shapeb, ramp_shape. intros H.
  apply andb_prop in H. destruct H as [Hl Hf]. split.
  - now apply Nat.eqb_eq.
  - apply Forall_forall. intros integ Hin. rewrite forallb_forall in Hf.
    specialize (Hf integ Hin). apply andb_prop in Hf. destruct Hf as [Hg Hs].
    split; [now apply Nat.eqb_eq|].
    apply Forall_forall. intros f Hfin. rewrite forallb_forall in Hs.
    now apply has_shapeb_ok, Hs.
Qed.

Lemma is_real_rampb_ok (data : ramp) : is_real_rampb data = true -> is_real_ramp data.
Proof.
  unfold is_real_rampb, is_real_ramp. intros H.
  apply Forall_forall. intros integ Hin. rewrite forallb_forall in H.
  specialize (H integ Hin). apply Forall_forall. intros f Hf.
  rewrite forallb_forall in H. now apply is_realb_ok, H.
Qed.

Lemma get_uniluminated_mask_threshold_witness :
  (pix (get_uniluminated_mask bright_frame (Q2Qc 3)) 1 1 = zero <->
   exists v t, pix bright_frame 1 1 = num v /\
               illumination_level bright_frame (Q2Qc 3) 1 = num t /\ (t < v)%Qc) /\
  (pix (get_uniluminated_mask bright_frame (Q2Qc 3)) 1 1 = one <->
   pix (get_uniluminated_mask bright_frame (Q2Qc 3)) 1 1 <> zero) /\
  (forall v t, pix bright_frame 1 1 = num v ->
               illumination_level bright_frame (Q2Qc 3) 1 = num t -> (v <= t)%Qc ->
               pix (get_uniluminated_mask bright_frame (Q2Qc 3)) 1 1 = one).
Proof.
  apply (@get_uniluminated_mask_threshold 5 2 bright_frame (Q2Qc 3) 1 1).
  - apply has_shapeb_ok. reflexivity.
  - lia.
  - lia.
Defined.

Lemma get_uniluminated_mask_keeps_lower_half_witness :
  (forall r c v m, r < 5 -> c < 2 ->
     pix bright_frame r c = num v -> median (column c bright_frame) = num m ->
     (v <= m)%Qc -> pix (get_uniluminated_mask bright_frame (Q2Qc 3)) r c = one) /\
  (forall c, c < 2 ->
     (5 + 1) / 2 <= count_ones (column c (get_uniluminated_mask bright_frame (Q2Qc 3)))) /\
  (forall c, c < 2 -> 0 < 5 ->
     exists r, r < 5 /\ pix (get_uniluminated_mask bright_frame (Q2Qc 3)) r c = one).
Proof.
  apply (@get_uniluminated_mask_keeps_lower_half 5 2 bright_frame (Q2Qc 3)).
  - apply has_shapeb_ok. reflexivity.
  - discriminate.
Defined.

Lemma cc_uniluminated_outliers_tightens_witness :
  has_shape 5 2 (cc_uniluminated_outliers bright_frame bright_mask (Q2Qc 5)) /\
  forall r c, r < 5 -> c < 2 ->
    (pix (cc_uniluminated_outliers bright_frame bright_mask (Q2Qc 5)) r c = zero \/
     pix (cc_uniluminated_outliers bright_frame bright_mask (Q2Qc 5)) r c = one) /\
    (pix bright_mask r c = zero ->
     pix (cc_uniluminated_outliers bright_frame bright_mask (Q2Qc 5)) r c = zero) /\
    (pix (cc_uniluminated_outliers bright_frame bright_mask (Q2Qc 5)) r c = one ->
     pix bright_mask r c = one) /\
    ple (pix (cc_uniluminated_outliers bright_frame bright_mask (Q2Qc 5)) r c)
        (pix bright_mask r c).
Proof.
  apply (@cc_uniluminated_outliers_tightens 5 2 bright_frame bright_mask (Q2Qc 5)).
  - apply has_shapeb_ok. reflexivity.
  - apply has_shapeb_ok. reflexivity.
  - apply is_maskb_ok. vm_compute. reflexivity.
Defined.

Lemma get_roeba_parity_plus_column_witness :
  exists (O E : Qc) (col : list Qc),
    masked_median bright_frame bright_mask (odd_rows 5) (seq 0 2) = num O /\
    masked_median bright_frame bright_mask (even_rows 5) (seq 0 2) = num E /\
    length col = 2 /\
    (forall c, c < 2 ->
       masked_median bright_frame bright_mask (seq 0 5) [c] = num (nth c col 0%Qc)) /\
    (forall r c, r < 5 -> c < 2 ->
       pix (get_roeba bright_frame bright_mask) r c =
       num ((if Nat.odd r then O else E) + nth c col 0%Qc)%Qc) /\
    (forall r1 r2 c, r1 < 5 -> r2 < 5 -> c < 2 ->
       Nat.odd r1 = Nat.odd r2 ->
       pix (get_roeba bright_frame bright_mask) r1 c =
       pix (get_roeba bright_frame bright_mask) r2 c).
Proof.
  apply (@get_roeba_parity_plus_column 5 2 bright_frame bright_mask).
  - apply has_shapeb_ok. reflexivity.
  - apply has_shapeb_ok. reflexivity.
  - apply is_maskb_ok. vm_compute. reflexivity.
  - apply is_realb_ok. reflexivity.
  - exists 1, 0. repeat split; lia.
  - exists 0, 0. repeat split; lia.
  - intros c Hc. exists 0. split; [lia|].
    destruct c as [|[|c]]; [| |lia]; apply px_eqb_eq; vm_compute; reflexivity.
Defined.

Lemma get_last_minus_first_slope_witness :
  exists lmf median_lmf,
    get_last_minus_first two_groups (option_map Z.of_nat None)
      (option_map Z.of_nat (Some 1))
    = Ok (lmf, median_lmf) /\
    length lmf = 1 /\
    (forall i r c, i < 1 -> r < 1 -> c < 3 ->
       pix (nth i lmf []) r c =
       psub (psub (pix (frame_at two_groups i (last_group_of 2 (Some 1))) r c)
                  (nanmedian (flatten (frame_at two_groups i (last_group_of 2 (Some 1))))))
            (psub (pix (frame_at two_groups i (first_group_of None)) r c)
                  (nanmedian (flatten (frame_at two_groups i (first_group_of None)))))) /\
    (forall r c, r < 1 -> c < 3 ->
       pix median_lmf r c = nanmedian (map (fun f => pix f r c) lmf)) /\
    (is_real_ramp two_groups ->
     forall same_min same_max : option nat,
       first_group_of same_min = last_group_of 2 same_max ->
       last_group_of 2 same_max < 2 ->
       exists zeros median_zeros,
         get_last_minus_first two_groups (option_map Z.of_nat same_min)
           (option_map Z.of_nat same_max)
         = Ok (zeros, median_zeros) /\
         length zeros = 1 /\
         forall i r c, i < 1 -> r < 1 -> c < 3 -> pix (nth i zeros []) r c = zero).
Proof.
  apply (@get_last_minus_first_slope 1 2 1 3 two_groups None (Some 1)).
  - apply ramp_shapeb_ok. reflexivity.
  - simpl. lia.
  - simpl. lia.
Defined.

Lemma get_last_minus_first_index_errors_witness :
  (forall mn mx, in_axis 2 mn -> in_axis 2 mx ->
     exists median_lmf,
       get_last_minus_first two_groups (Some mn) (Some mx)
       = Ok (map (slope two_groups (position 2 mn) (position 2 mx)) (seq 0 1),
             median_lmf)) /\
  (forall mn mx, ~ (in_axis 2 mn /\ in_axis 2 mx) ->
     get_last_minus_first two_groups (Some mn) (Some mx) = Raise IndexError).
Proof.
  apply (@get_last_minus_first_index_errors 1 2 1 3 two_groups).
  - apply ramp_shapeb_ok. reflexivity.
  - lia.
Defined.





Lemma get_loom_normal_equations_witness :
  let A := fst (loom_system half_frame half_mask) in
  let b := snd (loom_system half_frame half_mask) in
  let x := half_lsmr A b in
  has_shape (2 + 2) (2 + 2) A /\ length b = 2 + 2 /\
  (pix A 0 0 = of_nat (masked_count half_mask (odd_rows 2) (seq 0 2)) /\
   pix A 0 1 = zero /\
   (forall j, j < 2 -> pix A 0 (j + 2) = of_nat (masked_count half_mask (odd_rows 2) [j])) /\
   nth 0 b NaN = num (masked_sum half_frame half_mask (odd_rows 2) (seq 0 2))) /\
  (pix A 1 0 = zero /\
   pix A 1 1 = of_nat (masked_count half_mask (even_rows 2) (seq 0 2)) /\
   (forall j, j < 2 -> pix A 1 (j + 2) = of_nat (masked_count half_mask (even_rows 2) [j])) /\
   nth 1 b NaN = num (masked_sum half_frame half_mask (even_rows 2) (seq 0 2))) /\
  (forall j, j < 2 ->
     pix A (j + 2) 0 = of_nat (masked_count half_mask (odd_rows 2) [j]) /\
     pix A (j + 2) 1 = of_nat (masked_count half_mask (even_rows 2) [j]) /\
     pix A (j + 2) (j + 2) = of_nat (masked_count half_mask (seq 0 2) [j]) /\
     (forall k, k < 2 -> k <> j -> pix A (j + 2) (k + 2) = zero) /\
     nth (j + 2) b NaN = num (masked_sum half_frame half_mask (seq 0 2) [j])) /\
  (length x = 2 + 2 ->
   exists loom,
     get_loom half_lsmr half_frame half_mask true
     = Ok (loom, if true then Some x else None) /\
     has_shape 2 2 loom /\
     forall r c, r < 2 -> c < 2 ->
       pix loom r c =
       padd (if Nat.odd r then nth 0 x NaN else nth 1 x NaN) (nth (c + 2) x NaN)).
Proof.
  apply (@get_loom_normal_equations half_lsmr 2 2 half_frame half_mask true).
  - apply has_shapeb_ok. reflexivity.
  - apply has_shapeb_ok. reflexivity.
  - apply is_maskb_ok. vm_compute. reflexivity.
  - apply is_realb_ok. reflexivity.
  - lia.
Defined.

(** With [min_group = max_group] the slopes of [two_groups] are zero. *)
Example get_last_minus_first_same_group :
  get_last_minus_first two_groups (Some 1%Z) (Some 1%Z)
  = Ok ([zframe [[0; 0; 0]]], zframe [[0; 0; 0]])%Z.
Proof. apply lmf_eqb_eq. vm_compute. reflexivity. Qed.

(** ** Lists *)

Lemma nth_map_lt (A B : Type) (f : A -> B) (l : list A) (i : nat) (d : B) (d' : A) :
  i < length l -> nth i (map f l) d = f (nth i l d').
Proof.
  revert i. induction l as [|x l IH]; intros [|i] Hi; simpl in *; try lia; auto.
  apply IH. lia.
Qed.

(** ** Frames, pixel by pixel *)

Lemma frame_ext (nr nc : nat) (a b : frame) :
  has_shape nr nc a -> has_shape nr nc b ->
  (forall r c, r < nr -> c < nc -> pix a r c = pix b r c) -> a = b.
Proof.
  intros Ha Hb H. apply (nth_ext _ _ [] []).
  - destruct Ha, Hb. congruence.
  - intros r Hr. assert (Hr' : r < nr) by (destruct Ha; lia).
    apply (nth_ext _ _ NaN NaN).
    + now rewrite (row_length Ha Hr'), (row_length Hb Hr').
    + intros c Hc. rewrite (row_length Ha Hr') in Hc. now apply H.
Qed.

Lemma is_mask_of_pix (nr nc : nat) (m : frame) :
  has_shape nr nc m ->
  (forall r c, r < nr -> c < nc -> pix m r c = zero \/ pix m r c = one) ->
  is_mask m.
Proof.
  intros Hm H. apply Forall_forall. intros row Hrow.
  apply In_nth with (d := []) in Hrow. destruct Hrow as (r & Hr & <-).
  assert (Hr' : r < nr) by (destruct Hm; lia).
  apply Forall_forall. intros x Hx.
  apply In_nth with (d := NaN) in Hx. destruct Hx as (c & Hc & <-).
  rewrite (row_length Hm Hr') in Hc. now apply H.
Qed.

Lemma has_shape_0 (nc : nat) (a : frame) : has_shape 0 nc a -> a = [].
Proof. intros [H _]. now destruct a. Qed.

Lemma get_uniluminated_mask_has_shape (nr nc : nat) (data : frame) (nsigma : Qc) :
  has_shape nr nc data -> has_shape nr nc (get_uniluminated_mask data nsigma).
Proof.
  intros Hd. destruct nr as [|nr].
  - rewrite (has_shape_0 Hd). split; [reflexivity|constructor].
  - apply get_uniluminated_mask_shape; auto. lia.
Qed.

(** ** [get_uniluminated_mask]: further properties *)

(** X1: whatever the frame holds (NaN included) and whatever [nsigma] is,
    [get_uniluminated_mask] returns an array of the shape of the frame all
    of whose entries are 0 or 1. *)
Theorem get_uniluminated_mask_is_mask (nr nc : nat) (data : frame) (nsigma : Qc) :
  has_shape nr nc data ->
  has_shape nr nc (get_uniluminated_mask data nsigma) /\
  is_mask (get_uniluminated_mask data nsigma).
Proof.
  intros Hd. split; [now apply get_uniluminated_mask_has_shape|].
  apply (@is_mask_of_pix nr nc); [now apply get_uniluminated_mask_has_shape|].
  intros r c Hr Hc. rewrite (get_uniluminated_mask_pix nsigma Hd Hr Hc).
  destruct (pgtb _ _); auto.
Qed.

Lemma has_nan_in (v : vec) : In NaN v -> has_nan v = true.
Proof.
  intros H. unfold has_nan. apply existsb_exists. exists NaN. auto.
Qed.

Lemma pgtb_nan_r (a : px) : pgtb a NaN = false.
Proof. now destruct a. Qed.

(** X2: one NaN in a column switches the detection off for the whole
    column: the column level is [np.median], which is NaN, and no pixel
    compares above NaN, so every pixel of the column is returned as 1. *)
Theorem get_uniluminated_mask_nan_column (nr nc : nat) (data : frame) (nsigma : Qc)
    (c : nat) :
  has_shape nr nc data -> c < nc ->
  (exists r, r < nr /\ pix data r c = NaN) ->
  forall r, r < nr -> pix (get_uniluminated_mask data nsigma) r c = one.
Proof.
  intros Hd Hc (r0 & Hr0 & Hnan) r Hr.
  rewrite (get_uniluminated_mask_pix nsigma Hd Hr Hc).
  assert (Hmed : median (column c data) = NaN).
  { unfold median. rewrite has_nan_in; auto.
    rewrite <- Hnan, <- nth_column. apply nth_In.
    rewrite length_column. destruct Hd. lia. }
  unfold illumination_level. rewrite Hmed. cbn [padd lift2 NaN].
  now rewrite pgtb_nan_r.
Qed.

Lemma Qc_level_mono (m n1 n2 s v : Qc) :
  (n1 <= n2)%Qc -> (0 <= s)%Qc -> (m + n2 * s < v)%Qc -> (m + n1 * s < v)%Qc.
Proof. intros H1 H2 H3. qc2q. nra. Qed.

(** X3: the mask grows with [nsigma]: a pixel kept (1) at some [nsigma] is
    kept at every larger one. *)
Theorem get_uniluminated_mask_monotone (nr nc : nat) (data : frame) (n1 n2 : Qc)
    (r c : nat) :
  has_shape nr nc data -> r < nr -> c < nc -> (n1 <= n2)%Qc ->
  pix (get_uniluminated_mask data n1) r c = one ->
  pix (get_uniluminated_mask data n2) r c = one.
Proof.
  intros Hd Hr Hc Hn.
  rewrite (get_uniluminated_mask_pix n1 Hd Hr Hc),
          (get_uniluminated_mask_pix n2 Hd Hr Hc).
  destruct (pgtb (pix data r c) (illumination_level data n2 c)) eqn:E2; auto.
  intros H1. apply pgtb_true in E2. destruct E2 as (v & t & Hv & Ht & Hlt).
  assert (E1 : pgtb (pix data r c) (illumination_level data n1 c) = true).
  { apply pgtb_true. unfold illumination_level in *.
    destruct (median (column c data)) as [m|]; [|discriminate].
    destruct (scaled_mad (map (fun x => psub x (Some m)) (column c data)))
      as [s|] eqn:Es; [|discriminate].
    exists v, (m + n1 * s)%Qc. repeat split; auto.
    cbn in Ht. injection Ht as <-.
    apply (Qc_level_mono Hn); auto. now apply (scaled_mad_nonneg _ Es). }
  rewrite E1 in H1. discriminate.
Qed.

(** ** [cc_uniluminated_outliers], pixel by pixel *)

Lemma masked_values_cons (data mask : frame) (r : nat) (rows : list nat) (c : nat) :
  masked_values data mask (r :: rows) [c] =
  (if is_zero (pix mask r c) then [] else [pix data r c])
  ++ masked_values data mask rows [c].
Proof. unfold masked_values. cbn [flat_map]. now rewrite app_nil_r. Qed.

Lemma drop_nan_map_masked (g : px -> px) (data mask : frame) (rows : list nat) (c : nat)
    (nan_data : frame) :
  g NaN = NaN ->
  (forall r, In r rows ->
     pix nan_data r c = if is_zero (pix mask r c) then NaN else pix data r c) ->
  drop_nan (map (fun r => g (pix nan_data r c)) rows) =
  drop_nan (map g (masked_values data mask rows [c])).
Proof.
  intros Hg H. induction rows as [|r rows IH]; [reflexivity|].
  assert (IH' := IH (fun r' Hr' => H r' (or_intror Hr'))).
  rewrite masked_values_cons, map_app, drop_nan_app, <- IH'.
  cbn [map]. rewrite (H r) by (simpl; auto).
  destruct (is_zero (pix mask r c)).
  - rewrite Hg. reflexivity.
  - cbn [app map]. destruct (g (pix data r c)); reflexivity.
Qed.

Lemma nth_column_medians (nr nc : nat) (data mask : frame) (c : nat) :
  has_shape nr nc data -> 0 < nr -> c < nc ->
  nth c (column_medians data mask) NaN = masked_median data mask (seq 0 nr) [c].
Proof.
  intros Hd Hpos Hc. unfold column_medians, nanmedian_axis0.
  rewrite (ncols_shape Hd Hpos), nth_map_seq by auto.
  apply (nanmedian_column mask Hd Hc).
Qed.

Lemma nth_column_mads (nr nc : nat) (data mask : frame) (c : nat) :
  has_shape nr nc data -> 0 < nr -> c < nc ->
  nth c (column_mads data mask) NaN = masked_mad data mask (seq 0 nr) [c].
Proof.
  intros Hd Hpos Hc.
  assert (Hnc : ncols data = nc) by now apply (ncols_shape Hd).
  unfold column_mads. rewrite Hnc. unfold nanmedian_axis0.
  rewrite nth_map_seq by auto.
  set (nan_data := nan_where_masked data mask).
  assert (Hn : has_shape nr nc nan_data) by now apply has_shape_nan_where_masked.
  assert (Hb : has_shape nr nc (broadcast_row psub nan_data (column_medians data mask))).
  { apply has_shape_broadcast_row; auto. rewrite length_column_medians. exact Hnc. }
  change (map (map pabs) (broadcast_row psub nan_data (column_medians data mask)))
    with (broadcast_scalar (fun x _ => pabs x)
            (broadcast_row psub nan_data (column_medians data mask)) NaN).
  rewrite (column_table c (has_shape_broadcast_scalar (fun x _ => pabs x) NaN Hb)).
  unfold masked_mad, nanmedian. f_equal.
  rewrite <- (@drop_nan_map_masked
                (fun x => pabs (psub x (masked_median data mask (seq 0 nr) [c])))
                data mask (seq 0 nr) c nan_data).
  - f_equal. apply map_ext_in. intros r Hr. apply in_seq in Hr.
    rewrite (pix_broadcast_scalar _ NaN Hb) by lia.
    rewrite (@pix_broadcast_row nr nc) by
      (auto; try lia; rewrite length_column_medians; exact Hnc).
    now rewrite (nth_column_medians mask Hd Hpos Hc).
  - reflexivity.
  - intros r Hr. apply in_seq in Hr. subst nan_data.
    apply (pix_nan_where_masked mask Hd); auto; lia.
Qed.

Lemma cc_uniluminated_outliers_pix (nr nc : nat) (data mask : frame) (nsigma : Qc)
    (r c : nat) :
  has_shape nr nc data -> has_shape nr nc mask -> r < nr -> c < nc ->
  pix (cc_uniluminated_outliers data mask nsigma) r c =
  pmul (pix mask r c)
    (if pgtb (pabs (psub (pix data r c) (masked_median data mask (seq 0 nr) [c])))
          (outlier_level data mask nsigma c)
     then zero else one).
Proof.
  intros Hd Hm Hr Hc.
  assert (Hpos : 0 < nr) by lia.
  assert (Hnr : nrows data = nr) by apply Hd.
  assert (Hnc : ncols data = nc) by now apply (ncols_shape Hd).
  unfold cc_uniluminated_outliers, outlier_level. rewrite Hnr, Hnc.
  set (cond := map _ _).
  assert (Hnew : has_shape nr nc (assign_at (where2 cond) zero (full nr nc one)))
    by apply has_shape_assign_at, has_shape_full.
  rewrite (pix_map2 pmul Hm Hnew Hr Hc). f_equal.
  rewrite (pix_assign_where cond zero (has_shape_full nr nc one) Hr Hc).
  rewrite pix_full by auto.
  replace (nth c (nth r cond []) false)
    with (pgtb (pabs (psub (pix data r c) (masked_median data mask (seq 0 nr) [c])))
            (pmul (pmul (num nsigma) (masked_mad data mask (seq 0 nr) [c]))
               (num mad_scale))); [reflexivity|].
  subst cond.
  assert (Hb : has_shape nr nc (broadcast_row psub data (column_medians data mask))).
  { apply has_shape_broadcast_row; auto. rewrite length_column_medians. exact Hnc. }
  change (map (map pabs) (broadcast_row psub data (column_medians data mask)))
    with (broadcast_scalar (fun x _ => pabs x)
            (broadcast_row psub data (column_medians data mask)) NaN).
  set (dev := broadcast_scalar _ _ _).
  assert (Hdev : has_shape nr nc dev)
    by (subst dev; now apply has_shape_broadcast_scalar).
  rewrite (nth_map_lt _ _ _ []) by (destruct Hdev; lia).
  rewrite (nth_zip_with _ _ _ _ NaN NaN).
  - fold (pix dev r c). subst dev.
    rewrite (pix_broadcast_scalar _ NaN Hb Hr Hc).
    rewrite (@pix_broadcast_row nr nc) by
      (auto; rewrite length_column_medians; exact Hnc).
    rewrite (nth_column_medians mask Hd Hpos Hc).
    rewrite (nth_map_lt _ _ _ NaN)
      by (unfold column_mads; rewrite length_nanmedian_axis0; lia).
    now rewrite (nth_column_mads mask Hd Hpos Hc).
  - now rewrite (row_length Hdev Hr).
  - rewrite length_map. unfold column_mads. rewrite length_nanmedian_axis0. lia.
Qed.

Lemma pmul_zero_r_mask (a : px) : a = zero \/ a = one -> pmul a zero = zero.
Proof. intros [-> | ->]; apply px_eqb_eq; reflexivity. Qed.

Lemma pmul_one_r_mask (a : px) : a = zero \/ a = one -> pmul a one = a.
Proof. intros [-> | ->]; apply px_eqb_eq; reflexivity. Qed.

Lemma pgtb_abs_true (a med level : px) :
  pgtb (pabs (psub a med)) level = true <->
  exists v m t, a = num v /\ med = num m /\ level = num t /\ (t < Qcabs (v - m))%Qc.
Proof.
  rewrite pgtb_true. split.
  - intros (d & t & Hd & Ht & Hlt).
    destruct a as [v|], med as [m|]; try discriminate.
    cbn in Hd. injection Hd as <-. exists v, m, t. auto.
  - intros (v & m & t & -> & -> & -> & Hlt).
    exists (Qcabs (v - m)), t. auto.
Qed.

(** X5: the exact rule of the outlier rejection.  A pixel of the updated
    mask is 0 exactly when it was 0 in the input mask, or when its value
    deviates from the median of the background pixels of its column by
    more than [nsigma * 1.4826] times their median absolute deviation
    (strictly; the test fails as soon as the value, the median or the
    deviation is NaN).  Every other pixel is 1. *)
Theorem cc_uniluminated_outliers_criterion (nr nc : nat) (data mask : frame)
    (nsigma : Qc) (r c : nat) :
  has_shape nr nc data -> has_shape nr nc mask -> is_mask mask ->
  r < nr -> c < nc ->
  let updated := cc_uniluminated_outliers data mask nsigma in
  let med := masked_median data mask (seq 0 nr) [c] in
  let level :=
    pmul (pmul (num nsigma) (masked_mad data mask (seq 0 nr) [c])) (num mad_scale) in
  let outlier :=
    exists v m t, pix data r c = num v /\ med = num m /\ level = num t /\
                  (t < Qcabs (v - m))%Qc in
  (pix updated r c = zero <-> pix mask r c = zero \/ outlier) /\
  (pix updated r c = one <-> pix mask r c = one /\ ~ outlier).
Proof.
  intros Hd Hm H01 Hr Hc updated med level outlier.
  subst updated. rewrite (cc_uniluminated_outliers_pix nsigma Hd Hm Hr Hc).
  unfold outlier_level. replace (nrows data) with nr by (symmetry; apply Hd).
  fold med level.
  assert (Hout : pgtb (pabs (psub (pix data r c) med)) level = true <-> outlier)
    by apply pgtb_abs_true.
  destruct (pgtb (pabs (psub (pix data r c) med)) level).
  - assert (Ho : outlier) by now apply Hout.
    rewrite pmul_zero_r_mask by apply (is_mask_pix Hm H01 Hr Hc).
    split; split; auto.
    + intros H. now apply zero_neq_one in H.
    + intros [_ H]. contradiction.
  - assert (Ho : ~ outlier) by (intros H; apply Hout in H; discriminate).
    rewrite pmul_one_r_mask by apply (is_mask_pix Hm H01 Hr Hc).
    split; split; auto.
    + intros [H|H]; [exact H|contradiction].
    + tauto.
Qed.

(** X6: a pixel whose value is NaN is never rejected: the updated mask
    keeps there the entry of the input mask. *)
Theorem cc_uniluminated_outliers_keeps_nan (nr nc : nat) (data mask : frame)
    (nsigma : Qc) (r c : nat) :
  has_shape nr nc data -> has_shape nr nc mask -> is_mask mask ->
  r < nr -> c < nc -> pix data r c = NaN ->
  pix (cc_uniluminated_outliers data mask nsigma) r c = pix mask r c.
Proof.
  intros Hd Hm H01 Hr Hc Hnan.
  rewrite (cc_uniluminated_outliers_pix nsigma Hd Hm Hr Hc), Hnan.
  cbn [psub lift2 pabs NaN pgtb].
  apply pmul_one_r_mask, (is_mask_pix Hm H01 Hr Hc).
Qed.

Lemma count_ones_cons (x : px) (v : vec) :
  count_ones (x :: v) = (if is_one x then 1 else 0) + count_ones v.
Proof. unfold count_ones. simpl. now destruct (is_one x). Qed.

Lemma Qc_level_above (n d x : Qc) :
  (1 <= n)%Qc -> (0 <= d)%Qc -> (x <= d)%Qc -> ~ (n * d * mad_scale < x)%Qc.
Proof.
  intros Hn Hd Hx Hlt. unfold mad_scale in *. qc2q.
  assert (H : (d <= n * d)%Q) by nra. lra.
Qed.

Section KeepsHalf.

Variables (nr nc : nat) (data mask : frame) (nsigma : Qc) (c : nat).
Hypothesis Hd : has_shape nr nc data.
Hypothesis Hm : has_shape nr nc mask.
Hypothesis H01 : is_mask mask.
Hypothesis Hc : c < nc.
Hypothesis Hn : (1 <= nsigma)%Qc.

Let med := masked_median data mask (seq 0 nr) [c].
Let deviations (rows : list nat) : list Qc :=
  drop_nan (map (fun x => pabs (psub x med)) (masked_values data mask rows [c])).
Let updated := cc_uniluminated_outliers data mask nsigma.

Lemma deviations_cons (r : nat) (rows : list nat) :
  deviations (r :: rows) =
  (if is_zero (pix mask r c) then []
   else drop_nan [pabs (psub (pix data r c) med)]) ++ deviations rows.
Proof.
  unfold deviations. rewrite masked_values_cons, map_app, drop_nan_app.
  now destruct (is_zero (pix mask r c)).
Qed.

Lemma kept_rows (d : Qc) (rows : list nat) :
  masked_mad data mask (seq 0 nr) [c] = num d ->
  (forall r, In r rows -> r < nr) ->
  length (filter (fun x => Qcleb x d) (deviations rows))
  + count_ones (map (fun r => pix mask r c) rows)
  <= count_ones (map (fun r => pix updated r c) rows) + length (deviations rows)
  /\ length (deviations rows) <= count_ones (map (fun r => pix mask r c) rows).
Proof.
  intros Hmad Hrows.
  assert (Hd0 : (0 <= d)%Qc).
  { unfold masked_mad, nanmedian in Hmad. fold med in Hmad.
    refine (medianQ_nonneg _ Hmad).
    apply (drop_nan_abs_nonneg (fun x => psub x med)). }
  induction rows as [|r rows IH]; [unfold deviations, count_ones; simpl; lia|].
  assert (Hr : r < nr) by (apply Hrows; simpl; auto).
  destruct (IH (fun r' Hr' => Hrows r' (or_intror Hr'))) as [IH1 IH2].
  rewrite deviations_cons. cbn [map]. rewrite !count_ones_cons.
  unfold updated at 1. rewrite (cc_uniluminated_outliers_pix nsigma Hd Hm Hr Hc).
  unfold outlier_level. replace (nrows data) with nr by (symmetry; apply Hd).
  fold med. rewrite Hmad.
  destruct (is_mask_pix Hm H01 Hr Hc) as [E|E]; rewrite E.
  - rewrite is_zero_zero, is_one_zero. cbn [app].
    rewrite pmul_zero_l by (destruct (pgtb _ _); auto).
    rewrite is_one_zero. lia.
  - rewrite is_zero_one, is_one_one.
    rewrite pmul_one_l by (destruct (pgtb _ _); auto).
    destruct (pabs (psub (pix data r c) med)) as [x|] eqn:Ex.
    + cbn [drop_nan app filter length].
      destruct (Qcleb x d) eqn:Ele.
      * replace (pgtb (Some x) (pmul (pmul (num nsigma) (num d)) (num mad_scale)))
          with false.
        -- rewrite is_one_one. cbn [length]. lia.
        -- symmetry. cbn. destruct (Qcltb _ x) eqn:El; auto.
           apply Qcltb_lt in El. apply Qcleb_le in Ele.
           now apply (Qc_level_above Hn Hd0 Ele) in El.
      * destruct (pgtb _ _); [rewrite is_one_zero|rewrite is_one_one]; lia.
    + cbn [drop_nan app pgtb]. rewrite is_one_one. lia.
Qed.

Lemma kept_rows_undefined (rows : list nat) :
  masked_mad data mask (seq 0 nr) [c] = NaN ->
  (forall r, In r rows -> r < nr) ->
  map (fun r => pix updated r c) rows = map (fun r => pix mask r c) rows.
Proof.
  intros Hmad Hrows. apply map_ext_in. intros r Hr. apply Hrows in Hr.
  unfold updated. rewrite (cc_uniluminated_outliers_pix nsigma Hd Hm Hr Hc).
  unfold outlier_level. replace (nrows data) with nr by (symmetry; apply Hd).
  rewrite Hmad. cbn [pmul lift2 num NaN]. rewrite pgtb_nan_r.
  apply pmul_one_r_mask, (is_mask_pix Hm H01 Hr Hc).
Qed.

Lemma kept_half :
  (count_ones (column c mask) + 1) / 2 <= count_ones (column c updated).
Proof.
  assert (Hu : has_shape nr nc updated).
  { unfold updated, cc_uniluminated_outliers.
    destruct (Nat.eq_dec nr 0) as [Hz|Hpos].
    - subst nr. rewrite (has_shape_0 Hm). split; [reflexivity|constructor].
    - replace (nrows data) with nr by (symmetry; apply Hd).
      rewrite (ncols_shape Hd) by lia.
      apply has_shape_map2; auto. apply has_shape_assign_at, has_shape_full. }
  rewrite (column_table c Hm), (column_table c Hu).
  assert (Hrows : forall r, In r (seq 0 nr) -> r < nr)
    by (intros r Hr; apply in_seq in Hr; lia).
  destruct (masked_mad data mask (seq 0 nr) [c]) as [d|] eqn:Hmad.
  - destruct (kept_rows (seq 0 nr) Hmad Hrows) as [H1 H2].
    assert (H3 := @count_le_median (deviations (seq 0 nr)) d).
    unfold masked_mad, nanmedian in Hmad. fold med in Hmad.
    specialize (H3 Hmad). lia.
  - rewrite (kept_rows_undefined (seq 0 nr)); auto.
    lia.
Qed.

End KeepsHalf.

(** X7: with [nsigma >= 1] (the default is 5) the rejection never removes
    more than half of the background pixels of a column: of the [n] pixels
    of a column that are 1 in the input mask, at least [ceil(n / 2)] are
    still 1 in the updated mask. *)
Theorem cc_uniluminated_outliers_keeps_half (nr nc : nat) (data mask : frame)
    (nsigma : Qc) (c : nat) :
  has_shape nr nc data -> has_shape nr nc mask -> is_mask mask -> c < nc ->
  (1 <= nsigma)%Qc ->
  (count_ones (column c mask) + 1) / 2
  <= count_ones (column c (cc_uniluminated_outliers data mask nsigma)).
Proof. intros Hd Hm H01 Hc Hn. exact (kept_half Hd Hm H01 Hc Hn). Qed.

(** ** [get_roeba]: further properties *)

Lemma nan_where_masked_agree (nr nc : nat) (data data' mask : frame) :
  has_shape nr nc data -> has_shape nr nc data' ->
  (forall r c, r < nr -> c < nc -> pix mask r c <> zero ->
     pix data r c = pix data' r c) ->
  nan_where_masked data mask = nan_where_masked data' mask.
Proof.
  intros Hd Hd' H. apply (@frame_ext nr nc); try now apply has_shape_nan_where_masked.
  intros r c Hr Hc.
  rewrite (pix_nan_where_masked mask Hd Hr Hc), (pix_nan_where_masked mask Hd' Hr Hc).
  destruct (is_zero (pix mask r c)) eqn:E; [reflexivity|].
  apply H; auto. intros Hz. rewrite Hz in E. discriminate.
Qed.

Lemma same_shape_dims (nr nc : nat) (a b : frame) :
  has_shape nr nc a -> has_shape nr nc b -> nrows a = nrows b /\ ncols a = ncols b.
Proof.
  intros Ha Hb. split; [destruct Ha, Hb; unfold nrows; congruence|].
  destruct (Nat.eq_dec nr 0) as [Hz|Hpos].
  - subst nr. now rewrite (has_shape_0 Ha), (has_shape_0 Hb).
  - rewrite (ncols_shape Ha), (ncols_shape Hb) by lia. reflexivity.
Qed.

(** X8: the pixels left out by the mask never enter the ROEBA model: two
    frames that agree wherever the mask is not 0 get the same model,
    whatever they hold elsewhere (NaN included). *)
Theorem get_roeba_ignores_masked (nr nc : nat) (data data' mask : frame) :
  has_shape nr nc data -> has_shape nr nc data' -> has_shape nr nc mask ->
  (forall r c, r < nr -> c < nc -> pix mask r c <> zero ->
     pix data r c = pix data' r c) ->
  get_roeba data mask = get_roeba data' mask.
Proof.
  intros Hd Hd' Hm H. unfold get_roeba.
  destruct (same_shape_dims Hd Hd') as [-> ->].
  now rewrite (nan_where_masked_agree mask Hd Hd' H).
Qed.

Lemma in_seq_lt (n r : nat) : In r (seq 0 n) -> r < n.
Proof. intros H. apply in_seq in H. lia. Qed.

Lemma masked_values_empty (data mask : frame) (rows cols : list nat) :
  (forall r c, In r rows -> In c cols -> pix mask r c = zero) ->
  masked_values data mask rows cols = [].
Proof.
  intros H. unfold masked_values.
  induction rows as [|r rows IH]; [reflexivity|].
  cbn [flat_map]. rewrite IH by (intros; apply H; simpl; auto).
  rewrite app_nil_r.
  assert (Hr : forall c, In c cols -> pix mask r c = zero)
    by (intros; apply H; simpl; auto).
  clear H IH. induction cols as [|c cols IHc]; [reflexivity|].
  cbn [flat_map]. rewrite (Hr c) by (simpl; auto). rewrite is_zero_zero.
  apply IHc. intros; apply Hr; simpl; auto.
Qed.

Lemma padd_nan_r (a : px) : padd a NaN = NaN.
Proof. now destruct a. Qed.

(** X10: where the mask leaves no background pixel the ROEBA model is NaN,
    not 0: a column whose mask entries are all 0 makes the model NaN down
    that column, and a parity (the even rows, or the odd rows) whose mask
    entries are all 0 makes the model NaN on every row of that parity. *)
Theorem get_roeba_nan_without_background (nr nc : nat) (data mask : frame) :
  has_shape nr nc data -> has_shape nr nc mask ->
  (forall c, c < nc -> (forall r, r < nr -> pix mask r c = zero) ->
     forall r, r < nr -> pix (get_roeba data mask) r c = NaN) /\
  ((forall r c, r < nr -> c < nc -> Nat.even r = true -> pix mask r c = zero) ->
   forall r c, r < nr -> c < nc -> Nat.even r = true ->
     pix (get_roeba data mask) r c = NaN) /\
  ((forall r c, r < nr -> c < nc -> Nat.odd r = true -> pix mask r c = zero) ->
   forall r c, r < nr -> c < nc -> Nat.odd r = true ->
     pix (get_roeba data mask) r c = NaN).
Proof.
  intros Hd Hm. split; [|split].
  - intros c Hc Hz r Hr. rewrite (get_roeba_pix mask Hd Hr Hc).
    unfold masked_median at 3. rewrite masked_values_empty.
    + apply padd_nan_r.
    + intros r' c' Hr' [<-|[]]. apply Hz. now apply in_seq_lt.
  - intros Hz r c Hr Hc He. rewrite (get_roeba_pix mask Hd Hr Hc).
    rewrite <- Nat.negb_even, He. cbn [negb].
    unfold masked_median at 1. rewrite masked_values_empty; [reflexivity|].
    intros r' c' Hr' Hc'. apply in_even_rows in Hr'. apply in_seq_lt in Hc'.
    apply Hz; tauto.
  - intros Hz r c Hr Hc Ho. rewrite (get_roeba_pix mask Hd Hr Hc), Ho.
    unfold masked_median at 1. rewrite masked_values_empty; [reflexivity|].
    intros r' c' Hr' Hc'. apply in_odd_rows in Hr'. apply in_seq_lt in Hc'.
    apply Hz; tauto.
Qed.

(** ** [get_loom]: the structure of the normal equations *)

Lemma normal_entry_sym (nO nE : px) (nodd_j neven_j nrows_j : vec) (i k : nat) :
  normal_entry nO nE nodd_j neven_j nrows_j i k =
  normal_entry nO nE nodd_j neven_j nrows_j k i.
Proof.
  destruct i as [|[|i]], k as [|[|k]]; cbn [normal_entry]; auto.
  rewrite (Nat.eqb_sym k i). destruct (Nat.eqb_spec i k) as [->|]; auto.
Qed.

(** X11: the matrix that [get_loom] hands to the solver is symmetric,
    whatever the frame and the mask hold. *)
Theorem loom_system_symmetric (nr nc : nat) (data mask : frame) (i k : nat) :
  has_shape nr nc data -> has_shape nr nc mask ->
  i < ncols data + 2 -> k < ncols data + 2 ->
  pix (fst (loom_system data mask)) i k = pix (fst (loom_system data mask)) k i.
Proof.
  intros _ _ Hi Hk. rewrite !loom_matrix_pix by auto. apply normal_entry_sym.
Qed.

Lemma padd_gauge (a b : px) (t : Qc) :
  padd (padd a (pmul (num t) one)) (padd b (pmul (num t) (num (- (1))%Qc))) = padd a b.
Proof.
  destruct a as [x|], b as [y|]; cbn; auto. apply f_equal. ring.
Qed.

Lemma nth_level_shift_low (nc k : nat) : k < 2 -> nth k (level_shift nc) NaN = one.
Proof. intros Hk. destruct k as [|[|k]]; [reflexivity|reflexivity|lia]. Qed.

Lemma nth_level_shift_high (nc c : nat) :
  c < nc -> nth (c + 2) (level_shift nc) NaN = num (- (1))%Qc.
Proof.
  intros Hc. replace (c + 2) with (S (S c)) by lia. unfold level_shift.
  cbn [nth]. now apply nth_repeat_lt.
Qed.

Lemma length_level_shift (nc : nat) : length (level_shift nc) = nc + 2.
Proof. unfold level_shift. cbn [length]. rewrite repeat_length. lia. Qed.

(** X13: the model depends on the parameters only through the sums
    [O + a_j] and [E + a_j]: two solvers whose answers differ by a multiple
    of [(1, 1, -1, ..., -1)] give the same model, pixel for pixel. *)
Theorem get_loom_level_shift (lsmr lsmr' : frame -> vec -> vec) (nr nc : nat)
    (data mask : frame) (t : Qc) :
  has_shape nr nc data -> has_shape nr nc mask -> 0 < nr ->
  let A := fst (loom_system data mask) in
  let b := snd (loom_system data mask) in
  length (lsmr A b) = nc + 2 ->
  lsmr' A b =
  zip_with padd (lsmr A b) (map (fun d => pmul (num t) d) (level_shift nc)) ->
  exists loom,
    get_loom lsmr data mask false = Ok (loom, None) /\
    get_loom lsmr' data mask false = Ok (loom, None).
Proof.
  intros Hd _ Hpos A b Hx Hx'.
  assert (Hlen' : length (lsmr' A b) = nc + 2).
  { rewrite Hx', length_zip_with, length_map, length_level_shift. lia. }
  destruct (get_loom_model lsmr mask Hd Hpos false Hx) as (loom & E & Hs & Hp).
  destruct (get_loom_model lsmr' mask Hd Hpos false Hlen') as (loom' & E' & Hs' & Hp').
  exists loom. split; [exact E|]. rewrite E'. do 2 f_equal.
  apply (@frame_ext nr nc); auto. intros r c Hr Hc.
  rewrite (Hp r c Hr Hc), (Hp' r c Hr Hc).
  fold A b. rewrite Hx'.
  assert (Hn : forall k, k < nc + 2 ->
            nth k (zip_with padd (lsmr A b)
                     (map (fun d => pmul (num t) d) (level_shift nc))) NaN =
            padd (nth k (lsmr A b) NaN) (pmul (num t) (nth k (level_shift nc) NaN))).
  { intros k Hk. rewrite (nth_zip_with _ _ _ _ NaN NaN).
    - f_equal. apply (nth_map_lt _ _ _ NaN). rewrite length_level_shift. lia.
    - lia.
    - rewrite length_map, length_level_shift. lia. }
  rewrite (Hn (c + 2)) by lia. rewrite nth_level_shift_high by auto.
  destruct (Nat.odd r).
  - rewrite (Hn 0) by lia. rewrite nth_level_shift_low by lia. apply padd_gauge.
  - rewrite (Hn 1) by lia. rewrite nth_level_shift_low by lia. apply padd_gauge.
Qed.

(** *** Counting by columns and by parity *)

Lemma list_sum_add (A : Type) (f g : A -> nat) (l : list A) :
  list_sum (map (fun x => f x + g x) l) = list_sum (map f l) + list_sum (map g l).
Proof. induction l as [|x l IH]; simpl; lia. Qed.

Lemma count_ones_split (A : Type) (f : A -> px) (l : list A) :
  count_ones (map f l) = list_sum (map (fun x => count_ones [f x]) l).
Proof.
  induction l as [|x l IH]; [reflexivity|].
  cbn [map list_sum fold_right]. rewrite count_ones_cons, IH.
  unfold count_ones at 2. cbn [filter]. now destruct (is_one (f x)).
Qed.

Lemma masked_count_cons (mask : frame) (r : nat) (rows cols : list nat) :
  masked_count mask (r :: rows) cols =
  count_ones (map (fun c => pix mask r c) cols) + masked_count mask rows cols.
Proof. reflexivity. Qed.

Lemma masked_count_by_column (mask : frame) (rows cols : list nat) :
  masked_count mask rows cols =
  list_sum (map (fun c => masked_count mask rows [c]) cols).
Proof.
  induction rows as [|r rows IH].
  - unfold masked_count. simpl. induction cols; simpl; auto.
  - rewrite masked_count_cons, IH, count_ones_split, <- list_sum_add.
    f_equal.
Qed.

Lemma masked_count_app (mask : frame) (rows rows' cols : list nat) :
  masked_count mask (rows ++ rows') cols =
  masked_count mask rows cols + masked_count mask rows' cols.
Proof.
  unfold masked_count. now rewrite map_app, list_sum_app.
Qed.

Lemma even_rows_S (n : nat) :
  even_rows (S n) = if Nat.even n then even_rows n ++ [n] else even_rows n.
Proof.
  unfold even_rows. destruct (Nat.even n) eqn:E.
  - apply Nat.even_spec in E. destruct E as [m ->].
    replace ((S (2 * m) + 1) / 2) with (S m) by lia.
    replace ((2 * m + 1) / 2) with m by lia.
    rewrite seq_S, map_app. reflexivity.
  - assert (O : Nat.odd n = true) by (rewrite <- Nat.negb_even, E; reflexivity).
    apply Nat.odd_spec in O. destruct O as [m ->].
    f_equal. f_equal. lia.
Qed.

Lemma odd_rows_S (n : nat) :
  odd_rows (S n) = if Nat.even n then odd_rows n else odd_rows n ++ [n].
Proof.
  unfold odd_rows. destruct (Nat.even n) eqn:E.
  - apply Nat.even_spec in E. destruct E as [m ->].
    f_equal. f_equal. lia.
  - assert (O : Nat.odd n = true) by (rewrite <- Nat.negb_even, E; reflexivity).
    apply Nat.odd_spec in O. destruct O as [m ->].
    replace (S (2 * m + 1) / 2) with (S m) by lia.
    replace ((2 * m + 1) / 2) with m by lia.
    rewrite seq_S, map_app. reflexivity.
Qed.

Lemma masked_count_by_parity (mask : frame) (nr : nat) (cols : list nat) :
  masked_count mask (seq 0 nr) cols =
  masked_count mask (odd_rows nr) cols + masked_count mask (even_rows nr) cols.
Proof.
  induction nr as [|n IH]; [reflexivity|].
  rewrite seq_S, masked_count_app, IH, even_rows_S, odd_rows_S.
  destruct (Nat.even n); rewrite masked_count_app; cbn [Nat.add]; lia.
Qed.

(** *** The system is singular *)

Lemma seq_two (n : nat) : seq 0 (n + 2) = 0 :: 1 :: map (fun j => j + 2) (seq 0 n).
Proof.
  replace (n + 2) with (S (S n)) by lia. cbn [seq]. do 2 f_equal.
  rewrite <- seq_shift, <- seq_shift, map_map.
  apply map_ext. intros j. lia.
Qed.

Lemma zip_with_repeat (A : Type) (g : A -> px) (v : px) (l : list A) (n : nat) :
  length l = n ->
  zip_with pmul (map g l) (repeat v n) = map (fun j => pmul (g j) v) l.
Proof.
  revert n. induction l as [|x l IH]; intros n Hn; [reflexivity|].
  destruct n as [|n]; [discriminate|]. cbn [map repeat zip_with].
  f_equal. apply IH. simpl in Hn. lia.
Qed.

Lemma pdot_row (f : nat -> px) (nc : nat) :
  pdot (map f (seq 0 (nc + 2))) (level_shift nc) =
  padd (pmul (f 0) one)
    (padd (pmul (f 1) one)
       (psum (map (fun j => pmul (f (j + 2)) (num (- (1))%Qc)) (seq 0 nc)))).
Proof.
  rewrite seq_two. unfold pdot, level_shift. cbn [map zip_with].
  rewrite !psum_cons, map_map. do 3 f_equal.
  apply zip_with_repeat, length_seq.
Qed.

Lemma pmul_padd_distr (a b c : px) : pmul (padd a b) c = padd (pmul a c) (pmul b c).
Proof.
  destruct a as [x|], b as [y|], c as [z|]; cbn; auto. apply f_equal. ring.
Qed.

Lemma pmul_zero_minus : pmul zero (num (- (1))%Qc) = zero.
Proof. apply px_eqb_eq. reflexivity. Qed.

Lemma psum_scaled_counts (A : Type) (g : A -> nat) (l : list A) :
  psum (map (fun j => pmul (of_nat (g j)) (num (- (1))%Qc)) l) =
  pmul (of_nat (list_sum (map g l))) (num (- (1))%Qc).
Proof.
  induction l as [|x l IH].
  - cbn [map list_sum fold_right]. rewrite psum_nil, of_nat_0.
    symmetry. apply pmul_zero_minus.
  - cbn [map list_sum fold_right]. rewrite psum_cons, IH.
    now rewrite <- pmul_padd_distr, of_nat_add.
Qed.

Lemma psum_diagonal (j : nat) (X : px) (a n : nat) :
  psum (map (fun k => pmul (if j =? k then X else zero) (num (- (1))%Qc)) (seq a n)) =
  if (a <=? j) && (j <? a + n) then pmul X (num (- (1))%Qc) else zero.
Proof.
  revert a. induction n as [|n IH]; intros a.
  - cbn [seq map]. rewrite psum_nil.
    destruct (Nat.leb_spec a j), (Nat.ltb_spec j (a + 0)); cbn [andb]; auto; lia.
  - cbn [seq map]. rewrite psum_cons, IH.
    destruct (Nat.eqb_spec j a) as [->|Hne].
    + replace (S a <=? a) with false by (symmetry; apply Nat.leb_gt; lia).
      cbn [andb]. rewrite padd_zero_r.
      replace (a <=? a) with true by (symmetry; apply Nat.leb_le; lia).
      replace (a <? a + S n) with true by (symmetry; apply Nat.ltb_lt; lia).
      reflexivity.
    + rewrite pmul_zero_minus, padd_zero_l.
      destruct (Nat.leb_spec (S a) j), (Nat.ltb_spec j (S a + n)),
               (Nat.leb_spec a j), (Nat.ltb_spec j (a + S n));
        cbn [andb]; auto; lia.
Qed.

Lemma level_row_balance (a : nat) :
  padd (pmul (of_nat a) one) (padd (pmul zero one) (pmul (of_nat a) (num (- (1))%Qc)))
  = zero.
Proof. unfold of_nat, zero, one, num. cbn. apply f_equal. ring. Qed.

Lemma level_row_balance' (a : nat) :
  padd (pmul zero one) (padd (pmul (of_nat a) one) (pmul (of_nat a) (num (- (1))%Qc)))
  = zero.
Proof. unfold of_nat, zero, one, num. cbn. apply f_equal. ring. Qed.

Lemma column_row_balance (o e : nat) :
  padd (pmul (of_nat o) one)
    (padd (pmul (of_nat e) one) (pmul (of_nat (o + e)) (num (- (1))%Qc)))
  = zero.
Proof.
  rewrite <- of_nat_add. unfold of_nat, zero, one, num. cbn. apply f_equal. ring.
Qed.

(** X12: the system of [get_loom] is always singular: on a 0/1 mask every
    row of the matrix is orthogonal to [(1, 1, -1, ..., -1)], so the
    normal equations never determine the parameters and the answer depends
    on which solution the solver picks. *)
Theorem loom_system_singular (nr nc : nat) (data mask : frame) (i : nat) :
  has_shape nr nc data -> has_shape nr nc mask -> is_mask mask -> 0 < nr ->
  i < nc + 2 ->
  pdot (nth i (fst (loom_system data mask)) []) (level_shift nc) = zero.
Proof.
  intros Hd Hm H01 Hpos Hi.
  assert (Hnc : ncols data = nc) by now apply (ncols_shape Hd).
  assert (HA := loom_matrix_shape data mask). rewrite Hnc in HA.
  rewrite (row_table HA Hi), pdot_row.
  assert (Hpix : forall k, k < nc + 2 ->
            pix (fst (loom_system data mask)) i k =
            normal_entry (of_nat (masked_count mask (odd_rows nr) (seq 0 nc)))
              (of_nat (masked_count mask (even_rows nr) (seq 0 nc)))
              (sum_axis0 nc (odds mask)) (sum_axis0 nc (evens mask))
              (sum_axis0 nc mask) i k).
  { intros k Hk. rewrite loom_matrix_pix by lia.
    now rewrite Hnc, (nO_count Hm H01), (nE_count Hm H01). }
  rewrite (Hpix 0), (Hpix 1) by lia.
  destruct i as [|[|j]].
  - cbn [normal_entry].
    rewrite (map_ext_in _ (fun j => pmul (of_nat (masked_count mask (odd_rows nr) [j]))
                                      (num (- (1))%Qc))).
    + rewrite psum_scaled_counts, <- masked_count_by_column.
      apply level_row_balance.
    + intros j Hj. apply in_seq_lt in Hj. rewrite Hpix by lia.
      replace (j + 2) with (S (S j)) by lia. cbn [normal_entry].
      now rewrite (nodd_count Hm H01 Hj).
  - cbn [normal_entry].
    rewrite (map_ext_in _ (fun j => pmul (of_nat (masked_count mask (even_rows nr) [j]))
                                      (num (- (1))%Qc))).
    + rewrite psum_scaled_counts, <- masked_count_by_column.
      apply level_row_balance'.
    + intros j Hj. apply in_seq_lt in Hj. rewrite Hpix by lia.
      replace (j + 2) with (S (S j)) by lia. cbn [normal_entry].
      now rewrite (neven_count Hm H01 Hj).
  - assert (Hj : j < nc) by lia. cbn [normal_entry].
    rewrite (nodd_count Hm H01 Hj), (neven_count Hm H01 Hj).
    rewrite (map_ext_in _ (fun k => pmul (if j =? k
                                          then of_nat (masked_count mask (seq 0 nr) [j])
                                          else zero) (num (- (1))%Qc))).
    + rewrite psum_diagonal.
      replace ((0 <=? j) && (j <? 0 + nc)) with true
        by (symmetry; apply andb_true_intro; split;
            [apply Nat.leb_le|apply Nat.ltb_lt]; lia).
      rewrite (masked_count_by_parity mask nr [j]). apply column_row_balance.
    + intros k Hk. apply in_seq_lt in Hk. rewrite Hpix by lia.
      replace (k + 2) with (S (S k)) by lia. cbn [normal_entry].
      now rewrite (nrows_count Hm H01 Hj).
Qed.

(** ** [get_last_minus_first]: further properties *)


Lemma position_lt (n : nat) (g : Z) : in_axis n g -> position n g < n.
Proof.
  unfold in_axis, position. intros H.
  destruct (g <? 0)%Z eqn:E; [apply Z.ltb_lt in E|apply Z.ltb_ge in E]; lia.
Qed.

Lemma get_last_minus_first_in_axis (ni ng nr nc : nat) (data : ramp) (mn mx : Z) :
  ramp_shape ni ng nr nc data -> 0 < ni -> in_axis ng mn -> in_axis ng mx ->
  get_last_minus_first data (Some mn) (Some mx) =
  Ok (map (slope data (position ng mn) (position ng mx)) (seq 0 ni),
      nanmedian_cube (nrows (frame0_of data)) (ncols (frame0_of data))
        (map (slope data (position ng mn) (position ng mx)) (seq 0 ni))).
Proof.
  intros Hs Hpos Hmn Hmx.
  assert (Hl : length data = ni) by apply Hs.
  assert (Hng : ngroups_of data = ng) by now apply (ramp_shape_ngroups Hs).
  rewrite <- Hl.
  apply get_last_minus_first_ok; rewrite Hng; now apply py_index_in_axis.
Qed.

Lemma nth_slopes (data : ramp) (kmin kmax ni i : nat) :
  i < ni -> nth i (map (slope data kmin kmax) (seq 0 ni)) [] = slope data kmin kmax i.
Proof. intros Hi. now apply nth_map_seq. Qed.

Lemma psub_swap (a b : px) : psub zero (psub a b) = psub b a.
Proof.
  destruct a as [x|], b as [y|]; cbn; auto. apply f_equal. ring.
Qed.

(** X15: exchanging the two groups changes the sign of the slope: with
    both indices in range, [get_last_minus_first] returns for (max, min)
    the opposite, pixel by pixel, of what it returns for (min, max), NaN
    where that one is NaN. *)
Theorem get_last_minus_first_swap (ni ng nr nc : nat) (data : ramp) (mn mx : Z) :
  ramp_shape ni ng nr nc data -> 0 < ni -> in_axis ng mn -> in_axis ng mx ->
  exists lmf med lmf' med',
    get_last_minus_first data (Some mn) (Some mx) = Ok (lmf, med) /\
    get_last_minus_first data (Some mx) (Some mn) = Ok (lmf', med') /\
    forall i r c, i < ni -> r < nr -> c < nc ->
      pix (nth i lmf' []) r c = psub zero (pix (nth i lmf []) r c).
Proof.
  intros Hs Hpos Hmn Hmx.
  rewrite (get_last_minus_first_in_axis Hs Hpos Hmn Hmx),
          (get_last_minus_first_in_axis Hs Hpos Hmx Hmn).
  do 4 eexists. split; [reflexivity|]. split; [reflexivity|].
  intros i r c Hi Hr Hc. rewrite !nth_slopes by auto.
  assert (H1 := position_lt Hmn). assert (H2 := position_lt Hmx).
  rewrite !(pix_slope Hs) by auto. now rewrite psub_swap.
Qed.

(** ** The correction loops of [stage1] *)



Section CorrectGroups.

Variable lsmr : frame -> vec -> vec.
Variables (method : preamp) (mask : frame) (ni ng nr nc : nat) (data : ramp).
Variable model : nat -> nat -> frame.
Variables (min_group max_group : Z).
Hypothesis Hs : ramp_shape ni ng nr nc data.
Hypothesis Hmodel : forall i j, i < ni -> j < ng ->
  group_model lsmr method (frame_at data i j) mask = Ok (model i j).
Hypothesis Hmin : in_axis ng min_group.
Hypothesis Hmax : in_axis ng max_group.

Let corrected (i j : nat) : frame := map2 psub (frame_at data i j) (model i j).












End CorrectGroups.



(** X18: the group keywords are not validated, they fail in the indexing:
    with 'roeba' or 'loom', on a ramp with at least one integration, a
    [min_group] or [max_group] outside [-ngroups, ngroups - 1] makes the
    block raise [IndexError] before any group is corrected, on a fresh run
    and on a reloaded product alike; with 'stsci' the block does nothing
    and never looks at them. *)
Theorem stage1_group_keywords_out_of_range (lsmr : frame -> vec -> vec)
    (method : preamp) (ni ng nr nc : nat) (superbias : ramp)
    (kw_min_group kw_max_group : option Z) (uniluminated_mask : option frame)
    (saved : option ramp) :
  ramp_shape ni ng nr nc superbias -> 0 < ni ->
  let min_group := match kw_min_group with Some g => g | None => 0%Z end in
  let max_group := match kw_max_group with Some g => g | None => (Z.of_nat ng - 1)%Z end in
  ~ (in_axis ng min_group /\ in_axis ng max_group) ->
  (method <> Stsci ->
   stage1_preamp lsmr method superbias kw_min_group kw_max_group uniluminated_mask saved
   = Raise IndexError) /\
  stage1_preamp lsmr Stsci superbias kw_min_group kw_max_group uniluminated_mask saved
  = Ok None.
Proof.
  intros Hs Hpos min_group max_group Hout.
  split; [|reflexivity]. intros Hmethod.
  assert (Hl : length superbias = ni) by apply Hs.
  assert (Hng : ngroups_of superbias = ng) by now apply (ramp_shape_ngroups Hs).
  assert (Hraise : get_last_minus_first superbias (Some min_group) (Some max_group)
                   = Raise IndexError).
  { apply get_last_minus_first_raise; [lia|]. rewrite Hng.
    destruct (in_axis_dec ng max_group) as [Hmax|Hmax].
    - right. apply py_index_out_of_axis. tauto.
    - left. now apply py_index_out_of_axis. }
  unfold stage1_preamp. rewrite Hng. fold min_group max_group.
  destruct method; [| |now elim Hmethod]; now rewrite Hraise.
Qed.

(** ** Instances of the further properties *)

Lemma get_uniluminated_mask_is_mask_witness :
  has_shape 3 2 (get_uniluminated_mask gap_frame (Q2Qc 3)) /\
  is_mask (get_uniluminated_mask gap_frame (Q2Qc 3)).
Proof.
  apply (@get_uniluminated_mask_is_mask 3 2 gap_frame (Q2Qc 3)).
  apply has_shapeb_ok. reflexivity.
Defined.

Lemma get_uniluminated_mask_nan_column_witness :
  pix (get_uniluminated_mask gap_frame (Q2Qc 3)) 2 1 = one.
Proof.
  apply (@get_uniluminated_mask_nan_column 3 2 gap_frame (Q2Qc 3) 1).
  - apply has_shapeb_ok. reflexivity.
  - lia.
  - exists 0. split; [lia|reflexivity].
  - lia.
Defined.

Lemma get_uniluminated_mask_monotone_witness :
  pix (get_uniluminated_mask bright_frame (Q2Qc 3)) 3 1 = one.
Proof.
  apply (@get_uniluminated_mask_monotone 5 2 bright_frame (Q2Qc 1) (Q2Qc 3) 3 1).
  - apply has_shapeb_ok. reflexivity.
  - lia.
  - lia.
  - discriminate.
  - apply px_eqb_eq. vm_compute. reflexivity.
Defined.

Lemma cc_uniluminated_outliers_criterion_witness :
  let updated := cc_uniluminated_outliers bright_frame bright_mask (Q2Qc 5) in
  let med := masked_median bright_frame bright_mask (seq 0 5) [1] in
  let level :=
    pmul (pmul (num (Q2Qc 5)) (masked_mad bright_frame bright_mask (seq 0 5) [1]))
      (num mad_scale) in
  let outlier :=
    exists v m t, pix bright_frame 1 1 = num v /\ med = num m /\ level = num t /\
                  (t < Qcabs (v - m))%Qc in
  (pix updated 1 1 = zero <-> pix bright_mask 1 1 = zero \/ outlier) /\
  (pix updated 1 1 = one <-> pix bright_mask 1 1 = one /\ ~ outlier).
Proof.
  apply (@cc_uniluminated_outliers_criterion 5 2 bright_frame bright_mask (Q2Qc 5) 1 1).
  - apply has_shapeb_ok. reflexivity.
  - apply has_shapeb_ok. reflexivity.
  - apply is_maskb_ok. vm_compute. reflexivity.
  - lia.
  - lia.
Defined.

Lemma cc_uniluminated_outliers_keeps_nan_witness :
  pix (cc_uniluminated_outliers gap_frame ones_3x2 (Q2Qc 5)) 0 1 = pix ones_3x2 0 1.
Proof.
  apply (@cc_uniluminated_outliers_keeps_nan 3 2 gap_frame ones_3x2 (Q2Qc 5) 0 1).
  - apply has_shapeb_ok. reflexivity.
  - apply has_shapeb_ok. reflexivity.
  - apply is_maskb_ok. vm_compute. reflexivity.
  - lia.
  - lia.
  - reflexivity.
Defined.

Lemma cc_uniluminated_outliers_keeps_half_witness :
  (count_ones (column 1 bright_mask) + 1) / 2
  <= count_ones (column 1 (cc_uniluminated_outliers bright_frame bright_mask (Q2Qc 5))).
Proof.
  apply (@cc_uniluminated_outliers_keeps_half 5 2 bright_frame bright_mask (Q2Qc 5) 1).
  - apply has_shapeb_ok. reflexivity.
  - apply has_shapeb_ok. reflexivity.
  - apply is_maskb_ok. vm_compute. reflexivity.
  - lia.
  - discriminate.
Defined.

Lemma get_roeba_ignores_masked_witness :
  get_roeba bright_frame bright_mask = get_roeba bright_frame' bright_mask.
Proof.
  apply (@get_roeba_ignores_masked 5 2 bright_frame bright_frame' bright_mask).
  - apply has_shapeb_ok. reflexivity.
  - apply has_shapeb_ok. reflexivity.
  - apply has_shapeb_ok. reflexivity.
  - intros r c Hr Hc Hm.
    destruct r as [|[|[|[|[|r]]]]]; [| | | | |lia];
      (destruct c as [|[|c]]; [| |lia]); try reflexivity.
    elim Hm. reflexivity.
Defined.

Lemma get_roeba_nan_without_background_witness :
  (forall c, c < 2 -> (forall r, r < 2 -> pix half_mask r c = zero) ->
     forall r, r < 2 -> pix (get_roeba half_frame half_mask) r c = NaN) /\
  ((forall r c, r < 2 -> c < 2 -> Nat.even r = true -> pix half_mask r c = zero) ->
   forall r c, r < 2 -> c < 2 -> Nat.even r = true ->
     pix (get_roeba half_frame half_mask) r c = NaN) /\
  ((forall r c, r < 2 -> c < 2 -> Nat.odd r = true -> pix half_mask r c = zero) ->
   forall r c, r < 2 -> c < 2 -> Nat.odd r = true ->
     pix (get_roeba half_frame half_mask) r c = NaN).
Proof.
  apply (@get_roeba_nan_without_background 2 2 half_frame half_mask).
  - apply has_shapeb_ok. reflexivity.
  - apply has_shapeb_ok. reflexivity.
Defined.

Lemma loom_system_symmetric_witness :
  pix (fst (loom_system bright_frame bright_mask)) 0 3 =
  pix (fst (loom_system bright_frame bright_mask)) 3 0.
Proof.
  apply (@loom_system_symmetric 5 2 bright_frame bright_mask 0 3).
  - apply has_shapeb_ok. reflexivity.
  - apply has_shapeb_ok. reflexivity.
  - cbn. lia.
  - cbn. lia.
Defined.

Lemma loom_system_singular_witness :
  pdot (nth 2 (fst (loom_system bright_frame bright_mask)) []) (level_shift 2) = zero.
Proof.
  apply (@loom_system_singular 5 2 bright_frame bright_mask 2).
  - apply has_shapeb_ok. reflexivity.
  - apply has_shapeb_ok. reflexivity.
  - apply is_maskb_ok. vm_compute. reflexivity.
  - lia.
  - lia.
Defined.

Lemma get_loom_level_shift_witness :
  exists loom,
    get_loom half_lsmr half_frame half_mask false = Ok (loom, None) /\
    get_loom shifted_lsmr half_frame half_mask false = Ok (loom, None).
Proof.
  apply (@get_loom_level_shift half_lsmr shifted_lsmr 2 2 half_frame half_mask (qz 3)).
  - apply has_shapeb_ok. reflexivity.
  - apply has_shapeb_ok. reflexivity.
  - lia.
  - reflexivity.
  - reflexivity.
Defined.

Lemma get_last_minus_first_swap_witness :
  exists lmf med lmf' med',
    get_last_minus_first three_groups (Some 0%Z) (Some 2%Z) = Ok (lmf, med) /\
    get_last_minus_first three_groups (Some 2%Z) (Some 0%Z) = Ok (lmf', med') /\
    forall i r c, i < 1 -> r < 1 -> c < 3 ->
      pix (nth i lmf' []) r c = psub zero (pix (nth i lmf []) r c).
Proof.
  apply (@get_last_minus_first_swap 1 3 1 3 three_groups 0%Z 2%Z).
  - apply ramp_shapeb_ok. reflexivity.
  - lia.
  - unfold in_axis. lia.
  - unfold in_axis. lia.
Defined.


Lemma stage1_group_keywords_out_of_range_witness :
  (Roeba <> Stsci ->
   stage1_preamp zero_lsmr Roeba lit_ramp (Some 5%Z) None (Some lit_mask) None
   = Raise IndexError) /\
  stage1_preamp zero_lsmr Stsci lit_ramp (Some 5%Z) None (Some lit_mask) None = Ok None.
Proof.
  apply (@stage1_group_keywords_out_of_range zero_lsmr Roeba 1 2 4 2 lit_ramp
           (Some 5%Z) None (Some lit_mask) None).
  - apply ramp_shapeb_ok. reflexivity.
  - lia.
  - unfold in_axis. lia.
Defined.

(** ** Computations and dictionaries *)

Lemma bind_throws (W A B : Type) (m : io W A) (k : A -> io W B) (w : W) :
  (forall a w', exists e, k a w' = Throw e) -> exists e, io_bind m k w = Throw e.
Proof.
  intros H. unfold io_bind. destruct (m w) as [[a w']|e]; [apply H|eauto].
Qed.

Lemma bind_thrown (W A B : Type) (m : io W A) (k : A -> io W B) (w : W) (e : error) :
  m w = Throw e -> io_bind m k w = Throw e.
Proof. intros H. unfold io_bind. now rewrite H. Qed.

Lemma bind_returned (W A B : Type) (m : io W A) (k : A -> io W B) (w w' : W) (a : A) :
  m w = Return (a, w') -> io_bind m k w = k a w'.
Proof. intros H. unfold io_bind. now rewrite H. Qed.

Lemma bind_returns (W A B : Type) (m : io W A) (k : A -> io W B) (w : W) (r : B * W) :
  io_bind m k w = Return r ->
  exists a w', m w = Return (a, w') /\ k a w' = Return r.
Proof.
  unfold io_bind. destruct (m w) as [[a w']|e]; [eauto|discriminate].
Qed.

Lemma mem_eq (x : String.string) (l : list String.string) : mem x l = true <-> In x l.
Proof.
  unfold mem. rewrite existsb_exists. split.
  - intros (y & Hy & E). apply String.eqb_eq in E. now subst.
  - intros H. exists x. split; [exact H|apply String.eqb_refl].
Qed.

Lemma getitem_absent (A : Type) (key : String.string) (d : list (String.string * A)) :
  has_key key d = false -> getitem key d = Throw (KeyError key).
Proof.
  unfold has_key, mem. induction d as [|[k v] d IH]; [reflexivity|].
  cbn [map fst existsb getitem]. intros H. apply orb_false_elim in H.
  destruct H as [H1 H2]. rewrite String.eqb_sym, H1. now apply IH.
Qed.

Lemma getitem_present (A : Type) (key : String.string) (d : list (String.string * A)) :
  has_key key d = true -> exists v, getitem key d = Return v.
Proof.
  unfold has_key, mem. induction d as [|[k v] d IH]; [discriminate|].
  cbn [map fst existsb getitem]. intros H. rewrite String.eqb_sym.
  destruct (String.eqb key k); [eauto|]. now apply IH.
Qed.

Lemma getitem_setitem (A : Type) (key key' : String.string) (v : A)
    (d : list (String.string * A)) :
  getitem key (setitem key' v d) =
  if String.eqb key' key then Return v else getitem key d.
Proof.
  induction d as [|[k v'] d IH]; cbn [setitem getitem].
  - reflexivity.
  - destruct (String.eqb_spec k key') as [->|Hk]; cbn [getitem].
    + now destruct (String.eqb key' key).
    + destruct (String.eqb_spec k key) as [->|Hk'].
      * destruct (String.eqb_spec key' key) as [->|]; [now elim Hk|reflexivity].
      * exact IH.
Qed.

Lemma has_key_setitem (A : Type) (key key' : String.string) (v : A)
    (d : list (String.string * A)) :
  has_key key (setitem key' v d) = String.eqb key key' || has_key key d.
Proof.
  unfold has_key, mem. induction d as [|[k v'] d IH]; cbn [setitem map fst existsb].
  - reflexivity.
  - destruct (String.eqb_spec k key') as [->|Hk]; cbn [map fst existsb].
    + now destruct (String.eqb key key'), (existsb (String.eqb key) (map fst d)).
    + rewrite IH.
      now destruct (String.eqb key k), (String.eqb key key'),
                   (existsb (String.eqb key) (map fst d)).
Qed.

Lemma has_key_pop (A : Type) (key key' : String.string) (d : list (String.string * A)) :
  has_key key (pop key' d) = negb (String.eqb key key') && has_key key d.
Proof.
  unfold has_key, mem, pop. induction d as [|[k v] d IH]; cbn [filter map fst existsb].
  - now rewrite andb_false_r.
  - destruct (String.eqb_spec k key') as [->|Hk]; cbn [negb map fst existsb].
    + rewrite IH. destruct (String.eqb key key'); reflexivity.
    + rewrite IH. destruct (String.eqb_spec key k) as [->|]; cbn [orb].
      * destruct (String.eqb_spec k key') as [->|]; [now elim Hk|reflexivity].
      * reflexivity.
Qed.

Lemma has_key_clean_subset (A : Type) (key : String.string) (skip : list String.string)
    (d : list (String.string * A)) :
  has_key key (fold_left (fun d s => if has_key s d then pop s d else d) skip d) = true ->
  has_key key d = true.
Proof.
  revert d. induction skip as [|s skip IH]; intros d; cbn [fold_left]; auto.
  intros H. apply IH in H. destruct (has_key s d); auto.
  rewrite has_key_pop in H. now apply andb_prop in H.
Qed.

Lemma has_key_clean (A : Type) (key : String.string) (skip : list String.string)
    (d : list (String.string * A)) :
  In key skip ->
  has_key key (fold_left (fun d s => if has_key s d then pop s d else d) skip d) = false.
Proof.
  revert d. induction skip as [|s skip IH]; intros d; [intros []|].
  cbn [fold_left]. intros [->|Hin]; [|now apply IH].
  apply not_true_is_false. intros H. apply has_key_clean_subset in H.
  destruct (has_key key d) eqn:E; [|congruence].
  rewrite has_key_pop, String.eqb_refl in H. discriminate.
Qed.

(** ** The ramp fit and its keywords *)

Lemma bind_throws_first (W A B : Type) (m : io W A) (k : A -> io W B) (w : W) :
  (exists e, m w = Throw e) -> exists e, io_bind m k w = Throw e.
Proof. intros [e H]. exists e. now apply bind_thrown. Qed.

Lemma rampfit_arguments_without_keywords (kwargs : keywords)
    (maximum_cores : String.string) :
  has_key "override_readnoise" (files kwargs) = false ->
  has_key "override_gain" (files kwargs) = false ->
  rampfit_arguments kwargs maximum_cores = Throw (KeyError "override_gain").
Proof.
  intros Hr Hg. unfold rampfit_arguments, override. rewrite Hr, Hg. cbn.
  now rewrite (getitem_absent _ _ Hg).
Qed.

Lemma rampfit_step_throws (L : library) (kwargs : keywords)
    (maximum_cores outputfolder full_datapath : String.string)
    (d : output_dictionary L) (w : world L) :
  has_key "override_readnoise" (files kwargs) = false ->
  has_key "override_gain" (files kwargs) = false ->
  path_exists L (full_datapath ^^ "_0_rampfitstep.fits") w = false ->
  exists e,
    rampfit_step kwargs maximum_cores outputfolder full_datapath d w = Throw e.
Proof.
  intros Hr Hg Hfile. unfold rampfit_step, io_bind, exists_path, pure.
  rewrite Hfile, (@rampfit_arguments_without_keywords kwargs maximum_cores Hr Hg).
  cbn [negb].
  destruct (getmodel "jumpstep" d); eauto.
Qed.

(** X19: the ramp fit cannot be run without a reference file.  When
    neither [override_readnoise] nor [override_gain] is given, the branch
    taken is the one that reads [kwargs['override_gain']] (its test is the
    string ['override_gain'], always true), so the arguments of
    [RampFitStep] raise [KeyError]; the call without override is never
    made, whatever the keywords; and [stage1] as a whole never returns
    unless the ramp-fit product is already on disk. *)
Theorem stage1_ramp_fit_needs_override (L : library) (datafile : String.string)
    (jump_threshold : Z) (get_times get_wavelength_map : bool)
    (maximum_cores preamp_correction : String.string) (skip_steps : list String.string)
    (outputfolder : String.string) (uniluminated_mask : option frame)
    (kwargs : keywords) (w : world L) :
  has_key "override_readnoise" (files kwargs) = false ->
  has_key "override_gain" (files kwargs) = false ->
  (forall path w', path_exists L (path ^^ "_0_rampfitstep.fits") w' = false) ->
  rampfit_arguments kwargs maximum_cores = Throw (KeyError "override_gain") /\
  (forall kwargs', rampfit_arguments kwargs' maximum_cores
                   <> Return [("maximum_cores", ArgStr maximum_cores)]) /\
  exists e,
    stage1 L datafile jump_threshold get_times get_wavelength_map maximum_cores
      preamp_correction skip_steps outputfolder uniluminated_mask kwargs w
    = Throw e.
Proof.
  intros Hr Hg Hfile. split; [now apply rampfit_arguments_without_keywords|]. split.
  - intros kwargs'. unfold rampfit_arguments, both, override.
    destruct (has_key "override_readnoise" (files kwargs'));
      destruct (has_key "override_gain" (files kwargs')); cbn [andb truthy];
      destruct (getitem "override_readnoise" (files kwargs'));
      destruct (getitem "override_gain" (files kwargs')); cbn; discriminate.
  - unfold stage1. cbv zeta.
    do 15 (apply bind_throws; intros ? ?).
    apply bind_throws_first. now apply rampfit_step_throws.
Qed.

(** ** The steps and their keywords *)

Lemma pipeline_step_throws (L : library) (skip_steps : list String.string)
    (outputfolder full_datapath name key suffix : String.string) (s : step)
    (input : outcome (datamodel L)) (extra : outcome arguments) (e0 : error)
    (d : output_dictionary L) (w : world L) :
  mem name skip_steps = false ->
  path_exists L (full_datapath ^^ suffix) w = false ->
  extra = Throw e0 ->
  exists e,
    pipeline_step skip_steps outputfolder full_datapath name key suffix s input extra d w
    = Throw e.
Proof.
  intros Hskip Hfile ->. unfold pipeline_step, io_bind, exists_path, pure.
  rewrite Hskip. cbn [negb]. rewrite Hfile. cbn [negb]. destruct input; eauto.
Qed.

(** X20: the dark-current step reads a keyword other than the one it
    tests.  When the step is run (not skipped, no product on disk) with the
    keyword [override_darkcurrent] but without a keyword [override_dark],
    its arguments raise [KeyError] on ['override_dark'] and [stage1] never
    returns. *)
Theorem stage1_dark_current_keyword (L : library) (datafile : String.string)
    (jump_threshold : Z) (get_times get_wavelength_map : bool)
    (maximum_cores preamp_correction : String.string) (skip_steps : list String.string)
    (outputfolder : String.string) (uniluminated_mask : option frame)
    (kwargs : keywords) (w : world L) :
  has_key "override_darkcurrent" (files kwargs) = true ->
  has_key "override_dark" (files kwargs) = false ->
  mem "darkcurrent" (map lower skip_steps) = false ->
  (forall path w', path_exists L (path ^^ "_darkcurrentstep.fits") w' = false) ->
  darkcurrent_arguments kwargs = Throw (KeyError "override_dark") /\
  exists e,
    stage1 L datafile jump_threshold get_times get_wavelength_map maximum_cores
      preamp_correction skip_steps outputfolder uniluminated_mask kwargs w
    = Throw e.
Proof.
  intros Hgiven Hmissing Hskip Hfile.
  assert (Hargs : darkcurrent_arguments kwargs = Throw (KeyError "override_dark")).
  { unfold darkcurrent_arguments, override.
    now rewrite Hgiven, (getitem_absent _ _ Hmissing). }
  split; [exact Hargs|].
  unfold stage1. cbv zeta.
  do 13 (apply bind_throws; intros ? ?).
  apply bind_throws_first.
  eapply pipeline_step_throws; eauto.
Qed.

(** ** The first lines of [stage1] *)

Lemma for_io_nothing (W A : Type) (body : unit -> A -> io W unit) (l : list A) (w : W) :
  (forall x, In x l -> body tt x w = Return (tt, w)) ->
  for_io body l tt w = Return (tt, w).
Proof.
  induction l as [|x l IH]; intros H; [reflexivity|].
  cbn [for_io]. rewrite (@bind_returned _ _ _ _ _ _ _ _ (H x (or_introl eq_refl))).
  apply IH. intros y Hy. apply H. now right.
Qed.

Lemma fetch_nothing (L : library) (kwargs : keywords) (w : world L) :
  (forall key path, contains "override_" key = true ->
     getitem key (files kwargs) = Return path -> path_exists L path w = true) ->
  fetch_reference_files L kwargs w = Return (tt, w).
Proof.
  intros H. unfold fetch_reference_files. apply for_io_nothing.
  intros key Hkey. destruct (contains "override_" key) eqn:E; [|reflexivity].
  assert (Hhas : has_key key (files kwargs) = true) by now apply mem_eq.
  destruct (getitem_present _ _ Hhas) as [path Hpath].
  unfold io_bind, pure, exists_path. rewrite Hpath, (H key path E Hpath). reflexivity.
Qed.

(** X21: a correction other than 'roeba', 'loom' and 'stsci' (whatever the
    case of the letters) is refused: [stage1] never returns, and when every
    reference file named by an [override_] keyword is on disk (none is
    downloaded) what it raises is the exception of line 383, before the
    output folder is made and before the data file is opened. *)
Theorem stage1_unknown_correction (L : library) (datafile : String.string)
    (jump_threshold : Z) (get_times get_wavelength_map : bool)
    (maximum_cores preamp_correction : String.string) (skip_steps : list String.string)
    (outputfolder : String.string) (uniluminated_mask : option frame)
    (kwargs : keywords) (w : world L) :
  lower preamp_correction <> "roeba" ->
  lower preamp_correction <> "loom" ->
  lower preamp_correction <> "stsci" ->
  (exists e,
     stage1 L datafile jump_threshold get_times get_wavelength_map maximum_cores
       preamp_correction skip_steps outputfolder uniluminated_mask kwargs w
     = Throw e) /\
  ((forall key path, contains "override_" key = true ->
      getitem key (files kwargs) = Return path -> path_exists L path w = true) ->
   stage1 L datafile jump_threshold get_times get_wavelength_map maximum_cores
     preamp_correction skip_steps outputfolder uniluminated_mask kwargs w
   = Throw (Exception (invalid_flag (lower preamp_correction)))).
Proof.
  intros H1 H2 H3.
  assert (Hparse : parse_preamp_correction preamp_correction
                   = Throw (Exception (invalid_flag (lower preamp_correction)))).
  { unfold parse_preamp_correction.
    destruct (String.eqb_spec (lower preamp_correction) "roeba"); [contradiction|].
    destruct (String.eqb_spec (lower preamp_correction) "loom"); [contradiction|].
    destruct (String.eqb_spec (lower preamp_correction) "stsci"); [contradiction|].
    reflexivity. }
  split.
  - unfold stage1. cbv zeta. apply bind_throws. intros ? ?.
    apply bind_throws_first. rewrite Hparse. eexists. reflexivity.
  - intros Hfiles. unfold stage1. cbv zeta.
    rewrite (@bind_returned _ _ _ _ _ _ _ _ (@fetch_nothing L kwargs w Hfiles)).
    apply bind_thrown. now rewrite Hparse.
Qed.

(** ** The dictionary that [stage1] returns *)

Lemma stage1_result (L : library) (datafile : String.string)
    (jump_threshold : Z) (get_times get_wavelength_map : bool)
    (maximum_cores preamp_correction : String.string) (skip_steps : list String.string)
    (outputfolder : String.string) (uniluminated_mask : option frame)
    (kwargs : keywords) (w w' : world L) (result : output_dictionary L) :
  stage1 L datafile jump_threshold get_times get_wavelength_map maximum_cores
    preamp_correction skip_steps outputfolder uniluminated_mask kwargs w
  = Return (result, w') ->
  exists (d : output_dictionary L) (assign_wcs : datamodel L)
         (times : option vec) (maps : option (list frame)),
    (get_times = true <-> times <> None) /\
    (get_wavelength_map = true <-> maps <> None) /\
    result =
    (let d := clean (map lower skip_steps) d in
     let d := setitem "rateints" (Cube (rate_data L assign_wcs)) d in
     let d := setitem "rateints_err" (Cube (rate_err L assign_wcs)) d in
     let d := setitem "rateints_dq" (Cube (rate_dq L assign_wcs)) d in
     let d :=
       match times with
       | Some times => setitem "times" (Vector (map (fun t => padd t mjd_offset) times)) d
       | None => d
       end in
     match maps with
     | Some maps => setitem "wavelength_maps" (Cube maps) d
     | None => d
     end).
Proof.
  unfold stage1. cbv zeta. intros H.
  repeat match type of H with
         | io_bind _ _ _ = Return _ =>
             let a := fresh "a" in
             let w := fresh "w" in
             let E := fresh "E" in
             apply bind_returns in H; destruct H as (a & w & E & H)
         end.
  unfold io_ret in H. injection H as <- _.
  exists (fst a14), a15, a5, a16. split; [|split; [|reflexivity]].
  - destruct get_times.
    + apply bind_returns in E5. destruct E5 as (t & ? & _ & E5).
      unfold io_ret in E5. injection E5 as <- _. split; [discriminate|reflexivity].
    + unfold io_ret in E5. injection E5 as <- _. split; [discriminate|congruence].
  - destruct get_wavelength_map.
    + apply bind_returns in E16. destruct E16 as (t & ? & _ & E16).
      unfold io_ret in E16. injection E16 as <- _. split; [discriminate|reflexivity].
    + unfold io_ret in E16. injection E16 as <- _. split; [discriminate|congruence].
Qed.

Lemma has_key_final (L : library) (key : String.string) (d : output_dictionary L)
    (assign_wcs : datamodel L) (times : option vec) (maps : option (list frame)) :
  ~ In key final_keys ->
  has_key key
    (let d := setitem "rateints" (Cube (rate_data L assign_wcs)) d in
     let d := setitem "rateints_err" (Cube (rate_err L assign_wcs)) d in
     let d := setitem "rateints_dq" (Cube (rate_dq L assign_wcs)) d in
     let d :=
       match times with
       | Some times => setitem "times" (Vector (map (fun t => padd t mjd_offset) times)) d
       | None => d
       end in
     match maps with
     | Some maps => setitem "wavelength_maps" (Cube maps) d
     | None => d
     end)
  = has_key key d.
Proof.
  intros Hkey. cbv zeta.
  assert (Hne : forall k, In k final_keys -> String.eqb key k = false).
  { intros k Hk. destruct (String.eqb_spec key k) as [->|]; [contradiction|reflexivity]. }
  destruct maps, times; rewrite ?has_key_setitem;
    rewrite ?Hne by (unfold final_keys; simpl; tauto); reflexivity.
Qed.

(** X22: no product of a skipped step is returned.  Whatever [stage1]
    returns, the dictionary holds no key that was named in [skip_steps]
    (lower-cased), the five keys written after the cleaning apart:
    [rateints], [rateints_err], [rateints_dq], [times] and
    [wavelength_maps]. *)
Theorem stage1_returns_no_skipped_step (L : library) (datafile : String.string)
    (jump_threshold : Z) (get_times get_wavelength_map : bool)
    (maximum_cores preamp_correction : String.string) (skip_steps : list String.string)
    (outputfolder : String.string) (uniluminated_mask : option frame)
    (kwargs : keywords) (w w' : world L) (result : output_dictionary L)
    (skipped : String.string) :
  stage1 L datafile jump_threshold get_times get_wavelength_map maximum_cores
    preamp_correction skip_steps outputfolder uniluminated_mask kwargs w
  = Return (result, w') ->
  In skipped skip_steps -> ~ In (lower skipped) final_keys ->
  has_key (lower skipped) result = false.
Proof.
  intros Hrun Hin Hkey.
  destruct (stage1_result _ _ _ _ _ _ _ _ _ _ _ Hrun)
    as (d & assign_wcs & times & maps & _ & _ & ->).
  assert (E := @has_key_final L (lower skipped) (clean (map lower skip_steps) d)
                 assign_wcs times maps Hkey).
  apply eq_trans with (has_key (lower skipped) (clean (map lower skip_steps) d));
    [exact E|].
  unfold clean. apply has_key_clean. now apply in_map.
Qed.

Lemma append_empty (s : String.string) : s ^^ "" = s.
Proof. induction s as [|c s IH]; [reflexivity|]. cbn [String.append]. now rewrite IH. Qed.

(** The path that the correction block hands to the later steps. *)
Lemma preamp_step_path (L : library) (method : preamp) (kwargs : keywords)
    (uniluminated_mask : option frame) (full_datapath : String.string)
    (d : output_dictionary L) (w w' : world L)
    (products : output_dictionary L * String.string) :
  preamp_step method kwargs uniluminated_mask full_datapath d w = Return (products, w') ->
  snd products = full_datapath ^^ preamp_infix method.
Proof.
  intros Hrun. unfold preamp_step, io_bind, pure, exists_path, io_ret in Hrun.
  destruct (getmodel "superbias" d) as [superbias|e]; [|discriminate].
  destruct method.
  - destruct (of_result (get_last_minus_first _ _ _)) as [before|e]; [|discriminate].
    destruct (negb (path_exists L _ w)).
    + destruct (of_result (correct_groups _ _ _ _ _ _ _ _ _)) as [corrected|e];
        [|discriminate].
      destruct (save L _ _ w) as [[[] w1]|e]; [|discriminate].
      cbn in Hrun. now injection Hrun as <- _.
    + destruct (RampModel L _ w) as [[refpix w1]|e]; [|discriminate].
      destruct (of_result (get_last_minus_first _ _ _)) as [reloaded|e]; [|discriminate].
      cbn in Hrun. now injection Hrun as <- _.
  - destruct (of_result (get_last_minus_first _ _ _)) as [before|e]; [|discriminate].
    destruct (negb (path_exists L _ w)).
    + destruct (of_result (correct_groups _ _ _ _ _ _ _ _ _)) as [corrected|e];
        [|discriminate].
      destruct (save L _ _ w) as [[[] w1]|e]; [|discriminate].
      cbn in Hrun. now injection Hrun as <- _.
    + destruct (RampModel L _ w) as [[refpix w1]|e]; [|discriminate].
      destruct (of_result (get_last_minus_first _ _ _)) as [reloaded|e]; [|discriminate].
      cbn in Hrun. now injection Hrun as <- _.
  - injection Hrun as <- _. cbn [snd preamp_infix]. symmetry. apply append_empty.
Qed.

(** The product that the last step of a run returns, and the dictionary
    before the cleaning. *)
Lemma stage1_last_step (L : library) (datafile : String.string)
    (jump_threshold : Z) (get_times get_wavelength_map : bool)
    (maximum_cores preamp_correction : String.string) (skip_steps : list String.string)
    (outputfolder : String.string) (uniluminated_mask : option frame)
    (kwargs : keywords) (w w' : world L) (result : output_dictionary L) :
  stage1 L datafile jump_threshold get_times get_wavelength_map maximum_cores
    preamp_correction skip_steps outputfolder uniluminated_mask kwargs w
  = Return (result, w') ->
  exists (method : preamp) (d : output_dictionary L)
         (fitted : output_dictionary L * list (datamodel L)) (assign_wcs : datamodel L)
         (w1 w2 w3 : world L),
    parse_preamp_correction preamp_correction = Return method /\
    rampfit_step kwargs maximum_cores (with_trailing_slash outputfolder)
      ((with_trailing_slash outputfolder ^^ "pipeline_outputs" ^^ "/"
        ^^ dataname_of datafile) ^^ preamp_infix method) d w1
    = Return (fitted, w2) /\
    assign_wcs_step L (with_trailing_slash outputfolder)
      ((with_trailing_slash outputfolder ^^ "pipeline_outputs" ^^ "/"
        ^^ dataname_of datafile) ^^ preamp_infix method) (snd fitted) w2
    = Return (assign_wcs, w3) /\
    getitem "rateints" result = Return (Cube (rate_data L assign_wcs)) /\
    getitem "rateints_err" result = Return (Cube (rate_err L assign_wcs)) /\
    getitem "rateints_dq" result = Return (Cube (rate_dq L assign_wcs)).
Proof.
  unfold stage1. cbv zeta. intros H.
  repeat match type of H with
         | io_bind _ _ _ = Return _ =>
             let a := fresh "a" in
             let w := fresh "w" in
             let E := fresh "E" in
             apply bind_returns in H; destruct H as (a & w & E & H)
         end.
  unfold io_ret in H. injection H as <- _.
  rewrite (preamp_step_path _ _ _ _ _ _ E10) in E14, E15.
  exists a0, a13, a14, a15, w14, w15, w16.
  split.
  { unfold pure in E0. destruct (parse_preamp_correction preamp_correction);
      [now injection E0 as -> _|discriminate]. }
  split; [exact E14|]. split; [exact E15|].
  destruct a16, a5; rewrite ?getitem_setitem; cbn; auto.
Qed.

(** X23: whatever is skipped, a run of [stage1] that returns hands back
    under [rateints], [rateints_err] and [rateints_dq] the three arrays of
    one and the same product, the output of the last step of the run: the
    file [<path>_1_assignwcsstep.fits] as loaded when it is on disk, and
    otherwise what [AssignWcsStep] returns on the second product of the
    ramp fit of this run, [<path>] being the path of the products with the
    infix of the correction.  It hands back [times] when [get_times] is
    set and [wavelength_maps] when [get_wavelength_map] is set. *)
Theorem stage1_returns_rates (L : library) (datafile : String.string)
    (jump_threshold : Z) (get_times get_wavelength_map : bool)
    (maximum_cores preamp_correction : String.string) (skip_steps : list String.string)
    (outputfolder : String.string) (uniluminated_mask : option frame)
    (kwargs : keywords) (w w' : world L) (result : output_dictionary L) :
  stage1 L datafile jump_threshold get_times get_wavelength_map maximum_cores
    preamp_correction skip_steps outputfolder uniluminated_mask kwargs w
  = Return (result, w') ->
  (exists (method : preamp) (d : output_dictionary L)
          (fitted : output_dictionary L * list (datamodel L)) (assign_wcs : datamodel L)
          (w1 w2 w3 : world L),
     let full_datapath :=
       (with_trailing_slash outputfolder ^^ "pipeline_outputs" ^^ "/"
        ^^ dataname_of datafile) ^^ preamp_infix method in
     parse_preamp_correction preamp_correction = Return method /\
     rampfit_step kwargs maximum_cores (with_trailing_slash outputfolder)
       full_datapath d w1
     = Return (fitted, w2) /\
     (if path_exists L (full_datapath ^^ "_1_assignwcsstep.fits") w2
      then
        RampModel L (full_datapath ^^ "_1_assignwcsstep.fits") w2
        = Return (assign_wcs, w3)
      else
        exists rateints,
          nth_error (snd fitted) 1 = Some rateints /\
          call L AssignWcsStep rateints
            [("output_dir", ArgStr (with_trailing_slash outputfolder ^^ "pipeline_outputs"));
             ("save_results", ArgBool true)] w2
          = Return (assign_wcs, w3)) /\
     getitem "rateints" result = Return (Cube (rate_data L assign_wcs)) /\
     getitem "rateints_err" result = Return (Cube (rate_err L assign_wcs)) /\
     getitem "rateints_dq" result = Return (Cube (rate_dq L assign_wcs))) /\
  (get_times = true -> has_key "times" result = true) /\
  (get_wavelength_map = true -> has_key "wavelength_maps" result = true).
Proof.
  intros Hrun. split.
  - destruct (stage1_last_step _ _ _ _ _ _ _ _ _ _ _ Hrun)
      as (method & d & fitted & assign_wcs & w1 & w2 & w3 & Hm & Hfit & Hwcs & Hrates).
    exists method, d, fitted, assign_wcs, w1, w2, w3. cbv zeta.
    split; [exact Hm|]. split; [exact Hfit|]. split; [|exact Hrates].
    unfold assign_wcs_step, io_bind, exists_path, pure in Hwcs.
    destruct (path_exists L _ w2); cbn [negb] in Hwcs; [exact Hwcs|].
    destruct (nth_error (snd fitted) 1) as [rateints|]; [|discriminate].
    exists rateints. split; [reflexivity|exact Hwcs].
  - destruct (stage1_result _ _ _ _ _ _ _ _ _ _ _ Hrun)
      as (d & assign_wcs & times & maps & Ht & Hm & ->).
    cbv zeta. split.
    + intros Hg. apply Ht in Hg. destruct times as [t|]; [|now elim Hg].
      destruct maps; rewrite ?has_key_setitem; cbn; rewrite ?orb_true_r; reflexivity.
    + intros Hg. apply Hm in Hg. destruct maps as [m|]; [|now elim Hg].
      rewrite has_key_setitem. reflexivity.
Qed.

(** ** Skipping 'refpix' *)

Lemma same_run_refl (L : library)
    (x : outcome ((output_dictionary L * String.string) * world L)) : same_run x x.
Proof. destruct x as [[[d p] w]|e]; cbn; auto. Qed.

Lemma same_run_sym (L : library)
    (x y : outcome ((output_dictionary L * String.string) * world L)) :
  same_run x y -> same_run y x.
Proof.
  destruct x as [[[d p] w]|e], y as [[[d' p'] w']|e']; cbn; auto.
  intros (-> & -> & H). auto.
Qed.

Lemma same_run_trans (L : library)
    (x y z : outcome ((output_dictionary L * String.string) * world L)) :
  same_run x y -> same_run y z -> same_run x z.
Proof.
  destruct x as [[[d p] w]|e], y as [[[d' p'] w']|e'], z as [[[d'' p''] w'']|e''];
    cbn; try tauto; try congruence.
  intros (-> & -> & H) (-> & -> & H'). repeat split. intros key.
  now rewrite H.
Qed.

Lemma getmodel_setitem_other (L : library) (key key' : String.string)
    (v : entry (datamodel L)) (d : output_dictionary L) :
  String.eqb key' key = false ->
  getmodel key (setitem key' v d) = getmodel key d.
Proof. intros H. unfold getmodel. now rewrite getitem_setitem, H. Qed.

Lemma products_same (L : library) (mask : frame) (refpix : datamodel L)
    (lmf lmf_after : list frame) (d d' : output_dictionary L) (key : String.string) :
  (forall k, String.eqb "refpix" k = false -> getitem k d = getitem k d') ->
  getitem key
    (setitem "lmf_after" (Cube lmf_after)
       (setitem "lmf_before" (Cube lmf)
          (setitem "refpix" (Model refpix) (setitem "mask" (Image mask) d)))) =
  getitem key
    (setitem "lmf_after" (Cube lmf_after)
       (setitem "lmf_before" (Cube lmf)
          (setitem "refpix" (Model refpix) (setitem "mask" (Image mask) d')))).
Proof.
  intros H. rewrite !getitem_setitem.
  destruct (String.eqb "lmf_after" key); auto.
  destruct (String.eqb "lmf_before" key); auto.
  destruct (String.eqb "refpix" key) eqn:E; auto.
  destruct (String.eqb "mask" key); auto.
Qed.

Lemma preamp_step_same (L : library) (method : preamp) (kwargs : keywords)
    (uniluminated_mask : option frame) (full_datapath : String.string)
    (d d' : output_dictionary L) (w : world L) :
  method <> Stsci ->
  getmodel "superbias" d = getmodel "superbias" d' ->
  (forall k, String.eqb "refpix" k = false -> getitem k d = getitem k d') ->
  same_run (preamp_step method kwargs uniluminated_mask full_datapath d w)
           (preamp_step method kwargs uniluminated_mask full_datapath d' w).
Proof.
  intros Hmethod Hsb Hd. unfold preamp_step, io_bind, pure, exists_path, io_ret.
  rewrite Hsb. destruct (getmodel "superbias" d') as [sb|e]; [|reflexivity].
  destruct method; [| |now elim Hmethod].
  - destruct (of_result (get_last_minus_first _ _ _)) as [before|e]; [|reflexivity].
    destruct (path_exists L _ w); cbn [negb].
    + destruct (RampModel L _ w) as [[refpix w1]|e]; [|reflexivity].
      destruct (of_result (get_last_minus_first _ _ _)) as [reloaded|e]; [|reflexivity].
      cbn. repeat split. intros key. now apply products_same.
    + destruct (of_result (correct_groups _ _ _ _ _ _ _ _ _)) as [corrected|e];
        [|reflexivity].
      destruct (save L _ _ w) as [[u w1]|e]; [|reflexivity].
      cbn. repeat split. intros key. now apply products_same.
  - destruct (of_result (get_last_minus_first _ _ _)) as [before|e]; [|reflexivity].
    destruct (path_exists L _ w); cbn [negb].
    + destruct (RampModel L _ w) as [[refpix w1]|e]; [|reflexivity].
      destruct (of_result (get_last_minus_first _ _ _)) as [reloaded|e]; [|reflexivity].
      cbn. repeat split. intros key. now apply products_same.
    + destruct (of_result (correct_groups _ _ _ _ _ _ _ _ _)) as [corrected|e];
        [|reflexivity].
      destruct (save L _ _ w) as [[u w1]|e]; [|reflexivity].
      cbn. repeat split. intros key. now apply products_same.
Qed.

Lemma refpix_and_preamp_same (L : library) (skip_steps : list String.string)
    (method : preamp) (kwargs : keywords) (uniluminated_mask : option frame)
    (outputfolder full_datapath : String.string) (d : output_dictionary L)
    (w : world L) :
  method <> Stsci ->
  same_run
    ((let* d1 := refpix_step skip_steps method outputfolder full_datapath d in
      preamp_step method kwargs uniluminated_mask full_datapath d1) w)
    (preamp_step method kwargs uniluminated_mask full_datapath d w).
Proof.
  intros Hmethod. unfold refpix_step.
  destruct (mem "refpix" skip_steps); cbn [negb].
  - unfold io_bind at 1. unfold io_bind at 1. unfold pure at 1.
    destruct (getmodel "superbias" d) as [sb|e] eqn:Esb.
    + unfold io_ret at 1. apply preamp_step_same; auto.
      * now rewrite getmodel_setitem_other by reflexivity.
      * intros k Hk. now rewrite getitem_setitem, Hk.
    + unfold preamp_step, io_bind, pure. rewrite Esb. reflexivity.
  - destruct method; [| |now elim Hmethod];
      unfold io_bind at 1; unfold io_ret at 1; apply same_run_refl.
Qed.

(** X24: naming 'refpix' in [skip_steps] does not switch the correction
    off.  With 'roeba' or 'loom', lines 519-632 end in the same way
    whatever [skip_steps] holds: the same exception, or the same files
    written and the same entries in the dictionary, the corrected product
    under [refpix] included, which is what the linearity step then
    reads. *)
Theorem skipping_refpix_keeps_correction (L : library)
    (skip_steps skip_steps' : list String.string)
    (method : preamp) (kwargs : keywords) (uniluminated_mask : option frame)
    (outputfolder full_datapath : String.string) (d : output_dictionary L)
    (w : world L) :
  method <> Stsci ->
  same_run
    ((let* d1 := refpix_step skip_steps method outputfolder full_datapath d in
      preamp_step method kwargs uniluminated_mask full_datapath d1) w)
    ((let* d1 := refpix_step skip_steps' method outputfolder full_datapath d in
      preamp_step method kwargs uniluminated_mask full_datapath d1) w).
Proof.
  intros Hmethod. eapply same_run_trans.
  - now apply refpix_and_preamp_same.
  - apply same_run_sym. now apply refpix_and_preamp_same.
Qed.

(** ** File names *)

Lemma append_assoc (a b c : String.string) : (a ^^ b) ^^ c = a ^^ (b ^^ c).
Proof. induction a as [|x a IH]; cbn; [reflexivity|now rewrite IH]. Qed.

Lemma append_empty_r (a : String.string) : a ^^ "" = a.
Proof. induction a as [|x a IH]; cbn; [reflexivity|now rewrite IH]. Qed.

Lemma last_component_app (a b current : String.string) :
  last_component (a ^^ b) current = last_component b (last_component a current).
Proof.
  revert current. induction a as [|x a IH]; intros current;
    cbn [String.append last_component]; [reflexivity|].
  destruct (Ascii.eqb x slash); apply IH.
Qed.

Lemma last_component_folder (folder current : String.string) :
  last_char folder = Some slash -> last_component folder current = "".
Proof.
  revert current. induction folder as [|x folder IH]; intros current; [discriminate|].
  cbn [last_char last_component]. destruct folder as [|y folder].
  - intros H. injection H as ->. now rewrite Ascii.eqb_refl.
  - intros H. destruct (Ascii.eqb x slash); now apply IH.
Qed.

Lemma last_component_plain (file current : String.string) :
  has_char slash file = false -> last_component file current = current ^^ file.
Proof.
  revert current. induction file as [|x file IH]; intros current;
    cbn [has_char last_component].
  - intros _. now rewrite append_empty_r.
  - intros H. apply orb_false_elim in H. destruct H as [Hx Hfile].
    rewrite Hx, IH by exact Hfile. now rewrite append_assoc.
Qed.

Lemma has_char_app (c : Ascii.ascii) (a b : String.string) :
  has_char c (a ^^ b) = has_char c a || has_char c b.
Proof.
  induction a as [|x a IH]; cbn [String.append has_char]; [reflexivity|].
  now rewrite IH, orb_assoc.
Qed.

Lemma last_component_of_path (folder file : String.string) :
  folder = "" \/ last_char folder = Some slash ->
  has_char slash file = false ->
  last_component (folder ^^ file) "" = file.
Proof.
  intros Hfolder Hfile. rewrite last_component_app.
  destruct Hfolder as [->|Hfolder].
  - cbn [last_component]. now rewrite last_component_plain.
  - rewrite (@last_component_folder folder "" Hfolder).
    now rewrite last_component_plain.
Qed.

Lemma before_first_absent (pat s : String.string) :
  contains pat s = false -> before_first pat s = s.
Proof.
  induction s as [|x s IH]; cbn [contains before_first]; intros H;
    apply orb_false_elim in H; destruct H as [Hp Hs]; rewrite Hp; [reflexivity|].
  now rewrite IH.
Qed.

Lemma prefix_get (p s : String.string) (i : nat) (c : Ascii.ascii) :
  String.prefix p s = true -> String.get i p = Some c -> String.get i s = Some c.
Proof.
  revert s i. induction p as [|x p IH]; intros s i; [intros _; discriminate|].
  destruct s as [|y s]; cbn [String.prefix]; [discriminate|].
  destruct (Ascii.ascii_dec x y) as [->|]; [|discriminate].
  intros Hp. destruct i as [|i]; cbn [String.get]; [auto|]. now apply IH.
Qed.

Lemma get_has_char (s : String.string) (i : nat) (c : Ascii.ascii) :
  String.get i s = Some c -> has_char c s = true.
Proof.
  revert i. induction s as [|x s IH]; intros i; [destruct i; discriminate|].
  destruct i as [|i]; cbn [String.get has_char].
  - intros H. injection H as ->. now rewrite Ascii.eqb_refl.
  - intros H. rewrite (IH i H). apply orb_true_r.
Qed.

Lemma no_early_match (t : String.string) :
  has_char period t = false -> String.prefix "uncal.fits" (t ^^ "_uncal.fits") = false.
Proof.
  intros Hdot. apply not_true_is_false. intros Hp.
  assert (H5 : String.get 5 (t ^^ "_uncal.fits") = Some period)
    by (apply (@prefix_get "uncal.fits" _ 5 period Hp); reflexivity).
  destruct (Nat.lt_ge_cases 5 (String.length t)) as [Hlong|Hshort].
  - rewrite <- String.append_correct1 in H5 by exact Hlong.
    apply get_has_char in H5. congruence.
  - assert (H : String.get (5 - String.length t) "_uncal.fits" = Some period).
    { rewrite (String.append_correct2 t "_uncal.fits" (5 - String.length t)).
      now replace (5 - String.length t + String.length t) with 5 by lia. }
    destruct (String.length t) as [|[|[|[|[|[|k]]]]]]; discriminate H.
Qed.

Lemma before_first_uncal (name : String.string) :
  has_char period name = false ->
  before_first "uncal.fits" (name ^^ "_uncal.fits") = name ^^ "_".
Proof.
  induction name as [|x name IH]; [reflexivity|].
  intros Hdot. assert (Hname : has_char period name = false).
  { cbn [has_char] in Hdot. now apply orb_false_elim in Hdot. }
  change (String.String x name ^^ "_uncal.fits")
    with (String.String x (name ^^ "_uncal.fits")).
  cbn [before_first].
  change (String.String x (name ^^ "_uncal.fits"))
    with (String.String x name ^^ "_uncal.fits").
  rewrite (@no_early_match (String.String x name) Hdot).
  cbn [String.append]. now rewrite IH.
Qed.

Lemma drop_last_underscore (name : String.string) : drop_last (name ^^ "_") = name.
Proof.
  induction name as [|x name IH]; [reflexivity|].
  cbn [String.append drop_last]. rewrite IH.
  destruct name; reflexivity.
Qed.

(** X25: how the products are named.  For a data file
    [<folder><name>_uncal.fits], where [<folder>] is empty or ends with a
    slash and [<name>] holds neither a slash nor a dot, the name under
    which the products are written is [<name>].  For a file whose name
    does not hold [uncal.fits] the name used is the file name less its last
    character. *)
Theorem dataname_of_data_file (folder name : String.string) :
  folder = "" \/ last_char folder = Some slash ->
  has_char slash name = false ->
  (has_char period name = false ->
   dataname_of (folder ^^ name ^^ "_uncal.fits") = name) /\
  (contains "uncal.fits" name = false ->
   dataname_of (folder ^^ name) = drop_last name).
Proof.
  intros Hfolder Hslash. split.
  - intros Hdot. unfold dataname_of. rewrite append_assoc.
    rewrite (@last_component_of_path folder (name ^^ "_uncal.fits") Hfolder)
      by (rewrite has_char_app, Hslash; reflexivity).
    now rewrite before_first_uncal, drop_last_underscore.
  - intros Habsent. unfold dataname_of.
    rewrite (@last_component_of_path folder name Hfolder Hslash).
    now rewrite before_first_absent.
Qed.

(** ** The reference files *)

(** X26: [stage1] downloads nothing it already has: when every file named
    by a keyword whose name holds [override_] is on disk, the loop of
    lines 364-372 leaves the world as it is; the keywords whose name does
    not hold [override_] are never looked at. *)
Theorem fetch_reference_files_present (L : library) (kwargs : keywords) (w : world L) :
  (forall key path, contains "override_" key = true ->
     getitem key (files kwargs) = Return path -> path_exists L path w = true) ->
  fetch_reference_files L kwargs w = Return (tt, w).
Proof. apply fetch_nothing. Qed.

(** ** Instances of the properties of the driver *)

Lemma stage1_ramp_fit_needs_override_witness :
  rampfit_arguments no_keywords "all" = Throw (KeyError "override_gain") /\
  (forall kwargs', rampfit_arguments kwargs' "all"
                   <> Return [("maximum_cores", ArgStr "all")]) /\
  exists e,
    stage1 (toy_library false) "data/jw01_nis_uncal.fits" 15 true true "all" "loom"
      [] "" None no_keywords tt
    = Throw e.
Proof.
  apply (@stage1_ramp_fit_needs_override (toy_library false) "data/jw01_nis_uncal.fits"
           15 true true "all" "loom" [] "" None no_keywords tt).
  - reflexivity.
  - reflexivity.
  - reflexivity.
Defined.

Lemma stage1_dark_current_keyword_witness :
  darkcurrent_arguments dark_keywords = Throw (KeyError "override_dark") /\
  exists e,
    stage1 (toy_library false) "data/jw01_nis_uncal.fits" 15 true true "all" "loom"
      [] "" None dark_keywords tt
    = Throw e.
Proof.
  apply (@stage1_dark_current_keyword (toy_library false) "data/jw01_nis_uncal.fits"
           15 true true "all" "loom" [] "" None dark_keywords tt).
  - reflexivity.
  - reflexivity.
  - reflexivity.
  - reflexivity.
Defined.

Lemma stage1_unknown_correction_witness :
  (exists e,
     stage1 (toy_library true) "data/jw01_nis_uncal.fits" 15 true true "all" "Median"
       [] "" None gain_keywords tt
     = Throw e) /\
  ((forall key path, contains "override_" key = true ->
      getitem key (files gain_keywords) = Return path ->
      path_exists (toy_library true) path tt = true) ->
   stage1 (toy_library true) "data/jw01_nis_uncal.fits" 15 true true "all" "Median"
     [] "" None gain_keywords tt
   = Throw (Exception (invalid_flag (lower "Median")))).
Proof.
  apply (@stage1_unknown_correction (toy_library true) "data/jw01_nis_uncal.fits"
           15 true true "all" "Median" [] "" None gain_keywords tt).
  - intros H. vm_compute in H. discriminate.
  - intros H. vm_compute in H. discriminate.
  - intros H. vm_compute in H. discriminate.
Defined.

Lemma stage1_returns_no_skipped_step_witness :
  has_key (lower "RefPix") toy_result = false.
Proof.
  apply (@stage1_returns_no_skipped_step (toy_library false) "data/jw01_nis_uncal.fits"
           15 true true "all" "LOOM" ["RefPix"; "dqinit"] "out" (Some lit_mask)
           gain_keywords tt tt toy_result "RefPix").
  - vm_compute. reflexivity.
  - simpl. auto.
  - intros H. vm_compute in H. intuition discriminate.
Defined.

Lemma stage1_returns_rates_witness :
  (exists (method : preamp) (d : output_dictionary (toy_library false))
          (fitted : output_dictionary (toy_library false) * list ramp)
          (assign_wcs : ramp) (w1 w2 w3 : unit),
     let full_datapath :=
       (with_trailing_slash "out" ^^ "pipeline_outputs" ^^ "/"
        ^^ dataname_of "data/jw01_nis_uncal.fits") ^^ preamp_infix method in
     parse_preamp_correction "LOOM" = Return method /\
     @rampfit_step (toy_library false) gain_keywords "all" (with_trailing_slash "out")
       full_datapath d w1
     = Return (fitted, w2) /\
     (if path_exists (toy_library false) (full_datapath ^^ "_1_assignwcsstep.fits") w2
      then
        RampModel (toy_library false) (full_datapath ^^ "_1_assignwcsstep.fits") w2
        = Return (assign_wcs, w3)
      else
        exists rateints,
          nth_error (snd fitted) 1 = Some rateints /\
          call (toy_library false) AssignWcsStep rateints
            [("output_dir", ArgStr (with_trailing_slash "out" ^^ "pipeline_outputs"));
             ("save_results", ArgBool true)] w2
          = Return (assign_wcs, w3)) /\
     getitem "rateints" toy_result
     = Return (Cube (rate_data (toy_library false) assign_wcs)) /\
     getitem "rateints_err" toy_result
     = Return (Cube (rate_err (toy_library false) assign_wcs)) /\
     getitem "rateints_dq" toy_result
     = Return (Cube (rate_dq (toy_library false) assign_wcs))) /\
  (true = true -> has_key "times" toy_result = true) /\
  (true = true -> has_key "wavelength_maps" toy_result = true).
Proof.
  apply (@stage1_returns_rates (toy_library false) "data/jw01_nis_uncal.fits"
           15 true true "all" "LOOM" ["RefPix"; "dqinit"] "out" (Some lit_mask)
           gain_keywords tt tt toy_result).
  vm_compute. reflexivity.
Defined.

Lemma skipping_refpix_keeps_correction_witness :
  same_run
    ((let* d1 := refpix_step ["refpix"] Loom "out/" "out/pipeline_outputs/jw01_nis"
                   toy_dictionary in
      preamp_step Loom no_keywords (Some lit_mask) "out/pipeline_outputs/jw01_nis" d1) tt)
    ((let* d1 := refpix_step [] Loom "out/" "out/pipeline_outputs/jw01_nis"
                   toy_dictionary in
      preamp_step Loom no_keywords (Some lit_mask) "out/pipeline_outputs/jw01_nis" d1) tt).
Proof.
  apply (@skipping_refpix_keeps_correction (toy_library false) ["refpix"] [] Loom
           no_keywords (Some lit_mask) "out/" "out/pipeline_outputs/jw01_nis"
           toy_dictionary tt).
  discriminate.
Defined.

Lemma dataname_of_data_file_witness :
  (has_char period "jw01_nis" = false ->
   dataname_of ("data/" ^^ "jw01_nis" ^^ "_uncal.fits") = "jw01_nis") /\
  (contains "uncal.fits" "jw01_nis" = false ->
   dataname_of ("data/" ^^ "jw01_nis") = drop_last "jw01_nis").
Proof.
  apply (@dataname_of_data_file "data/" "jw01_nis").
  - right. reflexivity.
  - reflexivity.
Defined.

Lemma fetch_reference_files_present_witness :
  fetch_reference_files (toy_library true) gain_keywords tt = Return (tt, tt).
Proof.
  apply (@fetch_reference_files_present (toy_library true) gain_keywords tt).
  intros key path _ _. reflexivity.
Defined.

(** ** The correction inside the driver *)

Lemma of_result_returns (A : Type) (r : result A) (a : A) :
  of_result r = Return a -> r = Ok a.
Proof. destruct r; cbn; congruence. Qed.

Lemma products_lookup (L : library) (mask : frame) (refpix : datamodel L)
    (lmf lmf_after : list frame) (d : output_dictionary L) :
  let d' :=
    setitem "lmf_after" (Cube lmf_after)
      (setitem "lmf_before" (Cube lmf)
         (setitem "refpix" (Model refpix) (setitem "mask" (Image mask) d))) in
  getitem "superbias" d' = getitem "superbias" d /\
  getitem "mask" d' = Return (Image mask) /\
  getitem "refpix" d' = Return (Model refpix) /\
  getitem "lmf_before" d' = Return (Cube lmf) /\
  getitem "lmf_after" d' = Return (Cube lmf_after).
Proof. cbv zeta. rewrite !getitem_setitem. cbn. auto. Qed.

(** X27: what the correction block stores, for 'roeba' and 'loom'.  When
    lines 539-632 return, the path of the later products has the infix of
    the correction, the entry [superbias] is as before (the correction
    works on a copy), and the entries [mask], [refpix], [lmf_before] and
    [lmf_after] hold the four products of the correction: computed from
    the data of the superbias product, with [refpix] the copy of that
    product holding the corrected ramp, saved under
    [<path>_refpixstep_<correction>.fits], when that file is not on disk;
    and with [refpix] the file as loaded, and [lmf_after] recomputed from
    it, when it is. *)
Theorem preamp_step_stores_products (L : library) (method : preamp)
    (kwargs : keywords) (uniluminated_mask : option frame)
    (full_datapath : String.string) (d : output_dictionary L)
    (superbias : datamodel L) (w : world L)
    (d' : output_dictionary L) (full_datapath' : String.string) (w' : world L) :
  method <> Stsci ->
  getmodel "superbias" d = Return superbias ->
  preamp_step method kwargs uniluminated_mask full_datapath d w
  = Return ((d', full_datapath'), w') ->
  let output_filename := full_datapath ^^ preamp_infix method ^^ ".fits" in
  full_datapath' = full_datapath ^^ preamp_infix method /\
  getitem "superbias" d' = getitem "superbias" d /\
  exists p refpix,
    getitem "mask" d' = Return (Image (out_mask p)) /\
    getitem "refpix" d' = Return (Model refpix) /\
    getitem "lmf_before" d' = Return (Cube (out_lmf_before p)) /\
    getitem "lmf_after" d' = Return (Cube (out_lmf_after p)) /\
    if path_exists L output_filename w
    then
      RampModel L output_filename w = Return (refpix, w') /\
      stage1_preamp (solver L) method (data L superbias) (kw_min_group kwargs)
        (kw_max_group kwargs) uniluminated_mask (Some (data L refpix))
      = Ok (Some p)
    else
      refpix = with_data L (out_refpix p) superbias /\
      save L refpix output_filename w = Return (tt, w') /\
      stage1_preamp (solver L) method (data L superbias) (kw_min_group kwargs)
        (kw_max_group kwargs) uniluminated_mask None
      = Ok (Some p).
Proof.
  intros Hmethod Hsb Hrun output_filename. subst output_filename.
  unfold preamp_step, io_bind, pure, exists_path, io_ret in Hrun.
  rewrite Hsb in Hrun. unfold stage1_preamp.
  destruct method; [| |now elim Hmethod].
  - destruct (of_result (get_last_minus_first _ _ _)) as [before|e] eqn:Eb;
      [|discriminate].
    apply of_result_returns in Eb. rewrite Eb. cbn [bind].
    destruct (path_exists L _ w); cbn [negb] in Hrun.
    + destruct (RampModel L _ w) as [[refpix w1]|e]; [|discriminate].
      destruct (of_result (get_last_minus_first _ _ _)) as [reloaded|e] eqn:Er;
        [|discriminate].
      apply of_result_returns in Er. cbn in Hrun. injection Hrun as <- <- <-.
      split; [reflexivity|]. split; [apply products_lookup|].
      eexists. exists refpix. rewrite Er. cbn [bind].
      repeat split; try apply products_lookup.
    + destruct (of_result (correct_groups _ _ _ _ _ _ _ _ _)) as [corrected|e] eqn:Ec;
        [|discriminate].
      apply of_result_returns in Ec.
      destruct (save L _ _ w) as [[[] w1]|e] eqn:Es; [|discriminate].
      cbn in Hrun. injection Hrun as <- <- <-.
      split; [reflexivity|]. split; [apply products_lookup|].
      eexists. eexists. rewrite Ec. cbn [bind].
      repeat split; try apply products_lookup. exact Es.
  - destruct (of_result (get_last_minus_first _ _ _)) as [before|e] eqn:Eb;
      [|discriminate].
    apply of_result_returns in Eb. rewrite Eb. cbn [bind].
    destruct (path_exists L _ w); cbn [negb] in Hrun.
    + destruct (RampModel L _ w) as [[refpix w1]|e]; [|discriminate].
      destruct (of_result (get_last_minus_first _ _ _)) as [reloaded|e] eqn:Er;
        [|discriminate].
      apply of_result_returns in Er. cbn in Hrun. injection Hrun as <- <- <-.
      split; [reflexivity|]. split; [apply products_lookup|].
      eexists. exists refpix. rewrite Er. cbn [bind].
      repeat split; try apply products_lookup.
    + destruct (of_result (correct_groups _ _ _ _ _ _ _ _ _)) as [corrected|e] eqn:Ec;
        [|discriminate].
      apply of_result_returns in Ec.
      destruct (save L _ _ w) as [[[] w1]|e] eqn:Es; [|discriminate].
      cbn in Hrun. injection Hrun as <- <- <-.
      split; [reflexivity|]. split; [apply products_lookup|].
      eexists. eexists. rewrite Ec. cbn [bind].
      repeat split; try apply products_lookup. exact Es.
Qed.

(** ** Instances of the properties of the correction *)

Lemma preamp_step_stores_products_witness :
  snd toy_products = "out/pipeline_outputs/jw01_nis" ^^ preamp_infix Loom /\
  getitem "superbias" (fst toy_products) = getitem "superbias" toy_dictionary /\
  exists p refpix,
    getitem "mask" (fst toy_products) = Return (Image (out_mask p)) /\
    getitem "refpix" (fst toy_products) = Return (Model refpix) /\
    getitem "lmf_before" (fst toy_products) = Return (Cube (out_lmf_before p)) /\
    getitem "lmf_after" (fst toy_products) = Return (Cube (out_lmf_after p)) /\
    if path_exists (toy_library false)
         ("out/pipeline_outputs/jw01_nis" ^^ preamp_infix Loom ^^ ".fits") tt
    then
      RampModel (toy_library false)
        ("out/pipeline_outputs/jw01_nis" ^^ preamp_infix Loom ^^ ".fits") tt
      = Return (refpix, tt) /\
      stage1_preamp (solver (toy_library false)) Loom (data (toy_library false) lit_ramp)
        (kw_min_group no_keywords) (kw_max_group no_keywords) (Some lit_mask)
        (Some (data (toy_library false) refpix))
      = Ok (Some p)
    else
      refpix = with_data (toy_library false) (out_refpix p) lit_ramp /\
      save (toy_library false) refpix
        ("out/pipeline_outputs/jw01_nis" ^^ preamp_infix Loom ^^ ".fits") tt
      = Return (tt, tt) /\
      stage1_preamp (solver (toy_library false)) Loom (data (toy_library false) lit_ramp)
        (kw_min_group no_keywords) (kw_max_group no_keywords) (Some lit_mask) None
      = Ok (Some p).
Proof.
  apply (@preamp_step_stores_products (toy_library false) Loom no_keywords
           (Some lit_mask) "out/pipeline_outputs/jw01_nis" toy_dictionary lit_ramp tt
           (fst toy_products) (snd toy_products) tt).
  - discriminate.
  - reflexivity.
  - vm_compute. reflexivity.
Defined.
